(** * HackSquad Q&A backend: the vote, reputation, notification and
      acceptance pipelines

    A shallow embedding of the Mongoose models [Question], [Answer],
    [Notification] (server/models) and of the Express routes that drive
    them (the questions router and the answers router), followed by the
    properties of the vote and acceptance pipelines.

    The database is an explicit [World]: one finite map per collection,
    the list of notification documents, the clock read by [new Date()],
    the console, and a journal recording every persistence operation in
    the order in which it is issued.  Asynchronous code is a state and
    exception monad over that world; a rejected promise keeps every write
    made before the rejection, since nothing in the sources opens a
    transaction.  Requests are handled one after the other.  Of the
    failures of the database, the one the properties speak about is
    modelled: the notifications collection may reject writes.

    The first part holds the model and the vocabulary of the properties,
    the second part the lemmas and theorems. *)

From Stdlib Require Import ZArith Lia String DecimalString DecimalNat.
From stdpp Require Import gmap strings list fin_maps sorting.

Local Open Scope string_scope.
Local Open Scope list_scope.

(** ** Documents *)

(** A MongoDB [ObjectId]; only its identity matters. *)
Abbreviation ObjectId := nat (only parsing).

(** server/models/User.js, the fields read or written by the pipelines. *)
Record UserDoc := mkUser {
  username : string;
  reputation : Z;
  isActive : bool
}.

(** server/models/Question.js: [author], [votes], [upvotes], [downvotes],
    [answerCount], [hasAcceptedAnswer], [acceptedAnswer], [lastActivity].
    The arrays are kept as lists, in insertion order, because [votes] is
    computed from their [length]. *)
Record QuestionDoc := mkQuestion {
  q_author : ObjectId;
  q_votes : Z;
  q_upvotes : list ObjectId;
  q_downvotes : list ObjectId;
  q_answerCount : Z;
  q_hasAcceptedAnswer : bool;
  q_acceptedAnswer : option ObjectId;
  q_lastActivity : nat
}.

(** server/models/Answer.js: [author], [question], [votes], [upvotes],
    [downvotes], [isAccepted]. *)
Record AnswerDoc := mkAnswer {
  a_author : ObjectId;
  a_question : ObjectId;
  a_votes : Z;
  a_upvotes : list ObjectId;
  a_downvotes : list ObjectId;
  a_isAccepted : bool
}.

(** The [voteType] accepted by [questionSchemas.vote] and
    [answerSchemas.vote]: [Joi.string().valid('up', 'down', 'remove')]. *)
Inductive VoteType := up | down | remove.

(** The values of the [type] enum of the notification schema that the
    pipelines create. *)
Inductive NotificationType :=
  question_answered | answer_voted | question_voted | answer_accepted.

(** server/models/Notification.js.  [n_recipient] is optional in the
    in-memory document (the routes pass the result of a [findById], which
    may be [null]); the schema requires it when the document is saved. *)
Record NotificationDoc := mkNotification {
  n_recipient : option ObjectId;
  n_sender : ObjectId;
  n_type : NotificationType;
  n_title : string;
  n_message : string;
  n_relatedQuestion : option ObjectId;
  n_relatedAnswer : option ObjectId;
  n_priority : string;
  n_metadata_voteType : option VoteType;
  n_read : bool
}.

#[global] Instance VoteType_eq_dec : EqDecision VoteType.
Proof. solve_decision. Defined.

#[global] Instance NotificationType_eq_dec : EqDecision NotificationType.
Proof. solve_decision. Defined.

(** ** The world *)

(** One entry of the journal: a persistence operation issued against the
    database, whether or not it matched a document. *)
Inductive Write :=
  | UserIncReputation (user : ObjectId) (delta : Z)
  | QuestionSave (question : ObjectId)
  | QuestionUpdate (question : ObjectId)
  | AnswerSave (answer : ObjectId)
  | AnswerUpdate (answer : ObjectId)
  | AnswerUpdateMany (question : ObjectId)
  | NotificationSave (type : NotificationType).

#[global] Instance Write_eq_dec : EqDecision Write.
Proof. solve_decision. Defined.

Record World := mkWorld {
  users : gmap nat UserDoc;
  questions : gmap nat QuestionDoc;
  answers : gmap nat AnswerDoc;
  notifications : list NotificationDoc;
  (** what [new Date()] returns *)
  now : nat;
  (** whether the notifications collection accepts writes *)
  notificationStoreUp : bool;
  journal : list Write;
  console : list string
}.

Definition set_users (f : gmap nat UserDoc → gmap nat UserDoc) (w : World) : World :=
  mkWorld (f (users w)) (questions w) (answers w) (notifications w)
          (now w) (notificationStoreUp w) (journal w) (console w).

Definition set_questions (f : gmap nat QuestionDoc → gmap nat QuestionDoc) (w : World) : World :=
  mkWorld (users w) (f (questions w)) (answers w) (notifications w)
          (now w) (notificationStoreUp w) (journal w) (console w).

Definition set_answers (f : gmap nat AnswerDoc → gmap nat AnswerDoc) (w : World) : World :=
  mkWorld (users w) (questions w) (f (answers w)) (notifications w)
          (now w) (notificationStoreUp w) (journal w) (console w).

Definition add_notification (n : NotificationDoc) (w : World) : World :=
  mkWorld (users w) (questions w) (answers w) (notifications w ++ [n])
          (now w) (notificationStoreUp w) (journal w) (console w).

Definition record (e : Write) (w : World) : World :=
  mkWorld (users w) (questions w) (answers w) (notifications w)
          (now w) (notificationStoreUp w) (journal w ++ [e]) (console w).

Definition console_error (line : string) (w : World) : World :=
  mkWorld (users w) (questions w) (answers w) (notifications w)
          (now w) (notificationStoreUp w) (journal w) (console w ++ [line]).

(** ** Promises *)

(** The result of awaiting a promise: it is fulfilled with a value or
    rejected with an error message; the world is the one reached when the
    promise settles. *)
Inductive Outcome (A : Type) :=
  | Fulfilled (a : A) (w : World)
  | Rejected (e : string) (w : World).
Arguments Fulfilled {A} a w.
Arguments Rejected {A} e w.

Definition Promise (A : Type) : Type := World → Outcome A.

#[global] Instance Promise_ret : MRet Promise := λ A a w, Fulfilled a w.

#[global] Instance Promise_bind : MBind Promise := λ A B k m w,
  match m w with
  | Fulfilled a w' => k a w'
  | Rejected e w' => Rejected e w'
  end.

(** A step that only changes the world. *)
Definition write (f : World → World) : Promise unit := λ w, Fulfilled tt (f w).

Definition world_of {A} (o : Outcome A) : World :=
  match o with Fulfilled _ w => w | Rejected _ w => w end.

(** ** Mongoose arrays *)

(** [MongooseArray.prototype.pull]: removes every element equal to [x]. *)
Definition pull (x : ObjectId) (l : list ObjectId) : list ObjectId :=
  filter (λ y, y ≠ x) l.

(** [Array.prototype.includes]. *)
Definition includes (x : ObjectId) (l : list ObjectId) : bool :=
  bool_decide (x ∈ l).

(** [Array.prototype.push]. *)
Definition push (x : ObjectId) (l : list ObjectId) : list ObjectId :=
  l ++ [x].

(** ** Collection operations provided by Mongoose *)

Module UserModel.

(** [User.findById(id)]: the document with its [_id], or [null]. *)
Definition findById (id : ObjectId) : Promise (option (ObjectId * UserDoc)) :=
  λ w, Fulfilled ((λ u, (id, u)) <$> users w !! id) w.

(** [User.findByIdAndUpdate(id, { $inc: { reputation: delta } })]: no
    document matching is not an error. *)
Definition findByIdAndUpdate_inc_reputation (id : ObjectId) (delta : Z) : Promise unit :=
  λ w, Fulfilled tt
    (set_users (alter (λ u, mkUser (username u) (reputation u + delta) (isActive u)) id)
               (record (UserIncReputation id delta) w)).

End UserModel.

Module QuestionModel.

Definition findById (id : ObjectId) : Promise (option QuestionDoc) :=
  λ w, Fulfilled (questions w !! id) w.

(** [Question.findByIdAndUpdate(id, update)]. *)
Definition findByIdAndUpdate (id : ObjectId) (update : QuestionDoc → QuestionDoc) : Promise unit :=
  λ w, Fulfilled tt (set_questions (alter update id) (record (QuestionUpdate id) w)).

End QuestionModel.

Module AnswerModel.

Definition findById (id : ObjectId) : Promise (option AnswerDoc) :=
  λ w, Fulfilled (answers w !! id) w.

Definition set_isAccepted (b : bool) (a : AnswerDoc) : AnswerDoc :=
  mkAnswer (a_author a) (a_question a) (a_votes a) (a_upvotes a) (a_downvotes a) b.

(** [Answer.findByIdAndUpdate(id, { isAccepted: b })]. *)
Definition findByIdAndUpdate_isAccepted (id : ObjectId) (b : bool) : Promise unit :=
  λ w, Fulfilled tt (set_answers (alter (set_isAccepted b) id) (record (AnswerUpdate id) w)).

(** [Answer.updateMany({ question: q, _id: { $ne: except } },
    { isAccepted: false })]. *)
Definition updateMany_clear_isAccepted (q except : ObjectId) : Promise unit :=
  λ w, Fulfilled tt
    (set_answers
       (map_imap (λ id a,
          Some (if bool_decide (a_question a = q ∧ id ≠ except)
                then set_isAccepted false a else a)))
       (record (AnswerUpdateMany q) w)).

End AnswerModel.

(** [new Date()]. *)
Definition new_Date : Promise nat := λ w, Fulfilled (now w) w.

(** Mongoose's change tracking, [this.isModified()], for a question
    document about to be saved; its first argument is the document as it
    is stored.  It belongs to the library, so the development is
    parametric in it. *)
Class ChangeTracking := isModified : option QuestionDoc → QuestionDoc → bool.

(** ** server/models/Question.js *)

Module Question.
Section WithChangeTracking.
Context `{ChangeTracking}.

Definition with_ledger (ups downs : list ObjectId) (this : QuestionDoc) : QuestionDoc :=
  mkQuestion (q_author this) (q_votes this) ups downs (q_answerCount this)
             (q_hasAcceptedAnswer this) (q_acceptedAnswer this) (q_lastActivity this).

Definition with_votes (n : Z) (this : QuestionDoc) : QuestionDoc :=
  mkQuestion (q_author this) n (q_upvotes this) (q_downvotes this) (q_answerCount this)
             (q_hasAcceptedAnswer this) (q_acceptedAnswer this) (q_lastActivity this).

Definition with_lastActivity (t : nat) (this : QuestionDoc) : QuestionDoc :=
  mkQuestion (q_author this) (q_votes this) (q_upvotes this) (q_downvotes this)
             (q_answerCount this) (q_hasAcceptedAnswer this) (q_acceptedAnswer this) t.

Definition with_accepted (answerId : ObjectId) (this : QuestionDoc) : QuestionDoc :=
  mkQuestion (q_author this) (q_votes this) (q_upvotes this) (q_downvotes this)
             (q_answerCount this) true (Some answerId) (q_lastActivity this).

(** The second [pre('save')] hook: a modified document that is not new
    gets a fresh [lastActivity]; the documents saved below come from
    [findById], so none is new.  The first hook rewrites [slug] when the
    title changed or the document is new; no pipeline below touches the
    title or saves a new question, and [slug] is not modelled. *)
Definition pre_save (_id : ObjectId) (this : QuestionDoc) : Promise QuestionDoc := λ w,
  Fulfilled (if isModified (questions w !! _id) this
             then with_lastActivity (now w) this else this) w.

(** [this.save()] on a document obtained from [findById]. *)
Definition save (_id : ObjectId) (this : QuestionDoc) : Promise QuestionDoc :=
  this ← pre_save _id this;
  write (λ w, set_questions (insert _id this) (record (QuestionSave _id) w));;
  mret this.

Definition votes_of (ups downs : list ObjectId) : Z :=
  (Z.of_nat (length ups) - Z.of_nat (length downs))%Z.

Definition upvote (_id : ObjectId) (this : QuestionDoc) (userId : ObjectId) : Promise QuestionDoc :=
  (* Remove from downvotes if exists *)
  let this := with_ledger (q_upvotes this) (pull userId (q_downvotes this)) this in
  (* Add to upvotes if not already there *)
  this ← (if negb (includes userId (q_upvotes this)) then
            let this := with_ledger (push userId (q_upvotes this)) (q_downvotes this) this in
            UserModel.findByIdAndUpdate_inc_reputation (q_author this) 5;;
            mret this
          else mret this);
  (* Update vote count *)
  let this := with_votes (votes_of (q_upvotes this) (q_downvotes this)) this in
  save _id this.

Definition downvote (_id : ObjectId) (this : QuestionDoc) (userId : ObjectId) : Promise QuestionDoc :=
  (* Remove from upvotes if exists *)
  let this := with_ledger (pull userId (q_upvotes this)) (q_downvotes this) this in
  (* Add to downvotes if not already there *)
  this ← (if negb (includes userId (q_downvotes this)) then
            let this := with_ledger (q_upvotes this) (push userId (q_downvotes this)) this in
            UserModel.findByIdAndUpdate_inc_reputation (q_author this) (-2);;
            mret this
          else mret this);
  let this := with_votes (votes_of (q_upvotes this) (q_downvotes this)) this in
  save _id this.

Definition removeVote (_id : ObjectId) (this : QuestionDoc) (userId : ObjectId) : Promise QuestionDoc :=
  let hadUpvote := includes userId (q_upvotes this) in
  let hadDownvote := includes userId (q_downvotes this) in
  let this := with_ledger (pull userId (q_upvotes this)) (q_downvotes this) this in
  let this := with_ledger (q_upvotes this) (pull userId (q_downvotes this)) this in
  (* Update author's reputation *)
  (if hadUpvote || hadDownvote then
     let reputationChange := if hadUpvote then (-5)%Z else 2%Z in
     UserModel.findByIdAndUpdate_inc_reputation (q_author this) reputationChange
   else mret tt);;
  let this := with_votes (votes_of (q_upvotes this) (q_downvotes this)) this in
  save _id this.

Definition acceptAnswer (_id : ObjectId) (this : QuestionDoc) (answerId : ObjectId) : Promise QuestionDoc :=
  (* Remove accepted status from previous answer *)
  match q_acceptedAnswer this with
  | Some previous => AnswerModel.findByIdAndUpdate_isAccepted previous false
  | None => mret tt
  end;;
  (* Set new accepted answer *)
  let this := with_accepted answerId this in
  (* Update the answer *)
  AnswerModel.findByIdAndUpdate_isAccepted answerId true;;
  save _id this.

End WithChangeTracking.
End Question.

(** ** server/models/Answer.js *)

Module Answer.

Definition with_ledger (ups downs : list ObjectId) (this : AnswerDoc) : AnswerDoc :=
  mkAnswer (a_author this) (a_question this) (a_votes this) ups downs (a_isAccepted this).

Definition with_votes (n : Z) (this : AnswerDoc) : AnswerDoc :=
  mkAnswer (a_author this) (a_question this) n (a_upvotes this) (a_downvotes this)
           (a_isAccepted this).

Definition votes_of (ups downs : list ObjectId) : Z :=
  (Z.of_nat (length ups) - Z.of_nat (length downs))%Z.

Definition bump_question (t : nat) (q : QuestionDoc) : QuestionDoc :=
  mkQuestion (q_author q) (q_votes q) (q_upvotes q) (q_downvotes q) (q_answerCount q + 1)
             (q_hasAcceptedAnswer q) (q_acceptedAnswer q) t.

(** The [post('save')] hook: [$inc: { answerCount: 1 }] and
    [lastActivity: new Date()] on the parent question. *)
Definition post_save (doc : AnswerDoc) : Promise unit :=
  t ← new_Date;
  QuestionModel.findByIdAndUpdate (a_question doc) (bump_question t).

(** [this.save()]: the write, then the post-save hook. *)
Definition save (_id : ObjectId) (this : AnswerDoc) : Promise AnswerDoc :=
  write (λ w, set_answers (insert _id this) (record (AnswerSave _id) w));;
  post_save this;;
  mret this.

Definition upvote (_id : ObjectId) (this : AnswerDoc) (userId : ObjectId) : Promise AnswerDoc :=
  let this := with_ledger (a_upvotes this) (pull userId (a_downvotes this)) this in
  this ← (if negb (includes userId (a_upvotes this)) then
            let this := with_ledger (push userId (a_upvotes this)) (a_downvotes this) this in
            UserModel.findByIdAndUpdate_inc_reputation (a_author this) 10;;
            mret this
          else mret this);
  let this := with_votes (votes_of (a_upvotes this) (a_downvotes this)) this in
  save _id this.

Definition downvote (_id : ObjectId) (this : AnswerDoc) (userId : ObjectId) : Promise AnswerDoc :=
  let this := with_ledger (pull userId (a_upvotes this)) (a_downvotes this) this in
  this ← (if negb (includes userId (a_downvotes this)) then
            let this := with_ledger (a_upvotes this) (push userId (a_downvotes this)) this in
            UserModel.findByIdAndUpdate_inc_reputation (a_author this) (-2);;
            mret this
          else mret this);
  let this := with_votes (votes_of (a_upvotes this) (a_downvotes this)) this in
  save _id this.

Definition removeVote (_id : ObjectId) (this : AnswerDoc) (userId : ObjectId) : Promise AnswerDoc :=
  let hadUpvote := includes userId (a_upvotes this) in
  let hadDownvote := includes userId (a_downvotes this) in
  let this := with_ledger (pull userId (a_upvotes this)) (a_downvotes this) this in
  let this := with_ledger (a_upvotes this) (pull userId (a_downvotes this)) this in
  (if hadUpvote || hadDownvote then
     let reputationChange := if hadUpvote then (-10)%Z else 2%Z in
     UserModel.findByIdAndUpdate_inc_reputation (a_author this) reputationChange
   else mret tt);;
  let this := with_votes (votes_of (a_upvotes this) (a_downvotes this)) this in
  save _id this.

Definition accept_on_question (answerId : ObjectId) (q : QuestionDoc) : QuestionDoc :=
  mkQuestion (q_author q) (q_votes q) (q_upvotes q) (q_downvotes q) (q_answerCount q)
             true (Some answerId) (q_lastActivity q).

Definition markAsAccepted (_id : ObjectId) (this : AnswerDoc) : Promise AnswerDoc :=
  (* Remove accepted status from other answers to this question *)
  AnswerModel.updateMany_clear_isAccepted (a_question this) _id;;
  (* Mark this answer as accepted *)
  let this := AnswerModel.set_isAccepted true this in
  this ← save _id this;
  (* Update question *)
  QuestionModel.findByIdAndUpdate (a_question this) (accept_on_question _id);;
  (* Award reputation to answer author *)
  UserModel.findByIdAndUpdate_inc_reputation (a_author this) 15;;
  mret this.

End Answer.

(** ** server/models/Notification.js *)

Module Notification.

(** [c.toUpperCase()] on one character. *)
Definition toUpperCase (c : Ascii.ascii) : Ascii.ascii :=
  let n := Ascii.nat_of_ascii c in
  if (97 <=? n)%nat && (n <=? 122)%nat then Ascii.ascii_of_nat (n - 32) else c.

(** [s.charAt(0).toUpperCase() + s.slice(1)]. *)
Definition capitalize (s : string) : string :=
  match s with
  | EmptyString => EmptyString
  | String c rest => String (toUpperCase c) rest
  end.

(** [voteType === 'up' ? 'upvoted' : 'downvoted']. *)
Definition voteText (voteType : VoteType) : string :=
  if bool_decide (voteType = up) then "upvoted" else "downvoted".

(** The error of an insert into a collection that accepts no writes. *)
Definition store_unavailable : string :=
"MongoServerSelectionError: notifications collection unavailable".

(** [notification.save()]: the schema validators ([recipient] is
    required, [title] and [message] have a [maxlength]), then the insert,
    which fails when the collection does not accept writes. *)
Definition save (n : NotificationDoc) : Promise NotificationDoc := λ w,
  if negb (bool_decide (is_Some (n_recipient n))) then
    Rejected "Notification validation failed: recipient: Path `recipient` is required." w
  else if (200 <? String.length (n_title n))%nat then
    Rejected "Notification validation failed: title: longer than the maximum allowed length (200)." w
  else if (500 <? String.length (n_message n))%nat then
    Rejected "Notification validation failed: message: longer than the maximum allowed length (500)." w
  else
    let w := record (NotificationSave (n_type n)) w in
    if notificationStoreUp w then Fulfilled n (add_notification n w)
    else Rejected store_unavailable w.

Definition createAnswerVoted (answerId : ObjectId) (answerAuthor : option (ObjectId * UserDoc))
    (voter : ObjectId * UserDoc) (voteType : VoteType) : Promise NotificationDoc :=
  let voteText := voteText voteType in
  let notification :=
    {| n_recipient := fst <$> answerAuthor;
       n_sender := voter.1;
       n_type := answer_voted;
       n_title := "Answer " +:+ capitalize voteText;
       n_message := username voter.2 +:+ " " +:+ voteText +:+ " your answer";
       n_relatedQuestion := None;
       n_relatedAnswer := Some answerId;
       n_priority := "medium";
       n_metadata_voteType := Some voteType;
       n_read := false |} in
  save notification.

Definition createQuestionVoted (questionId : ObjectId) (questionAuthor : option (ObjectId * UserDoc))
    (voter : ObjectId * UserDoc) (voteType : VoteType) : Promise NotificationDoc :=
  let voteText := voteText voteType in
  let notification :=
    {| n_recipient := fst <$> questionAuthor;
       n_sender := voter.1;
       n_type := question_voted;
       n_title := "Question " +:+ capitalize voteText;
       n_message := username voter.2 +:+ " " +:+ voteText +:+ " your question";
       n_relatedQuestion := Some questionId;
       n_relatedAnswer := None;
       n_priority := "medium";
       n_metadata_voteType := Some voteType;
       n_read := false |} in
  save notification.

Definition createAnswerAccepted (answerId : ObjectId) (answerAuthor : option (ObjectId * UserDoc))
    (questionAuthor : ObjectId * UserDoc) : Promise NotificationDoc :=
  let notification :=
    {| n_recipient := fst <$> answerAuthor;
       n_sender := questionAuthor.1;
       n_type := answer_accepted;
       n_title := "Answer Accepted!";
       n_message := username questionAuthor.2 +:+ " accepted your answer";
       n_relatedQuestion := None;
       n_relatedAnswer := Some answerId;
       n_priority := "high";
       n_metadata_voteType := None;
       n_read := false |} in
  save notification.

End Notification.

(** ** Express plumbing *)

(** [res.status(s).json({ message, votes, error })]. *)
Record Response := mkResponse {
  status : nat;
  message : string;
  votes : option Z;
  error : option string
}.

Definition json (s : nat) (m : string) : Response := mkResponse s m None None.

Definition Handler : Type := World → Response * World.

(** The [Authorization] header after [jwt.verify]: no token, a token that
    does not verify, an expired one, or a verified token for [userId]. *)
Inductive Authorization :=
  | NoToken
  | InvalidToken
  | ExpiredToken
  | Bearer (userId : ObjectId).

(** server/middleware/auth.js, [authenticate]: on success [req.user] is
    the user document and the next handler runs. *)
Definition authenticate (auth : Authorization) (next : ObjectId * UserDoc → Handler) : Handler :=
  λ w,
  match auth with
  | NoToken => (json 401 "Access denied. No token provided.", w)
  | InvalidToken => (json 401 "Invalid token.", w)
  | ExpiredToken => (json 401 "Token expired.", w)
  | Bearer userId =>
      match users w !! userId with
      | None => (json 401 "Invalid token. User not found.", w)
      | Some user =>
          if negb (isActive user) then (json 401 "Account is deactivated.", w)
          else next (userId, user) w
      end
  end.

(** The [vote] schemas: [voteType] must be one of the three strings. *)
Definition parse_voteType (s : string) : option VoteType :=
  if bool_decide (s = "up") then Some up
  else if bool_decide (s = "down") then Some down
  else if bool_decide (s = "remove") then Some remove
  else None.

(** The [validate(schema)] middleware applied to a vote body. *)
Definition validate_vote (body_voteType : string) (next : VoteType → Handler) : Handler :=
  λ w,
  match parse_voteType body_voteType with
  | None => (json 400 "Validation error", w)
  | Some voteType => next voteType w
  end.

(** [try { body } catch (error) { console.error(label, error);
    res.status(500).json({ message: failure, error: error.message }) }]. *)
Definition try_catch (label failure : string) (body : Promise Response) : Handler :=
  λ w,
  match body w with
  | Fulfilled r w' => (r, w')
  | Rejected e w' =>
      (mkResponse 500 failure None (Some e), console_error (label +:+ " " +:+ e) w')
  end.

(** ** The questions router *)

Module questions.
Section WithChangeTracking.
Context `{ChangeTracking}.

(** [router.post('/:id/vote', authenticate, validateParams(...),
    validate(questionSchemas.vote), ...)]. *)
Definition vote (auth : Authorization) (id : ObjectId) (body_voteType : string) : Handler :=
  authenticate auth (λ req_user,
  validate_vote body_voteType (λ voteType,
  try_catch "Vote question error:" "Failed to vote on question" (
    let userId := req_user.1 in
    question ← QuestionModel.findById id;
    match question with
    | None => mret (json 404 "Question not found")
    | Some question =>
        (* Users can't vote on their own questions *)
        if bool_decide (q_author question = userId) then
          mret (json 400 "You cannot vote on your own question")
        else
          (* Apply vote *)
          question ← match voteType with
                     | up => Question.upvote id question userId
                     | down => Question.downvote id question userId
                     | remove => Question.removeVote id question userId
                     end;
          (* Create notification for question author *)
          (if negb (bool_decide (voteType = remove)) then
             author ← UserModel.findById (q_author question);
             Notification.createQuestionVoted id author req_user voteType;;
             mret tt
           else mret tt);;
          mret (mkResponse 200 "Vote recorded successfully" (Some (q_votes question)) None)
    end))).

(** [router.post('/:id/accept-answer', authenticate,
    validateParams(...), ...)], with [answerId] taken from the body. *)
Definition accept_answer (auth : Authorization) (id : ObjectId) (answerId : ObjectId) : Handler :=
  authenticate auth (λ req_user,
  try_catch "Accept answer error:" "Failed to accept answer" (
    question ← QuestionModel.findById id;
    match question with
    | None => mret (json 404 "Question not found")
    | Some question =>
        (* Only question author can accept answers *)
        if negb (bool_decide (q_author question = req_user.1)) then
          mret (json 403 "Only the question author can accept answers")
        else
          answer ← AnswerModel.findById answerId;
          match answer with
          | None => mret (json 404 "Answer not found")
          | Some answer =>
              (* Check if answer belongs to this question *)
              if negb (bool_decide (a_question answer = id)) then
                mret (json 400 "Answer does not belong to this question")
              else
                (* Accept the answer *)
                Question.acceptAnswer id question answerId;;
                (* Create notification for answer author *)
                author ← UserModel.findById (a_author answer);
                Notification.createAnswerAccepted answerId author req_user;;
                mret (json 200 "Answer accepted successfully")
          end
    end)).

End WithChangeTracking.
End questions.

(** ** The answers router *)

Module answers.

(** [router.post('/:id/vote', authenticate, validateParams(...),
    validate(answerSchemas.vote), ...)]. *)
Definition vote (auth : Authorization) (id : ObjectId) (body_voteType : string) : Handler :=
  authenticate auth (λ req_user,
  validate_vote body_voteType (λ voteType,
  try_catch "Vote answer error:" "Failed to vote on answer" (
    let userId := req_user.1 in
    answer ← AnswerModel.findById id;
    match answer with
    | None => mret (json 404 "Answer not found")
    | Some answer =>
        (* Users can't vote on their own answers *)
        if bool_decide (a_author answer = userId) then
          mret (json 400 "You cannot vote on your own answer")
        else
          answer ← match voteType with
                   | up => Answer.upvote id answer userId
                   | down => Answer.downvote id answer userId
                   | remove => Answer.removeVote id answer userId
                   end;
          (* Create notification for answer author *)
          (if negb (bool_decide (voteType = remove)) then
             author ← UserModel.findById (a_author answer);
             Notification.createAnswerVoted id author req_user voteType;;
             mret tt
           else mret tt);;
          mret (mkResponse 200 "Vote recorded successfully" (Some (a_votes answer)) None)
    end))).

(** [router.post('/:id/accept', authenticate, validateParams(...), ...)]. *)
Definition accept (auth : Authorization) (id : ObjectId) : Handler :=
  authenticate auth (λ req_user,
  try_catch "Accept answer error:" "Failed to accept answer" (
    answer ← AnswerModel.findById id;
    match answer with
    | None => mret (json 404 "Answer not found")
    | Some answer =>
        (* Get the question to check ownership *)
        question ← QuestionModel.findById (a_question answer);
        match question with
        | None => mret (json 404 "Question not found")
        | Some question =>
            (* Only question author can accept answers *)
            if negb (bool_decide (q_author question = req_user.1)) then
              mret (json 403 "Only the question author can accept answers")
            else
              (* Accept the answer *)
              answer ← Answer.markAsAccepted id answer;
              (* Create notification for answer author *)
              author ← UserModel.findById (a_author answer);
              Notification.createAnswerAccepted id author req_user;;
              mret (json 200 "Answer accepted successfully")
        end
    end)).

End answers.

(** ** Requests *)

Inductive Request :=
  | POST_questions_vote (auth : Authorization) (id : ObjectId) (voteType : string)
  | POST_questions_accept_answer (auth : Authorization) (id answerId : ObjectId)
  | POST_answers_vote (auth : Authorization) (id : ObjectId) (voteType : string)
  | POST_answers_accept (auth : Authorization) (id : ObjectId).

Section Server.
Context `{ChangeTracking}.

Definition handle (r : Request) : Handler :=
  match r with
  | POST_questions_vote auth id voteType => questions.vote auth id voteType
  | POST_questions_accept_answer auth id answerId => questions.accept_answer auth id answerId
  | POST_answers_vote auth id voteType => answers.vote auth id voteType
  | POST_answers_accept auth id => answers.accept auth id
  end.

(** The worlds reached after each request of a sequence, in order. *)
Fixpoint serve (rs : list Request) (w : World) : list World :=
  match rs with
  | [] => []
  | r :: rs => let w' := (handle r w).2 in w' :: serve rs w'
  end.

End Server.

(** Unfolds the monad of promises. *)
Ltac unfold_promise :=
  unfold mbind, Promise_bind, mret, Promise_ret, write, new_Date in *.

(** * Vocabulary of the properties *)

(** ** Votables *)

(** A votable entity: a question or an answer, by [_id]. *)
Inductive Votable :=
  | AQuestion (id : ObjectId)
  | AnAnswer (id : ObjectId).

Definition votable_author (w : World) (t : Votable) : option ObjectId :=
  match t with
  | AQuestion id => q_author <$> questions w !! id
  | AnAnswer id => a_author <$> answers w !! id
  end.

(** The stored score of a votable. *)
Definition votable_score (w : World) (t : Votable) : option Z :=
  match t with
  | AQuestion id => q_votes <$> questions w !! id
  | AnAnswer id => a_votes <$> answers w !! id
  end.

(** The stored ledger of a votable: its [upvotes] and [downvotes]. *)
Definition votable_ledger (w : World) (t : Votable) : option (list ObjectId * list ObjectId) :=
  match t with
  | AQuestion id => (λ q, (q_upvotes q, q_downvotes q)) <$> questions w !! id
  | AnAnswer id => (λ a, (a_upvotes a, a_downvotes a)) <$> answers w !! id
  end.

(** The reward for an upvote: 5 in Question.js, 10 in Answer.js. *)
Definition upvote_points (t : Votable) : Z :=
  match t with AQuestion _ => 5%Z | AnAnswer _ => 10%Z end.

(** The vote request of either router. *)
Definition vote_request (t : Votable) (auth : Authorization) (voteType : string) : Request :=
  match t with
  | AQuestion id => POST_questions_vote auth id voteType
  | AnAnswer id => POST_answers_vote auth id voteType
  end.

(** The body string of a vote type. *)
Definition voteType_string (v : VoteType) : string :=
  match v with up => "up" | down => "down" | remove => "remove" end.

(** ** The vote methods in one equation each *)

(** The ledger left by a vote method: the new [upvotes] and [downvotes]. *)
Definition ledger_after (v : VoteType) (u : ObjectId) (l : list ObjectId * list ObjectId)
    : list ObjectId * list ObjectId :=
  match v with
  | up => (if includes u l.1 then l.1 else push u l.1, pull u l.2)
  | down => (pull u l.1, if includes u l.2 then l.2 else push u l.2)
  | remove => (pull u l.1, pull u l.2)
  end.

(** The [$inc] a vote method issues on the author's reputation, if any. *)
Definition reputation_change (upPoints : Z) (v : VoteType) (u : ObjectId)
    (l : list ObjectId * list ObjectId) : option Z :=
  match v with
  | up => if includes u l.1 then None else Some upPoints
  | down => if includes u l.2 then None else Some (-2)%Z
  | remove => if includes u l.1 then Some (- upPoints)%Z
              else if includes u l.2 then Some 2%Z else None
  end.

Definition award (author : ObjectId) (change : option Z) (w : World) : World :=
  match change with
  | None => w
  | Some delta => world_of (UserModel.findByIdAndUpdate_inc_reputation author delta w)
  end.

Definition question_after_vote (v : VoteType) (u : ObjectId) (this : QuestionDoc) : QuestionDoc :=
  let l := ledger_after v u (q_upvotes this, q_downvotes this) in
  Question.with_votes (Question.votes_of l.1 l.2) (Question.with_ledger l.1 l.2 this).

Definition answer_after_vote (v : VoteType) (u : ObjectId) (this : AnswerDoc) : AnswerDoc :=
  let l := ledger_after v u (a_upvotes this, a_downvotes this) in
  Answer.with_votes (Answer.votes_of l.1 l.2) (Answer.with_ledger l.1 l.2 this).

Definition answer_method (v : VoteType) : ObjectId → AnswerDoc → ObjectId → Promise AnswerDoc :=
  match v with
  | up => Answer.upvote
  | down => Answer.downvote
  | remove => Answer.removeVote
  end.

(** One vote operation: the target is loaded with [findById] and the
    method is called on it for [actor]; a missing target is left alone. *)
Record VoteOperation := mkVoteOperation {
  target : Votable;
  operation : VoteType;
  actor : ObjectId
}.

Section VoteOperations.
Context `{ChangeTracking}.

Definition question_method (v : VoteType) : ObjectId → QuestionDoc → ObjectId → Promise QuestionDoc :=
  match v with
  | up => Question.upvote
  | down => Question.downvote
  | remove => Question.removeVote
  end.

(** The document a question [save()] writes and returns. *)
Definition question_saved (w : World) (_id : ObjectId) (this : QuestionDoc) : QuestionDoc :=
  if isModified (questions w !! _id) this then Question.with_lastActivity (now w) this else this.

Definition perform (op : VoteOperation) (w : World) : World :=
  match target op with
  | AQuestion id =>
      match questions w !! id with
      | Some this => world_of (question_method (operation op) id this (actor op) w)
      | None => w
      end
  | AnAnswer id =>
      match answers w !! id with
      | Some this => world_of (answer_method (operation op) id this (actor op) w)
      | None => w
      end
  end.

(** The worlds after each operation of a sequence. *)
Fixpoint perform_all (ops : list VoteOperation) (w : World) : list World :=
  match ops with
  | [] => []
  | op :: ops => let w' := perform op w in w' :: perform_all ops w'
  end.

End VoteOperations.

(** ** Score and ledger *)

(** The set of accounts held in a ledger array. *)
Definition voters (l : list ObjectId) : gset nat := list_to_set l.

(** The score is the number of upvoters minus the number of downvoters,
    and nobody is in both sets. *)
Definition score_matches_ledger (score : Z) (ups downs : list ObjectId) : Prop :=
  score = (Z.of_nat (size (voters ups)) - Z.of_nat (size (voters downs)))%Z
  ∧ voters ups ## voters downs.

(** The same, for arrays that moreover hold no account twice: the form in
    which the property is preserved by the vote methods. *)
Definition ledger_wf (score : Z) (ups downs : list ObjectId) : Prop :=
  NoDup ups ∧ NoDup downs ∧ score_matches_ledger score ups downs.

Definition every_votable (P : Z → list ObjectId → list ObjectId → Prop) (w : World) : Prop :=
  map_Forall (λ _ q, P (q_votes q) (q_upvotes q) (q_downvotes q)) (questions w)
  ∧ map_Forall (λ _ a, P (a_votes a) (a_upvotes a) (a_downvotes a)) (answers w).

(** ** The reputation table of the specification *)

(** The vote an actor holds on a target before an operation. *)
Inductive PriorVote := NoVote | VotedUp | VotedDown.

Definition prior_vote (u : ObjectId) (l : list ObjectId * list ObjectId) : option PriorVote :=
  match includes u l.1, includes u l.2 with
  | false, false => Some NoVote
  | true, false => Some VotedUp
  | false, true => Some VotedDown
  | true, true => None
  end.

(** The rows of the table in section 4.1, step 4. *)
Inductive Transition :=
  | NoVoteToUp
  | NoVoteToDown
  | DownToUp
  | UpToDown
  | RemoveHadUp
  | RemoveHadDown
  | RemoveHadNeither
  | UpAlreadyUp
  | DownAlreadyDown.

(** The transition actually performed by an action on a prior vote. *)
Definition transition_performed (prior : PriorVote) (action : VoteType) : Transition :=
  match action, prior with
  | up, NoVote => NoVoteToUp
  | up, VotedDown => DownToUp
  | up, VotedUp => UpAlreadyUp
  | down, NoVote => NoVoteToDown
  | down, VotedUp => UpToDown
  | down, VotedDown => DownAlreadyDown
  | remove, VotedUp => RemoveHadUp
  | remove, VotedDown => RemoveHadDown
  | remove, NoVote => RemoveHadNeither
  end.

(** The table, as written in the specification: the delta applied to the
    author of a question or of an answer. *)
Definition spec_reputation_delta (t : Votable) (tr : Transition) : Z :=
  match tr, t with
  | NoVoteToUp, AQuestion _ => 5
  | NoVoteToUp, AnAnswer _ => 10
  | NoVoteToDown, _ => -2
  | DownToUp, AQuestion _ => 5
  | DownToUp, AnAnswer _ => 10
  | UpToDown, _ => -2
  | RemoveHadUp, AQuestion _ => -5
  | RemoveHadUp, AnAnswer _ => -10
  | RemoveHadDown, _ => 2
  | RemoveHadNeither, _ => 0
  | UpAlreadyUp, _ => 0
  | DownAlreadyDown, _ => 0
  end%Z.

(** ** Notifications and journal of a vote request *)

(** The notification a vote route builds for the author of the target. *)
Definition vote_notification (t : Votable) (author : ObjectId) (voter : ObjectId * UserDoc)
    (v : VoteType) : NotificationDoc :=
  match t with
  | AQuestion id =>
      {| n_recipient := Some author;
         n_sender := voter.1;
         n_type := question_voted;
         n_title := "Question " +:+ Notification.capitalize (Notification.voteText v);
         n_message := username voter.2 +:+ " " +:+ Notification.voteText v +:+ " your question";
         n_relatedQuestion := Some id;
         n_relatedAnswer := None;
         n_priority := "medium";
         n_metadata_voteType := Some v;
         n_read := false |}
  | AnAnswer id =>
      {| n_recipient := Some author;
         n_sender := voter.1;
         n_type := answer_voted;
         n_title := "Answer " +:+ Notification.capitalize (Notification.voteText v);
         n_message := username voter.2 +:+ " " +:+ Notification.voteText v +:+ " your answer";
         n_relatedQuestion := None;
         n_relatedAnswer := Some id;
         n_priority := "medium";
         n_metadata_voteType := Some v;
         n_read := false |}
  end.

(** The writes with which a vote method persists the target: the save,
    and for an answer the update of the parent question made by the
    post-save hook. *)
Definition target_writes (w : World) (t : Votable) : list Write :=
  match t with
  | AQuestion id => [QuestionSave id]
  | AnAnswer id =>
      match answers w !! id with
      | Some a => [AnswerSave id; QuestionUpdate (a_question a)]
      | None => []
      end
  end.

Definition reputation_writes (author : ObjectId) (change : option Z) : list Write :=
  match change with
  | Some delta => [UserIncReputation author delta]
  | None => []
  end.

Definition notification_writes (t : Votable) (v : VoteType) : list Write :=
  match v with
  | remove => []
  | _ => [NotificationSave (match t with AQuestion _ => question_voted | AnAnswer _ => answer_voted end)]
  end.


(** ** Vote requests that reach the pipeline *)

(** The notification step of a vote route: the author is looked up and
    the notification is created for the result. *)
Definition notify_vote (t : Votable) (author : ObjectId) (voter : ObjectId * UserDoc)
    (v : VoteType) : Promise NotificationDoc :=
  author_doc ← UserModel.findById author;
  match t with
  | AQuestion id => Notification.createQuestionVoted id author_doc voter v
  | AnAnswer id => Notification.createAnswerVoted id author_doc voter v
  end.

(** The [console.error] label and the 500 message of each vote route. *)
Definition vote_error_label (t : Votable) : string :=
  match t with AQuestion _ => "Vote question error:" | AnAnswer _ => "Vote answer error:" end.

Definition vote_failure_message (t : Votable) : string :=
  match t with
  | AQuestion _ => "Failed to vote on question"
  | AnAnswer _ => "Failed to vote on answer"
  end.

Definition self_vote_message (t : Votable) : string :=
  match t with
  | AQuestion _ => "You cannot vote on your own question"
  | AnAnswer _ => "You cannot vote on your own answer"
  end.

(** The caller holds a verified token for an active account. *)
Definition authenticated (w : World) (caller : ObjectId) (account : UserDoc) : Prop :=
  users w !! caller = Some account ∧ isActive account = true.

(** ** Acceptance *)

(** The notification step of both accept routes. *)
Definition notify_accepted (answerId author : ObjectId) (questionAuthor : ObjectId * UserDoc)
    : Promise NotificationDoc :=
  author_doc ← UserModel.findById author;
  Notification.createAnswerAccepted answerId author_doc questionAuthor.

(** Every accepted answer is the one its question refers to. *)
Definition acceptance_consistent (w : World) : Prop :=
  ∀ aid a q,
    answers w !! aid = Some a → a_isAccepted a = true →
    questions w !! a_question a = Some q →
    q_acceptedAnswer q = Some aid.

(** At most one answer of the question [qid] has [isAccepted = true]. *)
Definition at_most_one_accepted (w : World) (qid : ObjectId) : Prop :=
  ∀ aid1 aid2 a1 a2,
    answers w !! aid1 = Some a1 → answers w !! aid2 = Some a2 →
    a_question a1 = qid → a_question a2 = qid →
    a_isAccepted a1 = true → a_isAccepted a2 = true →
    aid1 = aid2.

(** The question [qid] refers to [aid], an answer of [qid] that is marked
    accepted. *)
Definition accepted_answer_is (w : World) (qid aid : ObjectId) : Prop :=
  ∃ q a, questions w !! qid = Some q ∧ q_acceptedAnswer q = Some aid
       ∧ answers w !! aid = Some a ∧ a_question a = qid ∧ a_isAccepted a = true.

(** The answers after [acceptAnswer]: the previous accepted answer is
    cleared first, then the new one is marked. *)
Definition cleared_previous (q : QuestionDoc) (m : gmap nat AnswerDoc) : gmap nat AnswerDoc :=
  match q_acceptedAnswer q with
  | Some previous => alter (AnswerModel.set_isAccepted false) previous m
  | None => m
  end.

(** The question and the answer an accept request is about. *)
Definition acceptance_of (w : World) (r : Request) : option (ObjectId * ObjectId) :=
  match r with
  | POST_questions_accept_answer _ id answerId => Some (id, answerId)
  | POST_answers_accept _ id => (λ a, (a_question a, id)) <$> answers w !! id
  | _ => None
  end.

(** ** Requests that reach their pipeline *)

(** The guards of each route: a verified token for an active account, an
    existing target, and for a vote a caller who is not the author, for an
    acceptance a caller who is the author of the question the answer
    belongs to. *)
Definition passes_guards (w : World) (r : Request) (caller : ObjectId) (account : UserDoc) : Prop :=
  authenticated w caller account ∧
  match r with
  | POST_questions_vote auth id s =>
      auth = Bearer caller ∧ is_Some (parse_voteType s)
      ∧ ∃ q, questions w !! id = Some q ∧ q_author q ≠ caller
  | POST_answers_vote auth id s =>
      auth = Bearer caller ∧ is_Some (parse_voteType s)
      ∧ ∃ a, answers w !! id = Some a ∧ a_author a ≠ caller
  | POST_questions_accept_answer auth id answerId =>
      auth = Bearer caller
      ∧ ∃ q a, questions w !! id = Some q ∧ q_author q = caller
             ∧ answers w !! answerId = Some a ∧ a_question a = id
  | POST_answers_accept auth id =>
      auth = Bearer caller
      ∧ ∃ a q, answers w !! id = Some a ∧ questions w !! a_question a = Some q
             ∧ q_author q = caller
  end.

(** The request asks for a notification: every acceptance, and every
    vote but a removal. *)
Definition wants_notification (r : Request) : Prop :=
  match r with
  | POST_questions_vote _ _ s | POST_answers_vote _ _ s => s ≠ "remove"
  | _ => True
  end.

#[global] Instance wants_notification_dec r : Decision (wants_notification r).
Proof. destruct r; cbn; apply _. Defined.

(** The [console.error] label of each route. *)
Definition error_label (r : Request) : string :=
  match r with
  | POST_questions_vote _ _ _ => "Vote question error:"
  | POST_answers_vote _ _ _ => "Vote answer error:"
  | _ => "Accept answer error:"
  end.

(** The [message] of the 500 response of each route. *)
Definition failure_message (r : Request) : string :=
  match r with
  | POST_questions_vote _ _ _ => "Failed to vote on question"
  | POST_answers_vote _ _ _ => "Failed to vote on answer"
  | _ => "Failed to accept answer"
  end.

Section PrimaryEffect.
Context `{ChangeTracking}.

(** The world after the model method called by the route of a request
    that passed the guards, before the notification step. *)
Definition primary_effect (r : Request) (caller : ObjectId) (w : World) : World :=
  match r with
  | POST_questions_vote _ id s =>
      match parse_voteType s with
      | Some v => perform (mkVoteOperation (AQuestion id) v caller) w
      | None => w
      end
  | POST_answers_vote _ id s =>
      match parse_voteType s with
      | Some v => perform (mkVoteOperation (AnAnswer id) v caller) w
      | None => w
      end
  | POST_questions_accept_answer _ id answerId =>
      match questions w !! id with
      | Some q => world_of (Question.acceptAnswer id q answerId w)
      | None => w
      end
  | POST_answers_accept _ id =>
      match answers w !! id with
      | Some a => world_of (Answer.markAsAccepted id a w)
      | None => w
      end
  end.

End PrimaryEffect.

(** ** Operations that save an answer *)

Inductive AnswerOperation :=
  | SaveAnswer
  | VoteOnAnswer (v : VoteType) (userId : ObjectId)
  | MarkAsAccepted.

Definition run_answer_operation (o : AnswerOperation) (_id : ObjectId) (this : AnswerDoc)
    : Promise AnswerDoc :=
  match o with
  | SaveAnswer => Answer.save _id this
  | VoteOnAnswer v userId => answer_method v _id this userId
  | MarkAsAccepted => Answer.markAsAccepted _id this
  end.

(** The writes issued between two worlds. *)
Definition issued (w w' : World) : list Write := drop (length (journal w)) (journal w').

(** The write that persists the ledger and the score of a target. *)
Definition ledger_write (t : Votable) : Write :=
  match t with AQuestion id => QuestionSave id | AnAnswer id => AnswerSave id end.

(** ** Statements of the specification that the code does not meet *)

Section Claimed.
Context `{ChangeTracking}.

(** Section 4.1, step 6: a notification is emitted exactly when the
    action is not a removal and the ledger changed. *)
Definition notifies_iff_ledger_changed (t : Votable) (caller : ObjectId) (v : VoteType)
    (w : World) : Prop :=
  let w' := (handle (vote_request t (Bearer caller) (voteType_string v)) w).2 in
  length (notifications w') = S (length (notifications w))
  ↔ v ≠ remove ∧ votable_ledger w' t ≠ votable_ledger w t.

(** Section 5: among the writes of a vote, the ledger and score are
    persisted before the reputation. *)
Definition ledger_persisted_before_reputation (t : Votable) (caller : ObjectId) (v : VoteType)
    (w : World) : Prop :=
  let es := issued w (handle (vote_request t (Bearer caller) (voteType_string v)) w).2 in
  ∀ i j author delta,
    es !! i = Some (UserIncReputation author delta) →
    es !! j = Some (ledger_write t) →
    j < i.

(** Section 4.3: a request whose notification cannot be persisted is
    still answered with success. *)
Definition succeeds_when_notification_fails (r : Request) (w : World) : Prop :=
  notificationStoreUp w = false → status (handle r w).1 = 200.

End Claimed.

(** ** Example worlds *)

(** A change tracker that reports every saved question as modified. *)
Definition always_modified : ChangeTracking := λ _ _, true.

(** Three accounts; a question by alice; an answer by bob and one by
    carol to that question.  Nobody has voted and nothing is accepted. *)
Definition example_world : World :=
  {| users := {[ 1 := mkUser "alice" 0 true; 2 := mkUser "bob" 0 true;
                 3 := mkUser "carol" 0 true ]};
     questions := {[ 10 := mkQuestion 1 0 [] [] 2 false None 0 ]};
     answers := {[ 20 := mkAnswer 2 10 0 [] [] false; 21 := mkAnswer 3 10 0 [] [] false ]};
     notifications := [];
     now := 7;
     notificationStoreUp := true;
     journal := [];
     console := [] |}.

(** The same world while the notifications collection rejects writes. *)
Definition example_world_store_down : World :=
  mkWorld (users example_world) (questions example_world) (answers example_world)
          (notifications example_world) (now example_world) false
          (journal example_world) (console example_world).

(** [example_world] after bob's upvote of the question. *)
Definition example_world_upvoted : World :=
  (handle (H:=always_modified) (vote_request (AQuestion 10) (Bearer 2) "up") example_world).2.

(** bob upvotes the question, carol downvotes it, bob changes his mind,
    carol withdraws, alice upvotes bob's answer twice. *)
Definition example_operations : list VoteOperation :=
  [ mkVoteOperation (AQuestion 10) up 2;
    mkVoteOperation (AQuestion 10) down 3;
    mkVoteOperation (AQuestion 10) down 2;
    mkVoteOperation (AQuestion 10) remove 3;
    mkVoteOperation (AnAnswer 20) up 1;
    mkVoteOperation (AnAnswer 20) up 1 ].


(** * Further code of the repository *)

(** ** src/components/Pagination.tsx *)

Module Pagination.

(** An entry of the pager: a page button or the ['...'] filler. *)
Inductive PageItem :=
  | PageNumber (n : Z)
  | Ellipsis.

#[global] Instance PageItem_eq_dec : EqDecision PageItem.
Proof. solve_decision. Defined.

(** [getVisiblePages], for integer [currentPage] and [totalPages]. *)
Definition getVisiblePages (currentPage totalPages : Z) : list PageItem :=
  let delta := 2%Z in
  (* for (i = max(2, currentPage - delta);
          i <= min(totalPages - 1, currentPage + delta); i++) range.push(i) *)
  let first := Z.max 2 (currentPage - delta) in
  let last := Z.min (totalPages - 1) (currentPage + delta) in
  let range := seqZ first (last - first + 1) in
  let rangeWithDots :=
    if (2 <? currentPage - delta)%Z then [PageNumber 1; Ellipsis] else [PageNumber 1] in
  let rangeWithDots := rangeWithDots ++ (PageNumber <$> range) in
  if (currentPage + delta <? totalPages - 1)%Z then
    rangeWithDots ++ [Ellipsis; PageNumber totalPages]
  else if (1 <? totalPages)%Z then rangeWithDots ++ [PageNumber totalPages]
  else rangeWithDots.

(** The pager itself: nothing is rendered for a single page. *)
Definition pager (currentPage totalPages : Z) : option (list PageItem) :=
  if (totalPages <=? 1)%Z then None else Some (getVisiblePages currentPage totalPages).

(** The page numbers of a pager, in order. *)
Definition page_numbers (items : list PageItem) : list Z :=
  omap (λ i, match i with PageNumber n => Some n | Ellipsis => None end) items.

(** Every step from one entry to the next: consecutive numbers follow
    each other directly, and a filler stands for at least one page left
    out between the numbers around it. *)
Fixpoint gaps_marked (items : list PageItem) : Prop :=
  match items with
  | PageNumber a :: ((PageNumber b :: _) as rest) => b = (a + 1)%Z ∧ gaps_marked rest
  | PageNumber a :: Ellipsis :: ((PageNumber b :: _) as rest) => (a + 1 < b)%Z ∧ gaps_marked rest
  | [PageNumber _] => True
  | [] => True
  | _ => False
  end.

End Pagination.

(** ** server/models/Question.js: the slug of a question *)

Module Slug.

(** [c.toLowerCase()] on one ASCII character. *)
Definition toLowerCase (c : Ascii.ascii) : Ascii.ascii :=
  let n := Ascii.nat_of_ascii c in
  if (65 <=? n)%nat && (n <=? 90)%nat then Ascii.ascii_of_nat (n + 32) else c.

Definition is_lower (c : Ascii.ascii) : bool :=
  let n := Ascii.nat_of_ascii c in (97 <=? n)%nat && (n <=? 122)%nat.

Definition is_digit (c : Ascii.ascii) : bool :=
  let n := Ascii.nat_of_ascii c in (48 <=? n)%nat && (n <=? 57)%nat.

Definition is_hyphen (c : Ascii.ascii) : bool := (Ascii.nat_of_ascii c =? 45)%nat.

(** [\s] on ASCII: space, tab, line feed, vertical tab, form feed,
    carriage return. *)
Definition is_space (c : Ascii.ascii) : bool :=
  let n := Ascii.nat_of_ascii c in (n =? 32)%nat || ((9 <=? n)%nat && (n <=? 13)%nat).

(** The characters that [/[^a-z0-9 -]/g] leaves in place. *)
Definition kept (c : Ascii.ascii) : bool :=
  is_lower c || is_digit c || (Ascii.nat_of_ascii c =? 32)%nat || is_hyphen c.

(** The character ['-']. *)
Definition hyphen : Ascii.ascii := Ascii.ascii_of_nat 45.

(** [s.replace(/p+/g, '-')]: every maximal run of characters of the
    class [p] becomes one hyphen; [in_run] tells that the previous
    character belonged to a run. *)
Fixpoint replace_runs (p : Ascii.ascii → bool) (in_run : bool) (s : list Ascii.ascii)
    : list Ascii.ascii :=
  match s with
  | [] => []
  | c :: rest =>
      if p c then
        if in_run then replace_runs p true rest
        else hyphen :: replace_runs p true rest
      else c :: replace_runs p false rest
  end.

(** The first [pre('save')] hook, before the timestamp:
    [title.toLowerCase().replace(/[^a-z0-9 -]/g, '').replace(/\s+/g, '-')
     .replace(/-+/g, '-').substring(0, 100)], as a list of characters. *)
Definition base_chars (title : string) : list Ascii.ascii :=
  take 100
    (replace_runs is_hyphen false
       (replace_runs is_space false
          (filter (λ c, kept c = true)
             (toLowerCase <$> list_ascii_of_string title)))).

Definition base (title : string) : string := string_of_list_ascii (base_chars title).

(** [String(Date.now())]: the decimal digits of the clock. *)
Definition decimal (n : nat) : string := NilEmpty.string_of_uint (Nat.to_uint n).

(** [this.slug = ...; this.slug += '-' + Date.now()]. *)
Definition slug (title : string) (now : nat) : string :=
  base title +:+ "-" +:+ decimal now.

(** Strings of ASCII characters: the titles on which [toLowerCase] above
    is the one of JavaScript. *)
Definition ascii_only (s : string) : Prop :=
  Forall (λ c, (Ascii.nat_of_ascii c < 128)%nat) (list_ascii_of_string s).

(** The characters of a slug: lower-case letters, digits and hyphens. *)
Definition slug_char (c : Ascii.ascii) : bool := is_lower c || is_digit c || is_hyphen c.

(** No two hyphens in a row. *)
Fixpoint no_double_hyphen (s : list Ascii.ascii) : Prop :=
  match s with
  | c :: ((d :: _) as rest) => ¬ (is_hyphen c = true ∧ is_hyphen d = true) ∧ no_double_hyphen rest
  | _ => True
  end.

Definition starts_with_hyphen (s : list Ascii.ascii) : Prop :=
  match s with c :: _ => is_hyphen c = true | [] => False end.

End Slug.

(** ** The rest of the database *)

(** The routes below read and write fields that the vote and accept
    routes leave alone.  They are kept beside the collections of [World],
    keyed like the documents they belong to; a document without an entry
    holds the default of its schema.  Of the writes below, those made
    through the collection operations of the first part appear in the
    journal; removals and writes to the fields kept here do not, and no
    property below speaks about their order. *)

(** [stats] of a user document (server/models/User.js). *)
Record UserStats := mkStats {
  questionsAsked : Z;
  answersGiven : Z;
  questionsUpvoted : Z;
  answersUpvoted : Z;
  totalVotesReceived : Z
}.

Definition default_stats : UserStats := mkStats 0 0 0 0 0.

(** [status] of a question: [enum: ['open', 'closed', 'deleted']]. *)
Inductive QuestionStatus := status_open | status_closed | status_deleted.

#[global] Instance QuestionStatus_eq_dec : EqDecision QuestionStatus.
Proof. solve_decision. Defined.

Record Store := mkStore {
  core : World;
  (** [stats] of the users *)
  user_stats : gmap nat UserStats;
  (** [status] of the questions *)
  question_status : gmap nat QuestionStatus;
  (** [helpfulCount] of the answers *)
  answer_helpfulCount : gmap nat Z;
  (** [readAt] of the notifications, by position in the collection *)
  notification_readAt : list (option nat)
}.

Definition stats_of (s : Store) (id : ObjectId) : UserStats :=
  default default_stats (user_stats s !! id).

Definition status_of (s : Store) (id : ObjectId) : QuestionStatus :=
  default status_open (question_status s !! id).

Definition helpfulCount_of (s : Store) (id : ObjectId) : Z :=
  default 0%Z (answer_helpfulCount s !! id).

Definition readAt_of (s : Store) (i : nat) : option nat :=
  default None (notification_readAt s !! i).

Definition with_core (w : World) (s : Store) : Store :=
  mkStore w (user_stats s) (question_status s) (answer_helpfulCount s) (notification_readAt s).

Definition set_user_stats (f : gmap nat UserStats → gmap nat UserStats) (s : Store) : Store :=
  mkStore (core s) (f (user_stats s)) (question_status s) (answer_helpfulCount s)
          (notification_readAt s).

Definition set_question_status (f : gmap nat QuestionStatus → gmap nat QuestionStatus)
    (s : Store) : Store :=
  mkStore (core s) (user_stats s) (f (question_status s)) (answer_helpfulCount s)
          (notification_readAt s).

Definition set_answer_helpfulCount (f : gmap nat Z → gmap nat Z) (s : Store) : Store :=
  mkStore (core s) (user_stats s) (question_status s) (f (answer_helpfulCount s))
          (notification_readAt s).

(** The notifications collection, each document with its [readAt]. *)
Definition NotificationRow : Type := NotificationDoc * option nat.

Definition rows (s : Store) : list NotificationRow :=
  imap (λ i n, (n, readAt_of s i)) (notifications (core s)).

Definition with_notifications (l : list NotificationDoc) (w : World) : World :=
  mkWorld (users w) (questions w) (answers w) l
          (now w) (notificationStoreUp w) (journal w) (console w).

Definition set_rows (l : list NotificationRow) (s : Store) : Store :=
  mkStore (with_notifications (l.*1) (core s)) (user_stats s) (question_status s)
          (answer_helpfulCount s) (l.*2).

(** Promises over the whole database. *)
Inductive OutcomeS (A : Type) :=
  | FulfilledS (a : A) (s : Store)
  | RejectedS (e : string) (s : Store).
Arguments FulfilledS {A} a s.
Arguments RejectedS {A} e s.

Definition PromiseS (A : Type) : Type := Store → OutcomeS A.

#[global] Instance PromiseS_ret : MRet PromiseS := λ A a s, FulfilledS a s.

#[global] Instance PromiseS_bind : MBind PromiseS := λ A B k m s,
  match m s with
  | FulfilledS a s' => k a s'
  | RejectedS e s' => RejectedS e s'
  end.

Definition writeS (f : Store → Store) : PromiseS unit := λ s, FulfilledS tt (f s).

Definition store_of {A} (o : OutcomeS A) : Store :=
  match o with FulfilledS _ s => s | RejectedS _ s => s end.

(** A promise of the vote and accept pipelines, run on the database. *)
Definition liftW {A} (m : Promise A) : PromiseS A := λ s,
  match m (core s) with
  | Fulfilled a w => FulfilledS a (with_core w s)
  | Rejected e w => RejectedS e (with_core w s)
  end.

(** [res.status(s).json({ message, error, ... })]: the further fields of
    the body are the ones the routes below send. *)
Inductive Body :=
  | NoBody
  | Votes (votes : Z)
  | HelpfulCount (helpfulCount : Z)
  | UnreadCount (unreadCount : nat)
  | Stats (total unread read : nat) (byType : list (NotificationType * nat)).

Record Reply := mkReply {
  r_status : nat;
  r_message : option string;
  r_error : option string;
  r_body : Body
}.

Definition reply (s : nat) (m : string) : Reply := mkReply s (Some m) None NoBody.

Definition reply_of (r : Response) : Reply :=
  mkReply (status r) (Some (message r)) (error r)
          (match votes r with Some v => Votes v | None => NoBody end).

Definition HandlerS : Type := Store → Reply * Store.

(** A handler of the vote and accept routes, run on the database. *)
Definition liftH (h : Handler) : HandlerS := λ s,
  let '(r, w) := h (core s) in (reply_of r, with_core w s).

(** [req.user]: the user document loaded by [authenticate]. *)
Record ReqUser := mkReqUser {
  u_id : ObjectId;
  u_doc : UserDoc;
  u_stats : UserStats
}.

(** server/middleware/auth.js, [authenticate], in front of the routes
    below. *)
Definition authenticateS (auth : Authorization) (next : ReqUser → HandlerS) : HandlerS :=
  λ s,
  match auth with
  | NoToken => (reply 401 "Access denied. No token provided.", s)
  | InvalidToken => (reply 401 "Invalid token.", s)
  | ExpiredToken => (reply 401 "Token expired.", s)
  | Bearer userId =>
      match users (core s) !! userId with
      | None => (reply 401 "Invalid token. User not found.", s)
      | Some user =>
          if negb (isActive user) then (reply 401 "Account is deactivated.", s)
          else next (mkReqUser userId user (stats_of s userId)) s
      end
  end.

(** [try { body } catch (error) { console.error(label, error);
    res.status(500).json({ message: failure, error: error.message }) }]. *)
Definition try_catchS (label failure : string) (body : PromiseS Reply) : HandlerS :=
  λ s,
  match body s with
  | FulfilledS r s' => (r, s')
  | RejectedS e s' =>
      (mkReply 500 (Some failure) (Some e) NoBody,
       with_core (console_error (label +:+ " " +:+ e) (core s')) s')
  end.

(** ** server/models/User.js *)

Module User.

Definition validStats : list string :=
  ["questionsAsked"; "answersGiven"; "questionsUpvoted"; "answersUpvoted";
   "totalVotesReceived"].

(** [stats[statType]], for the names of [validStats]. *)
Definition get_stat (statType : string) (st : UserStats) : Z :=
  if bool_decide (statType = "questionsAsked") then questionsAsked st
  else if bool_decide (statType = "answersGiven") then answersGiven st
  else if bool_decide (statType = "questionsUpvoted") then questionsUpvoted st
  else if bool_decide (statType = "answersUpvoted") then answersUpvoted st
  else totalVotesReceived st.

(** [stats[statType] = v], for the names of [validStats]. *)
Definition set_stat (statType : string) (v : Z) (st : UserStats) : UserStats :=
  if bool_decide (statType = "questionsAsked") then
    mkStats v (answersGiven st) (questionsUpvoted st) (answersUpvoted st) (totalVotesReceived st)
  else if bool_decide (statType = "answersGiven") then
    mkStats (questionsAsked st) v (questionsUpvoted st) (answersUpvoted st) (totalVotesReceived st)
  else if bool_decide (statType = "questionsUpvoted") then
    mkStats (questionsAsked st) (answersGiven st) v (answersUpvoted st) (totalVotesReceived st)
  else if bool_decide (statType = "answersUpvoted") then
    mkStats (questionsAsked st) (answersGiven st) (questionsUpvoted st) v (totalVotesReceived st)
  else
    mkStats (questionsAsked st) (answersGiven st) (questionsUpvoted st) (answersUpvoted st) v.

(** [this.save()] after an assignment to [stats[statType]]: the modified
    path is written. *)
Definition save_stat (this : ReqUser) (statType : string) : PromiseS unit :=
  writeS (λ s, set_user_stats
                 (insert (u_id this)
                         (set_stat statType (get_stat statType (u_stats this)) (stats_of s (u_id this))))
                 s).

(** [updateStats(statType, increment)]. *)
Definition updateStats (this : ReqUser) (statType : string) (increment : Z) : PromiseS unit :=
  if bool_decide (statType ∈ validStats) then
    let this := mkReqUser (u_id this) (u_doc this)
                  (set_stat statType (get_stat statType (u_stats this) + increment) (u_stats this)) in
    save_stat this statType
  else mret tt.

End User.

(** ** server/middleware/auth.js, [requireOwnership] *)

(** [req.resource]: a question or an answer document. *)
Inductive Resource :=
  | QuestionResource (question : QuestionDoc)
  | AnswerResource (answer : AnswerDoc).

Definition resource_author (r : Resource) : ObjectId :=
  match r with
  | QuestionResource q => q_author q
  | AnswerResource a => a_author a
  end.

Module auth.

(** The [switch (resourceType)]: the document looked up in the
    collection named by [resourceType], or nothing for another name. *)
Definition find_resource (resourceType : string) (resourceId : ObjectId)
    : Promise (option (option Resource)) := λ w,
  if bool_decide (resourceType = "question") then
    Fulfilled (Some (QuestionResource <$> questions w !! resourceId)) w
  else if bool_decide (resourceType = "answer") then
    Fulfilled (Some (AnswerResource <$> answers w !! resourceId)) w
  else Fulfilled None w.

Definition requireOwnership (resourceType : string) (req_user : option ReqUser)
    (resourceId : ObjectId) (next : Resource → HandlerS) : HandlerS := λ s,
  match req_user with
  | None => (reply 401 "Access denied. Authentication required.", s)
  | Some user =>
      match liftW (find_resource resourceType resourceId) s with
      | FulfilledS None s => (reply 400 "Invalid resource type.", s)
      | FulfilledS (Some None) s => (reply 404 (resourceType +:+ " not found."), s)
      | FulfilledS (Some (Some resource)) s =>
          if negb (bool_decide (resource_author resource = u_id user)) then
            (reply 403 "Access denied. You can only modify your own content.", s)
          else next resource s
      | RejectedS e s =>
          (reply 500 "Authorization failed.",
           with_core (console_error ("Ownership check error:" +:+ " " +:+ e) (core s)) s)
      end
  end.

End auth.

(** ** server/models/Answer.js, the rest of the document methods *)

Module AnswerDocument.

Definition unbump_question (q : QuestionDoc) : QuestionDoc :=
  mkQuestion (q_author q) (q_votes q) (q_upvotes q) (q_downvotes q) (q_answerCount q - 1)
             (q_hasAcceptedAnswer q) (q_acceptedAnswer q) (q_lastActivity q).

(** The [post('deleteOne', { document: true })] hook:
    [$inc: { answerCount: -1 }] on the parent question. *)
Definition post_deleteOne (doc : AnswerDoc) : Promise unit :=
  QuestionModel.findByIdAndUpdate (a_question doc) unbump_question.

(** [this.deleteOne()]: the document is removed, then the hook runs. *)
Definition deleteOne (_id : ObjectId) (this : AnswerDoc) : PromiseS unit :=
  writeS (λ s, set_answer_helpfulCount (delete _id)
                 (with_core (set_answers (delete _id) (core s)) s));;
  liftW (post_deleteOne this).

(** [markAsHelpful()]: [this.helpfulCount += 1], then [this.save()] with
    its post-save hook; the new count is returned with the document. *)
Definition markAsHelpful (_id : ObjectId) (this : AnswerDoc) (helpfulCount : Z)
    : PromiseS (AnswerDoc * Z) :=
  let helpfulCount := (helpfulCount + 1)%Z in
  writeS (set_answer_helpfulCount (insert _id helpfulCount));;
  this ← liftW (Answer.save _id this);
  mret (this, helpfulCount).

End AnswerDocument.

(** ** server/models/Question.js, saving a question with its status *)

(** Mongoose's change tracking for a question document with its
    [status]; as [ChangeTracking], it belongs to the library. *)
Class StatusTracking :=
  isModifiedS : option (QuestionDoc * QuestionStatus) → QuestionDoc * QuestionStatus → bool.

Module QuestionDocument.
Section WithStatusTracking.
Context `{StatusTracking}.

(** The question [_id] as it is stored. *)
Definition stored (s : Store) (_id : ObjectId) : option (QuestionDoc * QuestionStatus) :=
  (λ q, (q, status_of s _id)) <$> questions (core s) !! _id.

(** [this.save()] on a question obtained from [findById] whose [status]
    was assigned: the [lastActivity] hook, then the write. *)
Definition save (_id : ObjectId) (this : QuestionDoc) (status : QuestionStatus)
    : PromiseS QuestionDoc := λ s,
  let this := if isModifiedS (stored s _id) (this, status)
              then Question.with_lastActivity (now (core s)) this else this in
  FulfilledS this
    (set_question_status (insert _id status)
       (with_core (set_questions (insert _id this) (record (QuestionSave _id) (core s))) s)).

End WithStatusTracking.
End QuestionDocument.

(** ** The answers router, the rest of the routes that write *)

Module answers_router.

(** [router.delete('/:id', authenticate, validateParams(...),
    requireOwnership('answer'), ...)].  [requireOwnership('answer')]
    passes on an answer; on a question document the same calls would
    remove the question. *)
Definition delete_answer (auth : Authorization) (id : ObjectId) : HandlerS :=
  authenticateS auth (λ req_user,
  auth.requireOwnership "answer" (Some req_user) id (λ req_resource,
  try_catchS "Delete answer error:" "Failed to delete answer" (
    (* Remove answer *)
    match req_resource with
    | AnswerResource answer => AnswerDocument.deleteOne id answer
    | QuestionResource _ =>
        writeS (λ s, set_question_status (delete id)
                       (with_core (set_questions (delete id) (core s)) s))
    end;;
    (* Update user stats *)
    User.updateStats req_user "answersGiven" (-1);;
    mret (reply 200 "Answer deleted successfully")))).

(** [router.post('/:id/helpful', authenticate, validateParams(...), ...)]. *)
Definition helpful (auth : Authorization) (id : ObjectId) : HandlerS :=
  authenticateS auth (λ req_user,
  try_catchS "Mark helpful error:" "Failed to mark answer as helpful" (
    answer ← liftW (AnswerModel.findById id);
    match answer with
    | None => mret (reply 404 "Answer not found")
    | Some answer =>
        (* Users can't mark their own answers as helpful *)
        if bool_decide (a_author answer = u_id req_user) then
          mret (reply 400 "You cannot mark your own answer as helpful")
        else
          helpfulCount ← (λ s, FulfilledS (helpfulCount_of s id) s);
          answer ← AnswerDocument.markAsHelpful id answer helpfulCount;
          mret (mkReply 200 (Some "Answer marked as helpful") None (HelpfulCount answer.2))
    end)).

End answers_router.

(** ** The questions router, deleting a question *)

Module questions_router.
Section WithStatusTracking.
Context `{StatusTracking}.

(** [router.delete('/:id', authenticate, validateParams(...),
    requireOwnership('question'), ...)]: a soft delete.
    [requireOwnership('question')] passes on a question; on an answer
    document the assignment to [status] would be dropped by the schema and
    the answer saved. *)
Definition delete_question (auth : Authorization) (id : ObjectId) : HandlerS :=
  authenticateS auth (λ req_user,
  auth.requireOwnership "question" (Some req_user) id (λ req_resource,
  try_catchS "Delete question error:" "Failed to delete question" (
    (* Soft delete - change status to deleted *)
    match req_resource with
    | QuestionResource question =>
        QuestionDocument.save id question status_deleted;; mret tt
    | AnswerResource answer => liftW (Answer.save id answer);; mret tt
    end;;
    (* Update user stats *)
    User.updateStats req_user "questionsAsked" (-1);;
    mret (reply 200 "Question deleted successfully")))).

End WithStatusTracking.
End questions_router.

(** ** server/models/Notification.js, the queries *)

(** The filters the routes pass to the collection:
    [{ recipient }], [{ recipient, read: false }] and
    [{ recipient, read: true }]. *)
Record Filter := mkFilter {
  by_recipient : ObjectId;
  by_read : option bool
}.

Definition matches (f : Filter) (n : NotificationDoc) : Prop :=
  n_recipient n = Some (by_recipient f)
  ∧ match by_read f with Some b => n_read n = b | None => True end.

#[global] Instance matches_dec f n : Decision (matches f n).
Proof. unfold matches. destruct (by_read f); apply _. Defined.

Module NotificationModel.

Definition with_read (b : bool) (n : NotificationDoc) : NotificationDoc :=
  mkNotification (n_recipient n) (n_sender n) (n_type n) (n_title n) (n_message n)
                 (n_relatedQuestion n) (n_relatedAnswer n) (n_priority n)
                 (n_metadata_voteType n) b.

(** [Notification.countDocuments(filter)]. *)
Definition countDocuments (f : Filter) : Promise nat := λ w,
  Fulfilled (length (filter (matches f) (notifications w))) w.

(** [Notification.updateMany(filter, { read: true, readAt })]; as the
    insert, it fails when the collection does not accept writes. *)
Definition updateMany_read (f : Filter) (readAt : nat) : PromiseS unit := λ s,
  if notificationStoreUp (core s) then
    FulfilledS tt
      (set_rows ((λ r : NotificationRow,
                    if decide (matches f r.1) then (with_read true r.1, Some readAt) else r)
                 <$> rows s) s)
  else RejectedS Notification.store_unavailable s.

(** [Notification.deleteMany(filter)]. *)
Definition deleteMany (f : Filter) : PromiseS unit := λ s,
  if notificationStoreUp (core s) then
    FulfilledS tt (set_rows (filter (λ r : NotificationRow, ¬ matches f r.1) (rows s)) s)
  else RejectedS Notification.store_unavailable s.

(** The [$group] stage [{ _id: '$type', count: { $sum: 1 } }]. *)
Definition group_by_type (l : list NotificationDoc) : list (NotificationType * nat) :=
  (λ t, (t, length (filter (λ n, n_type n = t) l))) <$> remove_dups (n_type <$> l).

(** The order of [$sort: { count: -1 }]. *)
Definition count_desc (x y : NotificationType * nat) : Prop := (y.2 ≤ x.2)%nat.

#[global] Instance count_desc_dec x y : Decision (count_desc x y).
Proof. unfold count_desc. apply _. Defined.

#[global] Instance count_desc_transitive : Transitive count_desc.
Proof. intros x y z. unfold count_desc. lia. Qed.

#[global] Instance count_desc_total : Total count_desc.
Proof. intros x y. unfold count_desc. lia. Qed.

(** [Notification.aggregate([{ $match: { recipient } }, { $group },
    { $sort }])]. *)
Definition aggregate_by_type (recipient : ObjectId) : Promise (list (NotificationType * nat)) :=
  λ w, Fulfilled
         (merge_sort count_desc
            (group_by_type (filter (matches (mkFilter recipient None)) (notifications w))))
         w.

(** [statics.getUnreadCount]. *)
Definition getUnreadCount (userId : ObjectId) : Promise nat :=
  countDocuments (mkFilter userId (Some false)).

(** [statics.markAllAsRead]. *)
Definition markAllAsRead (userId : ObjectId) : PromiseS unit :=
  readAt ← liftW new_Date;
  updateMany_read (mkFilter userId (Some false)) readAt.

End NotificationModel.

(** ** server/routes/notifications.js *)

Module notifications_router.

(** [router.get('/unread/count', authenticate, ...)]. *)
Definition unread_count (auth : Authorization) : HandlerS :=
  authenticateS auth (λ req_user,
  try_catchS "Get unread count error:" "Failed to get unread count" (
    let userId := u_id req_user in
    count ← liftW (NotificationModel.getUnreadCount userId);
    mret (mkReply 200 None None (UnreadCount count)))).

(** [router.put('/read/all', authenticate, ...)]. *)
Definition read_all (auth : Authorization) : HandlerS :=
  authenticateS auth (λ req_user,
  try_catchS "Mark all notifications as read error:"
             "Failed to mark all notifications as read" (
    let userId := u_id req_user in
    NotificationModel.markAllAsRead userId;;
    mret (reply 200 "All notifications marked as read"))).

(** [router.delete('/read/all', authenticate, ...)]. *)
Definition delete_read_all (auth : Authorization) : HandlerS :=
  authenticateS auth (λ req_user,
  try_catchS "Delete all read notifications error:"
             "Failed to delete all read notifications" (
    let userId := u_id req_user in
    NotificationModel.deleteMany (mkFilter userId (Some true));;
    mret (reply 200 "All read notifications deleted"))).

(** [router.get('/stats', authenticate, ...)]: the four queries of the
    [Promise.all] read the collection and write nothing. *)
Definition stats (auth : Authorization) : HandlerS :=
  authenticateS auth (λ req_user,
  try_catchS "Get notification stats error:" "Failed to get notification statistics" (
    let userId := u_id req_user in
    totalNotifications ← liftW (NotificationModel.countDocuments (mkFilter userId None));
    unreadNotifications ← liftW (NotificationModel.countDocuments (mkFilter userId (Some false)));
    readNotifications ← liftW (NotificationModel.countDocuments (mkFilter userId (Some true)));
    notificationsByType ← liftW (NotificationModel.aggregate_by_type userId);
    mret (mkReply 200 None None
            (Stats totalNotifications unreadNotifications readNotifications
                   notificationsByType)))).

End notifications_router.

(** ** All routes over the database *)

Inductive RequestS :=
  | Pipeline (r : Request)
  | DELETE_answers (auth : Authorization) (id : ObjectId)
  | POST_answers_helpful (auth : Authorization) (id : ObjectId)
  | DELETE_questions (auth : Authorization) (id : ObjectId)
  | GET_notifications_unread_count (auth : Authorization)
  | PUT_notifications_read_all (auth : Authorization)
  | DELETE_notifications_read_all (auth : Authorization)
  | GET_notifications_stats (auth : Authorization).

Section ServerS.
Context `{ChangeTracking} `{StatusTracking}.

Definition handleS (r : RequestS) : HandlerS :=
  match r with
  | Pipeline r => liftH (handle r)
  | DELETE_answers auth id => answers_router.delete_answer auth id
  | POST_answers_helpful auth id => answers_router.helpful auth id
  | DELETE_questions auth id => questions_router.delete_question auth id
  | GET_notifications_unread_count auth => notifications_router.unread_count auth
  | PUT_notifications_read_all auth => notifications_router.read_all auth
  | DELETE_notifications_read_all auth => notifications_router.delete_read_all auth
  | GET_notifications_stats auth => notifications_router.stats auth
  end.

(** The databases reached while the requests are served one after the
    other. *)
Fixpoint serveS (rs : list RequestS) (s : Store) : list Store :=
  match rs with
  | [] => []
  | r :: rs => let s' := (handleS r s).2 in s' :: serveS rs s'
  end.

End ServerS.

(** The unread count the route reports to [caller]. *)
Definition unread (w : World) (userId : ObjectId) : nat :=
  length (filter (matches (mkFilter userId (Some false))) (notifications w)).

(** ** Example databases *)

Definition always_modifiedS : StatusTracking := λ _ _, true.

(** [example_world] with every other field at its default. *)
Definition example_store : Store := mkStore example_world ∅ ∅ ∅ [].

(** Unfolds the monad of promises over the database. *)
Ltac unfold_promiseS :=
  unfold mbind, PromiseS_bind, mret, PromiseS_ret, writeS, liftW in *; unfold_promise.

(** [example_store] after alice accepted bob's answer. *)
Definition example_store_accepted : Store :=
  (liftH (handle (H:=always_modified) (POST_answers_accept (Bearer 1) 20)) example_store).2.

(** ** Vocabulary of the properties of the further routes *)

(** Every question and answer of [w'] is one of [w], with the score,
    the ledger and the acceptance it had. *)
Definition votables_kept (w w' : World) : Prop :=
  (∀ x q', questions w' !! x = Some q' →
     ∃ q, questions w !! x = Some q
        ∧ q_author q' = q_author q ∧ q_votes q' = q_votes q
        ∧ q_upvotes q' = q_upvotes q ∧ q_downvotes q' = q_downvotes q
        ∧ q_hasAcceptedAnswer q' = q_hasAcceptedAnswer q
        ∧ q_acceptedAnswer q' = q_acceptedAnswer q)
  ∧ (∀ x a', answers w' !! x = Some a' → answers w !! x = Some a').

(** The requests that are not served by the vote and accept pipelines. *)
Definition further_request (r : RequestS) : Prop :=
  match r with Pipeline _ => False | _ => True end.

(** Requests of every kind: bob upvotes the question, carol marks bob's
    answer as helpful, alice accepts it, bob deletes it, alice deletes
    the question and reads her notifications. *)
Definition example_requests : list RequestS :=
  [ Pipeline (POST_questions_vote (Bearer 2) 10 "up");
    POST_answers_helpful (Bearer 3) 20;
    Pipeline (POST_answers_accept (Bearer 1) 20);
    DELETE_answers (Bearer 2) 20;
    DELETE_questions (Bearer 1) 10;
    PUT_notifications_read_all (Bearer 1) ].

(** [example_store] after bob and carol upvoted alice's question and
    alice upvoted bob's answer: two unread notifications for alice, one
    for bob. *)
Definition example_store_notified : Store :=
  foldl (λ s r, (handleS (H:=always_modified) (H0:=always_modifiedS) r s).2) example_store
    [ Pipeline (POST_questions_vote (Bearer 2) 10 "up");
      Pipeline (POST_questions_vote (Bearer 3) 10 "up");
      Pipeline (POST_answers_vote (Bearer 1) 20 "up") ].

(** The same after alice read her notifications. *)
Definition example_store_read : Store :=
  (notifications_router.read_all (Bearer 1) example_store_notified).2.

(** ** Routing: the order of the routes and the parameter schema *)

Module Router.

Inductive Method := GET | POST | PUT | DELETE.

#[global] Instance Method_eq_dec : EqDecision Method.
Proof. solve_decision. Defined.

(** A segment of a route path: a literal, or a parameter [:name]. *)
Inductive Segment := Lit (s : string) | Param (name : string).

(** The middleware in front of a handler. *)
Inductive Middleware :=
  | authenticate_mw
  | validate_mw (schema : string)
  | validateQuery_mw (schema : string)
  | validateParams_mw (schema : string)
  | requireOwnership_mw (resourceType : string).

#[global] Instance Middleware_eq_dec : EqDecision Middleware.
Proof. solve_decision. Defined.

(** [router.METHOD(path, ...middleware, handler)]. *)
Record Route := mkRoute {
  route_method : Method;
  route_path : list Segment;
  route_middleware : list Middleware
}.

(** Express compares literals without regard to case. *)
Definition lower (s : string) : string :=
  string_of_list_ascii (Slug.toLowerCase <$> list_ascii_of_string s).

(** A request path, cut at the slashes, against a route path: the
    parameters bound when it matches.  A parameter takes one non-empty
    segment. *)
Fixpoint path_matches (pattern : list Segment) (path : list string)
    : option (list (string * string)) :=
  match pattern, path with
  | [], [] => Some []
  | Lit l :: pattern, s :: path =>
      if bool_decide (lower l = lower s) then path_matches pattern path else None
  | Param name :: pattern, s :: path =>
      if bool_decide (s = EmptyString) then None
      else (λ params, (name, s) :: params) <$> path_matches pattern path
  | _, _ => None
  end.

(** The routes are tried in the order in which they were registered;
    every chain of middleware and handler below answers the request, so
    the first route that matches is the only one that runs. *)
Fixpoint dispatch (routes : list Route) (m : Method) (path : list string)
    : option (Route * list (string * string)) :=
  match routes with
  | [] => None
  | route :: routes =>
      if bool_decide (route_method route = m) then
        match path_matches (route_path route) path with
        | Some params => Some (route, params)
        | None => dispatch routes m path
        end
      else dispatch routes m path
  end.

(** [Joi.string().hex().length(24)]. *)
Definition is_hex (c : Ascii.ascii) : bool :=
  let n := Ascii.nat_of_ascii c in
  ((48 <=? n) && (n <=? 57) || (97 <=? n) && (n <=? 102) || (65 <=? n) && (n <=? 70))%nat.

Definition hex24 (s : string) : bool :=
  forallb is_hex (list_ascii_of_string s) && (String.length s =? 24)%nat.

(** [querySchemas.objectId.validate(req.params)]: the object must hold
    the key [id] with 24 hexadecimal digits, and no other key. *)
Definition objectId_accepts (params : list (string * string)) : bool :=
  forallb (λ kv : string * string, bool_decide (kv.1 = "id") && hex24 kv.2) params
  && existsb (λ kv : string * string, bool_decide (kv.1 = "id")) params.

(** [validateParams(querySchemas.objectId)]. *)
Definition validateParams (params : list (string * string)) (next : Handler) : Handler :=
  λ w,
  if objectId_accepts params then next w
  else (json 400 "Parameter validation error", w).

(** server/routes/notifications.js, in the order of the file. *)
Definition delete_one : Route :=
  mkRoute DELETE [Param "id"] [authenticate_mw; validateParams_mw "objectId"].

Definition delete_bulk : Route :=
  mkRoute DELETE [Lit "bulk"] [authenticate_mw; validate_mw "markAsRead"].

Definition notification_routes : list Route :=
  [ mkRoute GET [] [authenticate_mw; validateQuery_mw "pagination"];
    mkRoute GET [Lit "unread"; Lit "count"] [authenticate_mw];
    mkRoute PUT [Param "id"; Lit "read"] [authenticate_mw; validateParams_mw "objectId"];
    mkRoute PUT [Lit "read"; Lit "bulk"] [authenticate_mw; validate_mw "markAsRead"];
    mkRoute PUT [Lit "read"; Lit "all"] [authenticate_mw];
    delete_one;
    delete_bulk;
    mkRoute DELETE [Lit "read"; Lit "all"] [authenticate_mw];
    mkRoute GET [Lit "preferences"] [authenticate_mw];
    mkRoute PUT [Lit "preferences"] [authenticate_mw];
    mkRoute GET [Lit "stats"] [authenticate_mw];
    mkRoute POST [Lit "test"] [authenticate_mw] ].

(** The answers router, in the order of the file. *)
Definition answers_of_question : Route :=
  mkRoute GET [Lit "question"; Param "questionId"] [validateParams_mw "objectId"].

Definition answers_of_user : Route :=
  mkRoute GET [Lit "user"; Param "userId"] [validateParams_mw "objectId"].

Definition top_answers_of_user : Route :=
  mkRoute GET [Lit "user"; Param "userId"; Lit "top"] [validateParams_mw "objectId"].

Definition accepted_answers_of_user : Route :=
  mkRoute GET [Lit "user"; Param "userId"; Lit "accepted"] [validateParams_mw "objectId"].

Definition answer_routes : list Route :=
  [ mkRoute POST [] [authenticate_mw; validate_mw "create"];
    answers_of_question;
    mkRoute GET [Param "id"] [validateParams_mw "objectId"];
    mkRoute PUT [Param "id"]
      [authenticate_mw; validateParams_mw "objectId"; validate_mw "update";
       requireOwnership_mw "answer"];
    mkRoute DELETE [Param "id"]
      [authenticate_mw; validateParams_mw "objectId"; requireOwnership_mw "answer"];
    mkRoute POST [Param "id"; Lit "vote"]
      [authenticate_mw; validateParams_mw "objectId"; validate_mw "vote"];
    mkRoute POST [Param "id"; Lit "accept"] [authenticate_mw; validateParams_mw "objectId"];
    mkRoute POST [Param "id"; Lit "helpful"] [authenticate_mw; validateParams_mw "objectId"];
    answers_of_user;
    top_answers_of_user;
    accepted_answers_of_user;
    mkRoute GET [Param "id"; Lit "history"] [validateParams_mw "objectId"] ].

(** The routes of the answers router whose path binds no [id]. *)
Definition routes_without_id : list Route :=
  [answers_of_question; answers_of_user; top_answers_of_user; accepted_answers_of_user].

End Router.

(** * Properties *)

(** ** Mongoose arrays *)

Lemma includes_true x l : includes x l = true ↔ x ∈ l.
Proof. unfold includes. apply bool_decide_eq_true. Qed.

Lemma includes_false x l : includes x l = false ↔ x ∉ l.
Proof. unfold includes. apply bool_decide_eq_false. Qed.

Lemma elem_of_pull x y l : y ∈ pull x l ↔ y ∈ l ∧ y ≠ x.
Proof. unfold pull. rewrite list_elem_of_filter. tauto. Qed.

Lemma not_elem_of_pull x l : x ∉ pull x l.
Proof. rewrite elem_of_pull. tauto. Qed.

Lemma pull_absent x l : x ∉ l → pull x l = l.
Proof.
  intros Hx. unfold pull. induction l as [|y l IH]; [done|].
  rewrite filter_cons. apply not_elem_of_cons in Hx as [Hne Hl].
  destruct (decide (y ≠ x)) as [_|Heq]; [by rewrite IH |].
  exfalso. apply Heq. congruence.
Qed.

Lemma pull_pull x l : pull x (pull x l) = pull x l.
Proof. apply pull_absent, not_elem_of_pull. Qed.

Lemma NoDup_pull x l : NoDup l → NoDup (pull x l).
Proof. apply NoDup_filter. Qed.

Lemma elem_of_push x y l : y ∈ push x l ↔ y ∈ l ∨ y = x.
Proof. unfold push. rewrite elem_of_app, list_elem_of_singleton. tauto. Qed.

Lemma NoDup_push x l : NoDup l → x ∉ l → NoDup (push x l).
Proof.
  intros Hl Hx. unfold push. apply NoDup_app. split_and!; [done| |apply NoDup_singleton].
  intros y Hy ->%list_elem_of_singleton. done.
Qed.

(** ** The vote methods in one equation each *)

Section VoteEquations.
Context `{ChangeTracking}.

Lemma question_method_eq v _id this u w :
  question_method v _id this u w =
  Question.save _id (question_after_vote v u this)
    (award (q_author this)
       (reputation_change 5 v u (q_upvotes this, q_downvotes this)) w).
Proof.
  destruct v; unfold question_method, question_after_vote, ledger_after, reputation_change, award,
    Question.upvote, Question.downvote, Question.removeVote,
    UserModel.findByIdAndUpdate_inc_reputation; unfold_promise; cbn.
  - destruct (includes u (q_upvotes this)); reflexivity.
  - destruct (includes u (q_downvotes this)); reflexivity.
  - destruct (includes u (q_upvotes this)), (includes u (q_downvotes this)); reflexivity.
Qed.

Lemma answer_method_eq v _id this u w :
  answer_method v _id this u w =
  Answer.save _id (answer_after_vote v u this)
    (award (a_author this)
       (reputation_change 10 v u (a_upvotes this, a_downvotes this)) w).
Proof.
  destruct v; unfold answer_method, answer_after_vote, ledger_after, reputation_change, award,
    Answer.upvote, Answer.downvote, Answer.removeVote,
    UserModel.findByIdAndUpdate_inc_reputation; unfold_promise; cbn.
  - destruct (includes u (a_upvotes this)); reflexivity.
  - destruct (includes u (a_downvotes this)); reflexivity.
  - destruct (includes u (a_upvotes this)), (includes u (a_downvotes this)); reflexivity.
Qed.

Lemma Question_save_eq _id this w :
  Question.save _id this w =
  Fulfilled (question_saved w _id this)
    (set_questions (insert _id (question_saved w _id this)) (record (QuestionSave _id) w)).
Proof. reflexivity. Qed.

Lemma Answer_save_eq _id this w :
  Answer.save _id this w =
  Fulfilled this
    (set_questions (alter (Answer.bump_question (now w)) (a_question this))
       (record (QuestionUpdate (a_question this))
          (set_answers (insert _id this) (record (AnswerSave _id) w)))).
Proof. reflexivity. Qed.

(** [award] only touches the users and the journal. *)
Lemma award_frame author change w :
  questions (award author change w) = questions w
  ∧ answers (award author change w) = answers w
  ∧ notifications (award author change w) = notifications w
  ∧ now (award author change w) = now w
  ∧ notificationStoreUp (award author change w) = notificationStoreUp w
  ∧ console (award author change w) = console w.
Proof. destruct change; done. Qed.

Lemma award_journal author change w :
  journal (award author change w) = journal w ++ reputation_writes author change.
Proof. destruct change; cbn; [done | by rewrite app_nil_r]. Qed.

Lemma award_users author change w :
  users (award author change w) =
  match change with
  | Some delta =>
      alter (λ u, mkUser (username u) (reputation u + delta) (isActive u)) author (users w)
  | None => users w
  end.
Proof. destruct change; done. Qed.

(** The saved question keeps every field of the document but
    [lastActivity]. *)
Lemma question_saved_fields w _id this :
  q_author (question_saved w _id this) = q_author this
  ∧ q_votes (question_saved w _id this) = q_votes this
  ∧ q_upvotes (question_saved w _id this) = q_upvotes this
  ∧ q_downvotes (question_saved w _id this) = q_downvotes this
  ∧ q_answerCount (question_saved w _id this) = q_answerCount this
  ∧ q_hasAcceptedAnswer (question_saved w _id this) = q_hasAcceptedAnswer this
  ∧ q_acceptedAnswer (question_saved w _id this) = q_acceptedAnswer this.
Proof. unfold question_saved. by destruct (isModified _ _). Qed.

End VoteEquations.
(** ** Score and ledger *)

Lemma ledger_wf_of_lists ups downs :
  NoDup ups → NoDup downs → (∀ x, x ∈ ups → x ∉ downs) →
  ledger_wf (Question.votes_of ups downs) ups downs.
Proof.
  intros Hu Hd Hdisj. split; [done|]. split; [done|]. split.
  - unfold Question.votes_of, voters. by rewrite !size_list_to_set.
  - apply elem_of_disjoint. intros x. unfold voters. rewrite !elem_of_list_to_set.
    intros Hx Hx'. by apply (Hdisj x).
Qed.

Lemma ledger_wf_disjoint score ups downs x :
  ledger_wf score ups downs → x ∈ ups → x ∉ downs.
Proof.
  intros (_ & _ & _ & Hdisj) Hx Hx'.
  apply (proj1 (elem_of_disjoint _ _) Hdisj x); unfold voters; by rewrite elem_of_list_to_set.
Qed.

Lemma ledger_wf_consistent score ups downs :
  ledger_wf score ups downs → score_matches_ledger score ups downs.
Proof. by intros (_ & _ & ?). Qed.

(** Every vote method leaves a well-formed ledger, with the score it
    computes from the lengths of the two arrays. *)
Lemma ledger_after_wf v u score ups downs :
  ledger_wf score ups downs →
  ledger_wf (Question.votes_of (ledger_after v u (ups, downs)).1 (ledger_after v u (ups, downs)).2)
            (ledger_after v u (ups, downs)).1 (ledger_after v u (ups, downs)).2.
Proof.
  intros Hwf. pose proof (λ x, ledger_wf_disjoint _ _ _ x Hwf) as Hdisj.
  destruct Hwf as (Hu & Hd & _).
  apply ledger_wf_of_lists; destruct v; unfold ledger_after; cbn [fst snd].
  - destruct (includes u ups) eqn:E; [done|]. apply NoDup_push; [done|]. by apply includes_false.
  - by apply NoDup_pull.
  - by apply NoDup_pull.
  - by apply NoDup_pull.
  - destruct (includes u downs) eqn:E; [done|]. apply NoDup_push; [done|]. by apply includes_false.
  - by apply NoDup_pull.
  - intros x Hx. rewrite elem_of_pull. intros [Hx' Hne].
    destruct (includes u ups); [by apply (Hdisj x)|].
    apply elem_of_push in Hx as [Hx|Hx]; [by apply (Hdisj x) | done].
  - intros x [Hx Hne]%elem_of_pull Hx'.
    destruct (includes u downs); [by apply (Hdisj x)|].
    apply elem_of_push in Hx' as [Hx'|Hx']; [by apply (Hdisj x) | done].
  - intros x [Hx Hne]%elem_of_pull [Hx' _]%elem_of_pull. by apply (Hdisj x).
Qed.

Section LedgerInvariant.
Context `{ChangeTracking}.

Lemma perform_question id this v u w :
  questions w !! id = Some this →
  perform (mkVoteOperation (AQuestion id) v u) w =
  let w1 := award (q_author this) (reputation_change 5 v u (q_upvotes this, q_downvotes this)) w in
  set_questions (insert id (question_saved w1 id (question_after_vote v u this)))
    (record (QuestionSave id) w1).
Proof. intros Hq. unfold perform. cbn. rewrite Hq, question_method_eq. done. Qed.

Lemma perform_answer id this v u w :
  answers w !! id = Some this →
  perform (mkVoteOperation (AnAnswer id) v u) w =
  let w1 := award (a_author this) (reputation_change 10 v u (a_upvotes this, a_downvotes this)) w in
  set_questions (alter (Answer.bump_question (now w1)) (a_question this))
    (record (QuestionUpdate (a_question this))
       (set_answers (insert id (answer_after_vote v u this)) (record (AnswerSave id) w1))).
Proof. intros Ha. unfold perform. cbn. rewrite Ha, answer_method_eq. done. Qed.

Lemma perform_question_frame id this v u w :
  questions w !! id = Some this →
  ∃ q', q_author q' = q_author this
      ∧ q_votes q' = q_votes (question_after_vote v u this)
      ∧ q_upvotes q' = q_upvotes (question_after_vote v u this)
      ∧ q_downvotes q' = q_downvotes (question_after_vote v u this)
      ∧ questions (perform (mkVoteOperation (AQuestion id) v u) w) = <[id := q']> (questions w)
      ∧ answers (perform (mkVoteOperation (AQuestion id) v u) w) = answers w.
Proof.
  intros Hq. rewrite (perform_question _ this) by done.
  set (w1 := award (q_author this)
    (reputation_change 5 v u (q_upvotes this, q_downvotes this)) w).
  exists (question_saved w1 id (question_after_vote v u this)).
  split_and!;
    [apply (question_saved_fields w1 id (question_after_vote v u this))..| |]; cbn; subst w1.
  - by destruct (award_frame (q_author this)
      (reputation_change 5 v u (q_upvotes this, q_downvotes this)) w) as (-> & _).
  - apply award_frame.
Qed.

Lemma perform_answer_frame id this v u w :
  answers w !! id = Some this →
  ∃ t, questions (perform (mkVoteOperation (AnAnswer id) v u) w) =
         alter (Answer.bump_question t) (a_question this) (questions w)
     ∧ answers (perform (mkVoteOperation (AnAnswer id) v u) w) =
         <[id := answer_after_vote v u this]> (answers w).
Proof.
  intros Ha. rewrite (perform_answer _ this) by done.
  eexists. cbn.
  destruct (award_frame (a_author this)
    (reputation_change 10 v u (a_upvotes this, a_downvotes this)) w) as (-> & -> & _).
  split; reflexivity.
Qed.

Lemma perform_missing op w :
  votable_author w (target op) = None → perform op w = w.
Proof.
  destruct op as [[id|id] v u]; unfold perform; cbn.
  - by destruct (questions w !! id).
  - by destruct (answers w !! id).
Qed.

Lemma perform_keeps_ledgers_wf op w :
  every_votable ledger_wf w → every_votable ledger_wf (perform op w).
Proof.
  intros [Hq Ha]. destruct op as [[id|id] v u].
  - destruct (questions w !! id) as [this|] eqn:E.
    2:{ rewrite perform_missing; [done|]. cbn. by rewrite E. }
    destruct (perform_question_frame id this v u w E) as (q' & _ & Hv & Hu & Hd & Hqs & Has).
    unfold every_votable. rewrite Hqs, Has. split; [|done].
    apply map_Forall_insert_2; [|done]. rewrite Hv, Hu, Hd. cbn.
    apply (ledger_after_wf v u (q_votes this)). by apply (Hq id).
  - destruct (answers w !! id) as [this|] eqn:E.
    2:{ rewrite perform_missing; [done|]. cbn. by rewrite E. }
    destruct (perform_answer_frame id this v u w E) as (t & Hqs & Has).
    unfold every_votable. rewrite Hqs, Has. split.
    + intros i q [(<- & q0 & Hq0 & ->)|[_ Hi]]%lookup_alter_Some.
      * cbn. by apply (Hq _ _ Hq0).
      * by apply (Hq _ _ Hi).
    + apply map_Forall_insert_2; [|done].
      cbn. apply (ledger_after_wf v u (a_votes this)). by apply (Ha id).
Qed.

Lemma perform_all_keeps_ledgers_wf ops w :
  every_votable ledger_wf w → Forall (every_votable ledger_wf) (perform_all ops w).
Proof.
  revert w. induction ops as [|op ops IH]; intros w Hw; cbn; [constructor|].
  pose proof (perform_keeps_ledgers_wf op w Hw). constructor; auto.
Qed.

(** C1. For every votable and every sequence of vote operations
    ([upvote], [downvote], [removeVote]) by any actors, starting from
    ledgers as the vote methods leave them (in particular from the empty
    ledgers of new documents), after each operation the stored score of
    every question and answer is the number of its upvoters minus the
    number of its downvoters, and no account is in both sets. *)
Theorem vote_operations_keep_score_and_disjointness ops w :
  every_votable ledger_wf w →
  Forall (every_votable score_matches_ledger) (perform_all ops w).
Proof.
  intros Hw. eapply Forall_impl; [by apply perform_all_keeps_ledgers_wf|].
  intros w' [Hq Ha]. split.
  - eapply map_Forall_impl; [exact Hq|]. intros ??. apply ledger_wf_consistent.
  - eapply map_Forall_impl; [exact Ha|]. intros ??. apply ledger_wf_consistent.
Qed.

End LedgerInvariant.
Lemma example_world_ledgers_wf : every_votable ledger_wf example_world.
Proof.
  assert (ledger_wf 0 [] []) as Hempty.
  { split; [apply NoDup_nil_2|]. split; [apply NoDup_nil_2|]. split; [done|].
    unfold voters. cbn. set_solver. }
  split; cbn.
  - by apply map_Forall_singleton.
  - apply map_Forall_insert_2; [done|]. by apply map_Forall_singleton.
Qed.

Lemma vote_operations_keep_score_and_disjointness_witness :
  every_votable ledger_wf example_world
  ∧ Forall (every_votable score_matches_ledger)
      (perform_all (H:=always_modified) example_operations example_world).
Proof.
  split; [exact example_world_ledgers_wf|].
  apply (vote_operations_keep_score_and_disjointness (H:=always_modified)
           example_operations example_world).
  exact example_world_ledgers_wf.
Defined.

(** ** Reputation *)

(** The increment issued by a vote method is the entry of the table for
    the transition performed; no increment stands for the entry 0. *)
Lemma reputation_change_table t v u l prior :
  prior_vote u l = Some prior →
  default 0%Z (reputation_change (upvote_points t) v u l) =
  spec_reputation_delta t (transition_performed prior v).
Proof.
  unfold prior_vote, reputation_change.
  destruct (includes u l.1), (includes u l.2); intros [= <-]; destruct v, t; reflexivity.
Qed.

Lemma award_lookup author change w other :
  users (award author change w) !! other =
  if decide (author = other)
  then (λ u, mkUser (username u) (reputation u + default 0%Z change) (isActive u)) <$> users w !! other
  else users w !! other.
Proof.
  rewrite award_users. destruct change as [delta|]; cbn.
  - rewrite lookup_alter. by destruct (decide (author = other)) as [->|].
  - destruct (decide (author = other)); [|done].
    destruct (users w !! other) as [[n r a]|]; cbn; [|done].
    by rewrite Z.add_0_r.
Qed.

Section Reputation.
Context `{ChangeTracking}.

Lemma perform_users op w author l :
  votable_author w (target op) = Some author →
  votable_ledger w (target op) = Some l →
  users (perform op w) =
  users (award author (reputation_change (upvote_points (target op)) (operation op) (actor op) l) w).
Proof.
  destruct op as [[id|id] v u]; cbn -[perform award].
  - destruct (questions w !! id) as [this|] eqn:E; [|done]. cbn -[perform award]. intros [= <-] [= <-].
    by rewrite (perform_question _ this).
  - destruct (answers w !! id) as [this|] eqn:E; [|done]. cbn -[perform award]. intros [= <-] [= <-].
    by rewrite (perform_answer _ this).
Qed.

(** C2. For every vote operation on an existing target, the reputation of
    the target's author changes by the entry of the table of section 4.1,
    step 4, for the transition actually performed (+5/+10 for a new or
    switched-to upvote, -2 for a new or switched-to downvote, -5/-10 and
    +2 for removals, 0 for a removal without vote and for repeated
    votes), and no other account changes. *)
Theorem reputation_delta_follows_transition op w author account l prior :
  votable_author w (target op) = Some author →
  votable_ledger w (target op) = Some l →
  prior_vote (actor op) l = Some prior →
  users w !! author = Some account →
  reputation <$> users (perform op w) !! author =
    Some (reputation account
          + spec_reputation_delta (target op) (transition_performed prior (operation op)))%Z
  ∧ ∀ other, other ≠ author → users (perform op w) !! other = users w !! other.
Proof.
  intros Hauthor Hledger Hprior Haccount.
  rewrite (perform_users op w author l) by done. split.
  - rewrite award_lookup, decide_True by done. rewrite Haccount. cbn.
    by rewrite (reputation_change_table _ _ _ _ prior).
  - intros other Hne. rewrite award_lookup, decide_False by done. done.
Qed.

End Reputation.

Lemma reputation_delta_follows_transition_witness :
  votable_author example_world (AQuestion 10) = Some 1
  ∧ votable_ledger example_world (AQuestion 10) = Some ([], [])
  ∧ prior_vote 2 ([], []) = Some NoVote
  ∧ users example_world !! 1 = Some (mkUser "alice" 0 true)
  ∧ reputation <$> users (perform (H:=always_modified)
                            (mkVoteOperation (AQuestion 10) up 2) example_world) !! 1
    = Some 5%Z.
Proof.
  split_and!; [reflexivity..|].
  apply (reputation_delta_follows_transition (H:=always_modified)
           (mkVoteOperation (AQuestion 10) up 2) example_world 1
           (mkUser "alice" 0 true) ([], []) NoVote); reflexivity.
Defined.

(** ** The vote routes *)

Lemma parse_voteType_string v : parse_voteType (voteType_string v) = Some v.
Proof. by destruct v. Qed.

Section VoteRoutes.
Context `{ChangeTracking}.

(** A vote request by an authenticated caller who is not the author of an
    existing target: the vote method runs, then the notification step
    unless the vote is a removal, all inside one [try]. *)
Lemma vote_route_granted t v caller account author w :
  authenticated w caller account →
  votable_author w t = Some author →
  author ≠ caller →
  handle (vote_request t (Bearer caller) (voteType_string v)) w =
  let w1 := perform (mkVoteOperation t v caller) w in
  let ok := mkResponse 200 "Vote recorded successfully" (votable_score w1 t) None in
  if bool_decide (v = remove) then (ok, w1)
  else match notify_vote t author (caller, account) v w1 with
       | Fulfilled _ w2 => (ok, w2)
       | Rejected e w2 =>
           (mkResponse 500 (vote_failure_message t) None (Some e),
            console_error (vote_error_label t +:+ " " +:+ e) w2)
       end.
Proof.
  intros [Hcaller Hactive] Hauthor Hne. destruct t as [id|id]; cbn -[perform] in *.
  - destruct (questions w !! id) as [this|] eqn:E; [|done]. cbn in Hauthor.
    injection Hauthor as <-.
    unfold questions.vote, authenticate, validate_vote, try_catch.
    rewrite Hcaller, Hactive, parse_voteType_string. cbn [negb].
    unfold QuestionModel.findById. unfold_promise. rewrite E.
    rewrite bool_decide_eq_false_2 by done.
    assert (match v with
            | up => Question.upvote id this caller
            | down => Question.downvote id this caller
            | remove => Question.removeVote id this caller
            end w = question_method v id this caller w) as -> by (by destruct v).
    rewrite (perform_question _ this) by done.
    rewrite question_method_eq, Question_save_eq. cbn zeta.
    set (w1 := award _ _ w).
    set (saved := question_saved w1 id _).
    assert (q_author saved = q_author this) as ->.
    { subst saved. by rewrite (proj1 (question_saved_fields _ _ _)). }
    cbn [questions set_questions]. rewrite lookup_insert_eq. cbn [fmap option_fmap option_map].
    unfold notify_vote. unfold_promise.
    destruct (bool_decide (v = remove)); cbn [negb]; [done|].
    destruct (UserModel.findById (q_author this) _) as [a0 w0|]; [|done].
    by destruct (Notification.createQuestionVoted id a0 (caller, account) v w0).
  - destruct (answers w !! id) as [this|] eqn:E; [|done]. cbn in Hauthor.
    injection Hauthor as <-.
    unfold answers.vote, authenticate, validate_vote, try_catch.
    rewrite Hcaller, Hactive, parse_voteType_string. cbn [negb].
    unfold AnswerModel.findById. unfold_promise. rewrite E.
    rewrite bool_decide_eq_false_2 by done.
    assert (match v with
            | up => Answer.upvote id this caller
            | down => Answer.downvote id this caller
            | remove => Answer.removeVote id this caller
            end w = answer_method v id this caller w) as -> by (by destruct v).
    rewrite (perform_answer _ this) by done.
    rewrite answer_method_eq, Answer_save_eq. cbn zeta.
    set (w1 := award _ _ w).
    cbn [answers set_answers set_questions record]. rewrite lookup_insert_eq.
    cbn [fmap option_fmap option_map].
    unfold notify_vote. unfold_promise.
    destruct (bool_decide (v = remove)); cbn [negb]; [done|].
    change (a_author (answer_after_vote v caller this)) with (a_author this).
    destruct (UserModel.findById (a_author this) _) as [a0 w0|]; [|done].
    by destruct (Notification.createAnswerVoted id a0 (caller, account) v w0).
Qed.

End VoteRoutes.

(** ** The notification step *)

Lemma length_append (a b : string) :
  String.length (a +:+ b) = String.length a + String.length b.
Proof. induction a as [|c a IH]; simpl; [done | by f_equal]. Qed.

Lemma voteText_length v : (String.length (Notification.voteText v) ≤ 9)%nat.
Proof. destruct v; vm_compute; lia. Qed.

(** Saving a notification touches the notifications and the journal
    only. *)
Lemma Notification_save_frame n w :
  users (world_of (Notification.save n w)) = users w
  ∧ questions (world_of (Notification.save n w)) = questions w
  ∧ answers (world_of (Notification.save n w)) = answers w
  ∧ console (world_of (Notification.save n w)) = console w.
Proof.
  unfold Notification.save.
  destruct (negb _); [done|]. destruct (_ <? _)%nat; [done|]. destruct (_ <? _)%nat; [done|].
  cbn. by destruct (notificationStoreUp w).
Qed.

Lemma notify_vote_frame t author voter v w :
  users (world_of (notify_vote t author voter v w)) = users w
  ∧ questions (world_of (notify_vote t author voter v w)) = questions w
  ∧ answers (world_of (notify_vote t author voter v w)) = answers w
  ∧ console (world_of (notify_vote t author voter v w)) = console w.
Proof.
  unfold notify_vote, UserModel.findById. unfold_promise.
  destruct t; apply Notification_save_frame.
Qed.

(** With the store down, saving a notification is rejected. *)
Lemma Notification_save_store_down n w :
  notificationStoreUp w = false → ∃ e w', Notification.save n w = Rejected e w'.
Proof.
  intros Hdown. unfold Notification.save.
  destruct (negb _); [by eauto|]. destruct (_ <? _)%nat; [by eauto|]. destruct (_ <? _)%nat; [by eauto|].
  cbn. rewrite Hdown. by eauto.
Qed.

(** When the author's account exists and the voter's username respects
    the schema ([maxlength: 50]), the notification passes validation and
    the insert is issued. *)
Lemma notify_vote_issued t author voter v w author_account :
  users w !! author = Some author_account →
  (String.length (username voter.2) ≤ 50)%nat →
  notify_vote t author voter v w =
  let n := vote_notification t author voter v in
  let w' := record (NotificationSave (n_type n)) w in
  if notificationStoreUp w then Fulfilled n (add_notification n w')
  else Rejected Notification.store_unavailable w'.
Proof.
  intros Hauthor Hname.
  unfold notify_vote, UserModel.findById. unfold_promise. rewrite Hauthor.
  destruct t as [id|id]; cbn -[String.length Nat.ltb].
  - unfold Notification.createQuestionVoted, Notification.save; cbn -[String.length Nat.ltb].
    assert ((200 <? String.length ("Question " +:+ Notification.capitalize (Notification.voteText v)))%nat = false)
      as -> by (by destruct v).
    assert ((500 <? String.length (username voter.2 +:+ " " +:+ Notification.voteText v +:+ " your question"))%nat = false)
      as ->.
    { apply Nat.ltb_ge. rewrite !length_append. pose proof (voteText_length v). cbn. lia. }
    done.
  - unfold Notification.createAnswerVoted, Notification.save; cbn -[String.length Nat.ltb].
    assert ((200 <? String.length ("Answer " +:+ Notification.capitalize (Notification.voteText v)))%nat = false)
      as -> by (by destruct v).
    assert ((500 <? String.length (username voter.2 +:+ " " +:+ Notification.voteText v +:+ " your answer"))%nat = false)
      as ->.
    { apply Nat.ltb_ge. rewrite !length_append. pose proof (voteText_length v). cbn. lia. }
    done.
Qed.

(** ** Properties of the vote routes *)

Section VoteRouteProperties.
Context `{ChangeTracking}.

(** C4. A vote request, whatever its action, by an authenticated caller
    who is the author of the target is answered with status 400 and the
    self-vote message, and the world is left as it was: ledger, score and
    reputations are unchanged. *)
Theorem self_vote_is_rejected t v caller account w :
  authenticated w caller account →
  votable_author w t = Some caller →
  handle (vote_request t (Bearer caller) (voteType_string v)) w =
  (json 400 (self_vote_message t), w).
Proof.
  intros [Hcaller Hactive] Hauthor. destruct t as [id|id]; cbn in *.
  - destruct (questions w !! id) as [this|] eqn:E; [|done].
    injection Hauthor as Hauthor.
    unfold questions.vote, authenticate, validate_vote, try_catch.
    rewrite Hcaller, Hactive, parse_voteType_string. cbn [negb].
    unfold QuestionModel.findById. unfold_promise. rewrite E.
    by rewrite bool_decide_eq_true_2.
  - destruct (answers w !! id) as [this|] eqn:E; [|done].
    injection Hauthor as Hauthor.
    unfold answers.vote, authenticate, validate_vote, try_catch.
    rewrite Hcaller, Hactive, parse_voteType_string. cbn [negb].
    unfold AnswerModel.findById. unfold_promise. rewrite E.
    by rewrite bool_decide_eq_true_2.
Qed.

(** What a vote operation leaves in the target. *)
Lemma perform_target t v u w l :
  votable_ledger w t = Some l →
  votable_ledger (perform (mkVoteOperation t v u) w) t = Some (ledger_after v u l)
  ∧ votable_score (perform (mkVoteOperation t v u) w) t =
      Some (Question.votes_of (ledger_after v u l).1 (ledger_after v u l).2)
  ∧ votable_author (perform (mkVoteOperation t v u) w) t = votable_author w t.
Proof.
  destruct t as [id|id]; cbn -[perform].
  - destruct (questions w !! id) as [this|] eqn:E; [|done]. intros [= <-].
    destruct (perform_question_frame id this v u w E) as (q' & Hau & Hv & Hu & Hd & Hqs & _).
    rewrite Hqs, lookup_insert_eq. cbn [fmap option_fmap option_map]. rewrite Hau, Hv, Hu, Hd.
    split_and!; [|done..]. cbn. by destruct (ledger_after _ _ _).
  - destruct (answers w !! id) as [this|] eqn:E; [|done]. intros [= <-].
    destruct (perform_answer_frame id this v u w E) as (t & _ & Has).
    rewrite Has, lookup_insert_eq. cbn [fmap option_fmap option_map].
    split_and!; [|done..]. cbn. by destruct (ledger_after _ _ _).
Qed.

(** A vote route leaves the collections as the vote method left them:
    the notification step writes no user, question or answer. *)
Lemma vote_route_frame t v caller account author w :
  authenticated w caller account →
  votable_author w t = Some author →
  author ≠ caller →
  let w' := (handle (vote_request t (Bearer caller) (voteType_string v)) w).2 in
  let w1 := perform (mkVoteOperation t v caller) w in
  users w' = users w1 ∧ questions w' = questions w1 ∧ answers w' = answers w1.
Proof.
  intros Hauth Hauthor Hne. cbn zeta.
  rewrite (vote_route_granted t v caller account author) by done. cbn zeta.
  destruct (bool_decide (v = remove)); [done|].
  pose proof (notify_vote_frame t author (caller, account) v
                (perform (mkVoteOperation t v caller) w)) as (Hu & Hq & Ha & _).
  destruct (notify_vote _ _ _ _ _); cbn in *; by rewrite Hu, Hq, Ha.
Qed.

Lemma vote_route_target t v caller account author w l :
  authenticated w caller account →
  votable_author w t = Some author →
  author ≠ caller →
  votable_ledger w t = Some l →
  let w' := (handle (vote_request t (Bearer caller) (voteType_string v)) w).2 in
  votable_ledger w' t = Some (ledger_after v caller l)
  ∧ votable_score w' t =
      Some (Question.votes_of (ledger_after v caller l).1 (ledger_after v caller l).2)
  ∧ votable_author w' t = Some author
  ∧ users w' =
      users (award author (reputation_change (upvote_points t) v caller l) w).
Proof.
  intros Hauth Hauthor Hne Hl. cbn zeta.
  destruct (vote_route_frame t v caller account author w Hauth Hauthor Hne) as (Hu & Hq & Ha).
  destruct (perform_target t v caller w l Hl) as (Hl' & Hs' & Ha').
  pose proof (perform_users (mkVoteOperation t v caller) w author l Hauthor Hl) as Hpu.
  cbn [target operation actor] in Hpu.
  split_and!.
  - rewrite <- Hl'. unfold votable_ledger. destruct t; by rewrite ?Hq, ?Ha.
  - rewrite <- Hs'. unfold votable_score. destruct t; by rewrite ?Hq, ?Ha.
  - rewrite <- Hauthor, <- Ha'. unfold votable_author. destruct t; by rewrite ?Hq, ?Ha.
  - by rewrite Hu.
Qed.

(** C3. For a votable and an authenticated caller who is not its author,
    a second [up] vote request right after a first one leaves upvoters,
    downvoters and score as the first left them (the caller being an
    upvoter), and changes no reputation: no second +5/+10. *)
Theorem up_twice_is_idempotent t caller account author w :
  authenticated w caller account →
  votable_author w t = Some author →
  author ≠ caller →
  let w1 := (handle (vote_request t (Bearer caller) (voteType_string up)) w).2 in
  let w2 := (handle (vote_request t (Bearer caller) (voteType_string up)) w1).2 in
  (∃ ups downs, votable_ledger w1 t = Some (ups, downs) ∧ caller ∈ ups)
  ∧ votable_ledger w2 t = votable_ledger w1 t
  ∧ votable_score w2 t = votable_score w1 t
  ∧ users w2 = users w1.
Proof.
  intros Hauth Hauthor Hne. cbn zeta.
  assert (∃ l, votable_ledger w t = Some l) as [[ups downs] Hl].
  { destruct t as [id|id]; cbn in *.
    - destruct (questions w !! id); [by eauto|done].
    - destruct (answers w !! id); [by eauto|done]. }
  destruct (vote_route_target t up caller account author w (ups, downs) Hauth Hauthor Hne Hl)
    as (Hl1 & Hs1 & Ha1 & Hu1).
  set (w1 := (handle (vote_request t (Bearer caller) (voteType_string up)) w).2) in *.
  set (l1 := ledger_after up caller (ups, downs)) in *.
  assert (caller ∈ l1.1) as Hin.
  { subst l1. cbn. destruct (includes caller ups) eqn:E.
    - by apply includes_true.
    - apply elem_of_push. by right. }
  assert (caller ∉ l1.2) as Hout by apply not_elem_of_pull.
  assert (authenticated w1 caller account) as Hauth1.
  { destruct Hauth as [Hc Hact]. split; [|done].
    rewrite Hu1, award_lookup, decide_False by done. done. }
  destruct (vote_route_target t up caller account author w1 l1 Hauth1 Ha1 Hne Hl1)
    as (Hl2 & Hs2 & _ & Hu2).
  clearbody l1.
  assert (ledger_after up caller l1 = l1) as Hsame.
  { destruct l1 as [ups1 downs1]. unfold ledger_after. cbn [fst snd] in *.
    apply includes_true in Hin. rewrite Hin. by rewrite pull_absent. }
  assert (reputation_change (upvote_points t) up caller l1 = None) as Hnone.
  { unfold reputation_change. apply includes_true in Hin. by rewrite Hin. }
  rewrite Hsame in Hl2, Hs2. rewrite Hnone in Hu2.
  split_and!.
  - exists l1.1, l1.2. split; [|done]. rewrite Hl1. by destruct l1.
  - by rewrite Hl2, Hl1.
  - by rewrite Hs2, Hs1.
  - exact Hu2.
Qed.

End VoteRouteProperties.

(** ** Notifications and order of the writes of a vote *)

Section VoteTrace.
Context `{ChangeTracking}.

(** The writes of a vote method, in the order in which they are issued,
    and what it leaves alone. *)
Lemma perform_effects t v u w l author :
  votable_author w t = Some author →
  votable_ledger w t = Some l →
  journal (perform (mkVoteOperation t v u) w) =
    journal w ++ reputation_writes author (reputation_change (upvote_points t) v u l)
              ++ target_writes w t
  ∧ notifications (perform (mkVoteOperation t v u) w) = notifications w
  ∧ notificationStoreUp (perform (mkVoteOperation t v u) w) = notificationStoreUp w
  ∧ console (perform (mkVoteOperation t v u) w) = console w.
Proof.
  destruct t as [id|id]; cbn -[perform award reputation_change].
  - destruct (questions w !! id) as [this|] eqn:E; [|done].
    cbn -[perform award reputation_change]. intros [= <-] [= <-].
    rewrite (perform_question _ this) by done. cbn -[award reputation_change].
    rewrite award_journal, <- app_assoc.
    split_and!; [done|apply award_frame..].
  - destruct (answers w !! id) as [this|] eqn:E; [|done].
    cbn -[perform award reputation_change]. intros [= <-] [= <-].
    rewrite (perform_answer _ this) by done. cbn -[award reputation_change].
    rewrite award_journal, <- !app_assoc.
    split_and!; [done|apply award_frame..].
Qed.

(** C5, as the code has it. A vote request that reaches the pipeline
    (authenticated caller, existing target, caller not the author) appends
    exactly one notification for the target's author when the action is
    [up] or [down], whether or not the ledger changed, and none when the
    action is [remove]; this holds when the author's account exists, the
    voter's username is within the schema's 50 characters and the
    notifications collection accepts the write. *)
Theorem vote_notifies_unless_remove t v caller account author author_account w :
  authenticated w caller account →
  votable_author w t = Some author →
  author ≠ caller →
  users w !! author = Some author_account →
  (String.length (username account) ≤ 50)%nat →
  notificationStoreUp w = true →
  notifications (handle (vote_request t (Bearer caller) (voteType_string v)) w).2 =
  notifications w ++
    (if bool_decide (v = remove) then []
     else [vote_notification t author (caller, account) v]).
Proof.
  intros Hauth Hauthor Hne Haccount Hname Hup.
  assert (∃ l, votable_ledger w t = Some l) as [l Hl].
  { destruct t as [id|id]; cbn in *.
    - destruct (questions w !! id); [by eauto|done].
    - destruct (answers w !! id); [by eauto|done]. }
  rewrite (vote_route_granted t v caller account author) by done. cbn zeta.
  destruct (perform_effects t v caller w l author Hauthor Hl) as (_ & Hn & Hs & _).
  pose proof (perform_users (mkVoteOperation t v caller) w author l Hauthor Hl) as Hu.
  cbn [target operation actor] in Hu.
  destruct (bool_decide (v = remove)); cbn [snd]; [by rewrite Hn, app_nil_r|].
  assert (is_Some (users (perform (mkVoteOperation t v caller) w) !! author)) as [a' Ha'].
  { rewrite Hu, award_lookup, decide_True, Haccount by done. by eexists. }
  rewrite (notify_vote_issued t author (caller, account) v _ a') by done.
  cbn zeta. rewrite Hs, Hup. cbn. by rewrite Hn.
Qed.

(** C6, as the code has it. A vote request that reaches the pipeline
    issues its writes in this order: the increment of the author's
    reputation, when the transition carries one; then the save of the
    target with its ledger and score (for an answer, followed by the
    update of the parent question made by the post-save hook); then the
    notification, unless the action is [remove]. *)
Theorem vote_writes_reputation_then_ledger_then_notification
    t v caller account author author_account l w :
  authenticated w caller account →
  votable_author w t = Some author →
  author ≠ caller →
  votable_ledger w t = Some l →
  users w !! author = Some author_account →
  (String.length (username account) ≤ 50)%nat →
  journal (handle (vote_request t (Bearer caller) (voteType_string v)) w).2 =
  journal w
    ++ reputation_writes author (reputation_change (upvote_points t) v caller l)
    ++ target_writes w t
    ++ notification_writes t v.
Proof.
  intros Hauth Hauthor Hne Hl Haccount Hname.
  rewrite (vote_route_granted t v caller account author) by done. cbn zeta.
  destruct (perform_effects t v caller w l author Hauthor Hl) as (Hj & _ & _ & _).
  pose proof (perform_users (mkVoteOperation t v caller) w author l Hauthor Hl) as Hu.
  cbn [target operation actor] in Hu.
  destruct v; cbn [bool_decide decide_rel notification_writes];
    try (rewrite bool_decide_eq_false_2 by done);
    try (rewrite bool_decide_eq_true_2 by done); cbn [snd].
  3:{ by rewrite Hj, app_nil_r. }
  all: assert (is_Some (users (perform (mkVoteOperation t _ caller) w) !! author)) as [a' Ha']
    by (rewrite Hu, award_lookup, decide_True, Haccount by done; by eexists).
  all: rewrite (notify_vote_issued t author (caller, account) _ _ a') by done.
  all: cbn zeta; destruct (notificationStoreUp _); cbn; rewrite Hj, <- !app_assoc;
    by destruct t.
Qed.

End VoteTrace.

(** ** The vote routes on the example world *)

Lemma example_bob_authenticated : authenticated example_world 2 (mkUser "bob" 0 true).
Proof. split; reflexivity. Qed.

Lemma example_alice_authenticated : authenticated example_world 1 (mkUser "alice" 0 true).
Proof. split; reflexivity. Qed.

Lemma self_vote_is_rejected_witness :
  authenticated example_world 1 (mkUser "alice" 0 true)
  ∧ votable_author example_world (AQuestion 10) = Some 1
  ∧ handle (H:=always_modified) (vote_request (AQuestion 10) (Bearer 1) "down") example_world =
    (json 400 "You cannot vote on your own question", example_world).
Proof.
  split; [exact example_alice_authenticated|]. split; [reflexivity|].
  apply (self_vote_is_rejected (H:=always_modified) (AQuestion 10) down 1
           (mkUser "alice" 0 true) example_world);
    [exact example_alice_authenticated | reflexivity].
Defined.

Lemma up_twice_is_idempotent_witness :
  authenticated example_world 2 (mkUser "bob" 0 true)
  ∧ votable_author example_world (AnAnswer 21) = Some 3
  ∧ 3 ≠ 2
  ∧ let w1 := (handle (H:=always_modified)
                 (vote_request (AnAnswer 21) (Bearer 2) "up") example_world).2 in
    let w2 := (handle (H:=always_modified)
                 (vote_request (AnAnswer 21) (Bearer 2) "up") w1).2 in
    (∃ ups downs, votable_ledger w1 (AnAnswer 21) = Some (ups, downs) ∧ 2 ∈ ups)
    ∧ votable_ledger w2 (AnAnswer 21) = votable_ledger w1 (AnAnswer 21)
    ∧ votable_score w2 (AnAnswer 21) = votable_score w1 (AnAnswer 21)
    ∧ users w2 = users w1.
Proof.
  split; [exact example_bob_authenticated|]. split; [reflexivity|]. split; [lia|].
  apply (up_twice_is_idempotent (H:=always_modified) (AnAnswer 21) 2
           (mkUser "bob" 0 true) 3 example_world);
    [exact example_bob_authenticated | reflexivity | lia].
Defined.

(** C5, as the specification has it, fails: bob has already upvoted the
    question; his second [up] leaves the ledger as it is, and a second
    notification is appended all the same. *)
Lemma repeated_upvote_notifies_again :
  ¬ notifies_iff_ledger_changed (H:=always_modified) (AQuestion 10) 2 up example_world_upvoted.
Proof.
  unfold notifies_iff_ledger_changed. intros [Hnotified _].
  assert (length (notifications
            (handle (H:=always_modified)
               (vote_request (AQuestion 10) (Bearer 2) (voteType_string up))
               example_world_upvoted).2)
          = S (length (notifications example_world_upvoted))) as Hlen by (by vm_compute).
  destruct (Hnotified Hlen) as [_ Hchanged]. apply Hchanged. by vm_compute.
Qed.

Lemma vote_notifies_unless_remove_witness :
  authenticated example_world 2 (mkUser "bob" 0 true)
  ∧ votable_author example_world (AQuestion 10) = Some 1
  ∧ 1 ≠ 2
  ∧ users example_world !! 1 = Some (mkUser "alice" 0 true)
  ∧ (String.length "bob" ≤ 50)%nat
  ∧ notificationStoreUp example_world = true
  ∧ notifications (handle (H:=always_modified)
                     (vote_request (AQuestion 10) (Bearer 2) "up") example_world).2 =
    [vote_notification (AQuestion 10) 1 (2, mkUser "bob" 0 true) up].
Proof.
  split; [exact example_bob_authenticated|]. split; [reflexivity|]. split; [lia|].
  split; [reflexivity|]. split; [cbn; lia|]. split; [reflexivity|].
  apply (vote_notifies_unless_remove (H:=always_modified) (AQuestion 10) up 2
           (mkUser "bob" 0 true) 1 (mkUser "alice" 0 true) example_world);
    [exact example_bob_authenticated | reflexivity | lia | reflexivity | cbn; lia | reflexivity].
Defined.

(** C6, as the specification has it, fails: for bob's first upvote of the
    question the journal reads reputation increment, question save,
    notification save; the reputation write (position 0) is issued before
    the write of the ledger and score (position 1). *)
Lemma reputation_is_written_before_ledger :
  ¬ ledger_persisted_before_reputation (H:=always_modified) (AQuestion 10) 2 up example_world.
Proof.
  unfold ledger_persisted_before_reputation. intros Horder.
  specialize (Horder 0 1 1 5%Z).
  assert (1 < 0) as Habsurd; [|lia].
  apply Horder; by vm_compute.
Qed.

Lemma vote_writes_reputation_then_ledger_then_notification_witness :
  authenticated example_world 2 (mkUser "bob" 0 true)
  ∧ votable_author example_world (AQuestion 10) = Some 1
  ∧ 1 ≠ 2
  ∧ votable_ledger example_world (AQuestion 10) = Some ([], [])
  ∧ users example_world !! 1 = Some (mkUser "alice" 0 true)
  ∧ (String.length "bob" ≤ 50)%nat
  ∧ journal (handle (H:=always_modified)
               (vote_request (AQuestion 10) (Bearer 2) "up") example_world).2 =
    [UserIncReputation 1 5; QuestionSave 10; NotificationSave question_voted].
Proof.
  split; [exact example_bob_authenticated|]. split; [reflexivity|]. split; [lia|].
  split; [reflexivity|]. split; [reflexivity|]. split; [cbn; lia|].
  apply (vote_writes_reputation_then_ledger_then_notification (H:=always_modified)
           (AQuestion 10) up 2 (mkUser "bob" 0 true) 1 (mkUser "alice" 0 true) ([], [])
           example_world);
    [exact example_bob_authenticated | reflexivity | lia | reflexivity | reflexivity | cbn; lia].
Defined.

(** ** The post-save hook of answers *)

Lemma markAsAccepted_eq _id this w :
  Answer.markAsAccepted _id this w =
  Fulfilled (AnswerModel.set_isAccepted true this)
    (set_users
       (alter (λ u, mkUser (username u) (reputation u + 15) (isActive u)) (a_author this))
       (record (UserIncReputation (a_author this) 15)
          (set_questions (alter (Answer.accept_on_question _id) (a_question this))
             (record (QuestionUpdate (a_question this))
                (set_questions (alter (Answer.bump_question (now w)) (a_question this))
                   (record (QuestionUpdate (a_question this))
                      (set_answers (insert _id (AnswerModel.set_isAccepted true this))
                         (record (AnswerSave _id)
                            (world_of (AnswerModel.updateMany_clear_isAccepted
                                         (a_question this) _id w)))))))))).
Proof. reflexivity. Qed.

(** C10. Every save of an answer runs the post-save hook, which adds 1 to
    the [answerCount] of the parent question and sets its [lastActivity]
    to the current date; [upvote], [downvote], [removeVote] and
    [markAsAccepted] each save the answer, so each of them, too, leaves
    the parent question with [answerCount] one higher than before. *)
Theorem saving_an_answer_bumps_answerCount o _id this w q :
  questions w !! a_question this = Some q →
  ∃ a w', run_answer_operation o _id this w = Fulfilled a w'
    ∧ ∃ q', questions w' !! a_question this = Some q'
          ∧ q_answerCount q' = (q_answerCount q + 1)%Z
          ∧ q_lastActivity q' = now w.
Proof.
  intros Hq. destruct o as [|v u|]; cbn [run_answer_operation].
  - rewrite Answer_save_eq. do 2 eexists. split; [reflexivity|].
    cbn. rewrite lookup_alter_eq, Hq. by eexists.
  - rewrite answer_method_eq, Answer_save_eq. do 2 eexists. split; [reflexivity|].
    destruct (award_frame (a_author this)
      (reputation_change 10 v u (a_upvotes this, a_downvotes this)) w)
      as (Hqs & _ & _ & Hnow & _).
    cbn. rewrite Hqs, Hnow, lookup_alter_eq, Hq. by eexists.
  - rewrite markAsAccepted_eq. do 2 eexists. split; [reflexivity|].
    cbn. rewrite !lookup_alter_eq, Hq. by eexists.
Qed.

Lemma saving_an_answer_bumps_answerCount_witness :
  questions example_world !! 10 = Some (mkQuestion 1 0 [] [] 2 false None 0)
  ∧ ∃ a w', run_answer_operation (VoteOnAnswer down 1) 20 (mkAnswer 2 10 0 [] [] false)
              example_world = Fulfilled a w'
    ∧ ∃ q', questions w' !! 10 = Some q'
          ∧ q_answerCount q' = 3%Z
          ∧ q_lastActivity q' = 7.
Proof.
  split; [reflexivity|].
  apply (saving_an_answer_bumps_answerCount (VoteOnAnswer down 1) 20
           (mkAnswer 2 10 0 [] [] false) example_world
           (mkQuestion 1 0 [] [] 2 false None 0)).
  reflexivity.
Defined.

(** ** The accept routes *)

Section AcceptRoutes.
Context `{ChangeTracking}.

Lemma acceptAnswer_eq _id this answerId w :
  Question.acceptAnswer _id this answerId w =
  let w1 := match q_acceptedAnswer this with
            | Some previous =>
                world_of (AnswerModel.findByIdAndUpdate_isAccepted previous false w)
            | None => w
            end in
  let w2 := world_of (AnswerModel.findByIdAndUpdate_isAccepted answerId true w1) in
  Question.save _id (Question.with_accepted answerId this) w2.
Proof.
  unfold Question.acceptAnswer. unfold_promise.
  by destruct (q_acceptedAnswer this).
Qed.

(** The answers router: an accept request by the author of the parent
    question. *)
Lemma accept_route_granted id caller account a q w :
  authenticated w caller account →
  answers w !! id = Some a →
  questions w !! a_question a = Some q →
  q_author q = caller →
  handle (POST_answers_accept (Bearer caller) id) w =
  match notify_accepted id (a_author a) (caller, account)
          (world_of (Answer.markAsAccepted id a w)) with
  | Fulfilled _ w2 => (json 200 "Answer accepted successfully", w2)
  | Rejected e w2 =>
      (mkResponse 500 "Failed to accept answer" None (Some e),
       console_error ("Accept answer error:" +:+ " " +:+ e) w2)
  end.
Proof.
  intros [Hcaller Hactive] Ha Hq Hauthor. cbn [handle].
  unfold answers.accept, authenticate, try_catch.
  rewrite Hcaller, Hactive. cbn [negb].
  unfold AnswerModel.findById, QuestionModel.findById. unfold_promise.
  rewrite Ha, Hq. cbn [fst]. rewrite bool_decide_eq_true_2 by done. cbn [negb].
  rewrite markAsAccepted_eq. cbn [world_of].
  unfold notify_accepted. unfold_promise.
  change (a_author (AnswerModel.set_isAccepted true a)) with (a_author a).
  destruct (UserModel.findById (a_author a) _) as [a0 w0|]; [|done].
  by destruct (Notification.createAnswerAccepted id a0 (caller, account) w0).
Qed.

(** The questions router: an accept request by the author of the
    question, for an answer of that question. *)
Lemma accept_answer_route_granted id answerId caller account q a w :
  authenticated w caller account →
  questions w !! id = Some q →
  q_author q = caller →
  answers w !! answerId = Some a →
  a_question a = id →
  handle (POST_questions_accept_answer (Bearer caller) id answerId) w =
  match notify_accepted answerId (a_author a) (caller, account)
          (world_of (Question.acceptAnswer id q answerId w)) with
  | Fulfilled _ w2 => (json 200 "Answer accepted successfully", w2)
  | Rejected e w2 =>
      (mkResponse 500 "Failed to accept answer" None (Some e),
       console_error ("Accept answer error:" +:+ " " +:+ e) w2)
  end.
Proof.
  intros [Hcaller Hactive] Hq Hauthor Ha Hbelongs. cbn [handle].
  unfold questions.accept_answer, authenticate, try_catch.
  rewrite Hcaller, Hactive. cbn [negb].
  unfold QuestionModel.findById. unfold_promise.
  rewrite Hq. cbn [fst]. rewrite bool_decide_eq_true_2 by done. cbn [negb].
  unfold AnswerModel.findById.
  assert (answers (world_of (Fulfilled (Some q) w)) = answers w) as _ by done.
  cbn beta iota. rewrite Ha. rewrite bool_decide_eq_true_2 by done. cbn [negb].
  rewrite acceptAnswer_eq. cbn zeta. rewrite Question_save_eq. cbn [world_of].
  unfold notify_accepted. unfold_promise.
  destruct (UserModel.findById (a_author a) _) as [a0 w0|]; [|done].
  by destruct (Notification.createAnswerAccepted answerId a0 (caller, account) w0).
Qed.

Lemma notify_accepted_frame answerId author questionAuthor w :
  users (world_of (notify_accepted answerId author questionAuthor w)) = users w
  ∧ questions (world_of (notify_accepted answerId author questionAuthor w)) = questions w
  ∧ answers (world_of (notify_accepted answerId author questionAuthor w)) = answers w
  ∧ console (world_of (notify_accepted answerId author questionAuthor w)) = console w.
Proof.
  unfold notify_accepted, UserModel.findById. unfold_promise.
  apply Notification_save_frame.
Qed.

(** A request either leaves the world as it is, or passed the guards. *)
Lemma handle_cases r w :
  (handle r w).2 = w ∧ status (handle r w).1 ≠ 200
  ∨ ∃ caller account, passes_guards w r caller account.
Proof.
  destruct r as [auth id s|auth id answerId|auth id s|auth id]; cbn [handle];
    unfold questions.vote, questions.accept_answer, answers.vote, answers.accept,
      authenticate, validate_vote, try_catch;
    (destruct auth as [| | |caller]; [by left..|]);
    (destruct (users w !! caller) as [account|] eqn:Hcaller; [|by left]);
    (destruct (isActive account) eqn:Hactive; cbn [negb]; [|by left]).
  - destruct (parse_voteType s) as [v|] eqn:Hs; [|by left].
    unfold QuestionModel.findById. unfold_promise.
    destruct (questions w !! id) as [q|] eqn:Hq; [|by left].
    cbn [fst]. destruct (decide (q_author q = caller)) as [Heq|Hne].
    + rewrite bool_decide_eq_true_2 by done. by left.
    + right. exists caller, account. split; [done|]. split_and!; [done|by eauto|by eauto].
  - unfold QuestionModel.findById, AnswerModel.findById. unfold_promise.
    destruct (questions w !! id) as [q|] eqn:Hq; [|by left].
    cbn [fst]. destruct (decide (q_author q = caller)) as [Heq|Hne].
    2:{ rewrite bool_decide_eq_false_2 by done. by left. }
    rewrite bool_decide_eq_true_2 by done. cbn [negb].
    destruct (answers w !! answerId) as [a|] eqn:Ha; [|by left].
    destruct (decide (a_question a = id)) as [Hb|Hb].
    2:{ rewrite bool_decide_eq_false_2 by done. by left. }
    right. exists caller, account. split; [done|]. split; [done|]. by eauto 10.
  - destruct (parse_voteType s) as [v|] eqn:Hs; [|by left].
    unfold AnswerModel.findById. unfold_promise.
    destruct (answers w !! id) as [a|] eqn:Ha; [|by left].
    cbn [fst]. destruct (decide (a_author a = caller)) as [Heq|Hne].
    + rewrite bool_decide_eq_true_2 by done. by left.
    + right. exists caller, account. split; [done|]. split_and!; [done|by eauto|by eauto].
  - unfold QuestionModel.findById, AnswerModel.findById. unfold_promise.
    destruct (answers w !! id) as [a|] eqn:Ha; [|by left].
    destruct (questions w !! a_question a) as [q|] eqn:Hq; [|by left].
    cbn [fst]. destruct (decide (q_author q = caller)) as [Heq|Hne].
    2:{ rewrite bool_decide_eq_false_2 by done. by left. }
    right. exists caller, account. split; [done|]. split; [done|]. by eauto 10.
Qed.

End AcceptRoutes.

(** ** Requests that pass the guards *)

Lemma parse_voteType_Some s v : parse_voteType s = Some v → s = voteType_string v.
Proof.
  unfold parse_voteType. repeat case_bool_decide; intros [= <-]; by subst.
Qed.

Lemma notify_vote_is_save t author voter v w :
  ∃ n, notify_vote t author voter v w = Notification.save n w.
Proof.
  unfold notify_vote, UserModel.findById. unfold_promise. destruct t; by eexists.
Qed.

Lemma notify_accepted_is_save answerId author questionAuthor w :
  ∃ n, notify_accepted answerId author questionAuthor w = Notification.save n w.
Proof.
  unfold notify_accepted, UserModel.findById. unfold_promise. by eexists.
Qed.

Section GrantedRequests.
Context `{ChangeTracking}.

(** A request that passes the guards runs its model method and then, if it asks for
    one, saves a notification; a rejected save is caught by the route,
    logged, and answered with status 500. *)
Lemma handle_granted r caller account w :
  passes_guards w r caller account →
  ∃ ok n,
    status ok = 200 ∧
    handle r w =
    if bool_decide (wants_notification r) then
      match Notification.save n (primary_effect r caller w) with
      | Fulfilled _ w2 => (ok, w2)
      | Rejected e w2 =>
          (mkResponse 500 (failure_message r) None (Some e),
           console_error (error_label r +:+ " " +:+ e) w2)
      end
    else (ok, primary_effect r caller w).
Proof.
  intros [Hauth Hr].
  destruct r as [auth id s|auth id answerId|auth id s|auth id]; cbn [primary_effect].
  - destruct Hr as (-> & [v Hv] & q & Hq & Hne).
    rewrite Hv. apply parse_voteType_Some in Hv as ->.
    pose proof (vote_route_granted (AQuestion id) v caller account (q_author q) w Hauth) as Hroute.
    cbn [vote_request votable_author] in Hroute. rewrite Hq in Hroute.
    specialize (Hroute eq_refl Hne). cbn zeta in Hroute.
    destruct (notify_vote_is_save (AQuestion id) (q_author q) (caller, account) v
                (perform (mkVoteOperation (AQuestion id) v caller) w)) as [n Hn].
    exists (mkResponse 200 "Vote recorded successfully"
              (votable_score (perform (mkVoteOperation (AQuestion id) v caller) w) (AQuestion id))
              None), n.
    split; [done|]. rewrite Hroute, Hn. by destruct v.
  - destruct Hr as (-> & q & a & Hq & Hauthor & Ha & Hbelongs).
    rewrite (accept_answer_route_granted id answerId caller account q a) by done.
    rewrite Hq.
    destruct (notify_accepted_is_save answerId (a_author a) (caller, account)
                (world_of (Question.acceptAnswer id q answerId w))) as [n Hn].
    exists (json 200 "Answer accepted successfully"), n. split; [done|]. by rewrite Hn.
  - destruct Hr as (-> & [v Hv] & a & Ha & Hne).
    rewrite Hv. apply parse_voteType_Some in Hv as ->.
    pose proof (vote_route_granted (AnAnswer id) v caller account (a_author a) w Hauth) as Hroute.
    cbn [vote_request votable_author] in Hroute. rewrite Ha in Hroute.
    specialize (Hroute eq_refl Hne). cbn zeta in Hroute.
    destruct (notify_vote_is_save (AnAnswer id) (a_author a) (caller, account) v
                (perform (mkVoteOperation (AnAnswer id) v caller) w)) as [n Hn].
    exists (mkResponse 200 "Vote recorded successfully"
              (votable_score (perform (mkVoteOperation (AnAnswer id) v caller) w) (AnAnswer id))
              None), n.
    split; [done|]. rewrite Hroute, Hn. by destruct v.
  - destruct Hr as (-> & a & q & Ha & Hq & Hauthor).
    rewrite (accept_route_granted id caller account a q) by done.
    rewrite Ha.
    destruct (notify_accepted_is_save id (a_author a) (caller, account)
                (world_of (Answer.markAsAccepted id a w))) as [n Hn].
    exists (json 200 "Answer accepted successfully"), n. split; [done|]. by rewrite Hn.
Qed.

(** The model method of a request that passes the guards writes no notification and
    nothing to the console, and leaves the store as it is. *)
Lemma primary_effect_frame r caller account w :
  passes_guards w r caller account →
  notificationStoreUp (primary_effect r caller w) = notificationStoreUp w
  ∧ console (primary_effect r caller w) = console w
  ∧ notifications (primary_effect r caller w) = notifications w.
Proof.
  intros [Hauth Hr].
  destruct r as [auth id s|auth id answerId|auth id s|auth id]; cbn [primary_effect].
  - destruct Hr as (-> & [v Hv] & q & Hq & Hne). rewrite Hv.
    destruct (perform_effects (AQuestion id) v caller w (q_upvotes q, q_downvotes q) (q_author q))
      as (_ & Hn & Hs & Hc); [cbn; by rewrite Hq..|]. done.
  - destruct Hr as (-> & q & a & Hq & Hauthor & Ha & Hbelongs). rewrite Hq.
    rewrite acceptAnswer_eq. cbn zeta. rewrite Question_save_eq.
    by destruct (q_acceptedAnswer q).
  - destruct Hr as (-> & [v Hv] & a & Ha & Hne). rewrite Hv.
    destruct (perform_effects (AnAnswer id) v caller w (a_upvotes a, a_downvotes a) (a_author a))
      as (_ & Hn & Hs & Hc); [cbn; by rewrite Ha..|]. done.
  - destruct Hr as (-> & a & q & Ha & Hq & Hauthor). rewrite Ha.
    by rewrite markAsAccepted_eq.
Qed.

(** Whatever becomes of the notification, a request that passes the guards leaves the
    users, questions and answers as its model method left them. *)
Lemma handle_frame r caller account w :
  passes_guards w r caller account →
  users (handle r w).2 = users (primary_effect r caller w)
  ∧ questions (handle r w).2 = questions (primary_effect r caller w)
  ∧ answers (handle r w).2 = answers (primary_effect r caller w).
Proof.
  intros Hadm. destruct (handle_granted r caller account w Hadm) as (ok & n & _ & ->).
  destruct (bool_decide (wants_notification r)); [|done].
  pose proof (Notification_save_frame n (primary_effect r caller w)) as (Hu & Hq & Ha & _).
  by destruct (Notification.save n (primary_effect r caller w)).
Qed.

(** C7, as the code has it. When the notification of a vote or accept request
    that passed its guards cannot be persisted, the route catches the error, logs
    it on the console and answers with status 500 and the route's failure
    message, the error being reported to the caller; the writes of the
    model method (ledger and score, acceptance, reputation) stay as they
    were committed. *)
Theorem notification_failure_fails_the_request r caller account w :
  passes_guards w r caller account →
  wants_notification r →
  notificationStoreUp w = false →
  status (handle r w).1 = 500
  ∧ message (handle r w).1 = failure_message r
  ∧ is_Some (error (handle r w).1)
  ∧ (∃ line, console (handle r w).2 = console w ++ [line])
  ∧ users (handle r w).2 = users (primary_effect r caller w)
  ∧ questions (handle r w).2 = questions (primary_effect r caller w)
  ∧ answers (handle r w).2 = answers (primary_effect r caller w).
Proof.
  intros Hadm Hwants Hdown.
  destruct (handle_frame r caller account w Hadm) as (Hu & Hq & Ha).
  split_and!; [| | | |done..];
    destruct (handle_granted r caller account w Hadm) as (ok & n & _ & ->);
    rewrite bool_decide_eq_true_2 by done;
    destruct (primary_effect_frame r caller account w Hadm) as (Hs & Hc & _);
    destruct (Notification_save_store_down n (primary_effect r caller w)) as (e & w2 & Hsave);
    [congruence| |congruence| |congruence| |congruence|];
    pose proof (Notification_save_frame n (primary_effect r caller w)) as (_ & _ & _ & Hc');
    rewrite Hsave in *; cbn in *; [done|done|by eauto|].
  exists (error_label r +:+ " " +:+ e). by rewrite Hc', Hc.
Qed.

End GrantedRequests.

(** ** Acceptance keeps one accepted answer per question *)

Lemma set_isAccepted_question b a : a_question (AnswerModel.set_isAccepted b a) = a_question a.
Proof. reflexivity. Qed.

Section Acceptance.
Context `{ChangeTracking}.

(** The properties of acceptance read the questions and answers only. *)
Lemma acceptance_consistent_ext w1 w2 :
  questions w1 = questions w2 → answers w1 = answers w2 →
  acceptance_consistent w2 → acceptance_consistent w1.
Proof. unfold acceptance_consistent. intros -> ->. done. Qed.

Lemma markAsAccepted_answers id a w x d :
  answers (world_of (Answer.markAsAccepted id a w)) !! x = Some d →
  x = id ∧ d = AnswerModel.set_isAccepted true a
  ∨ x ≠ id ∧ ∃ d0, answers w !! x = Some d0
      ∧ d = if bool_decide (a_question d0 = a_question a)
            then AnswerModel.set_isAccepted false d0 else d0.
Proof.
  rewrite markAsAccepted_eq. cbn. rewrite lookup_insert.
  destruct (decide (id = x)) as [->|Hne].
  - intros [= <-]. by left.
  - rewrite map_lookup_imap. destruct (answers w !! x) as [d0|]; [|done].
    cbn. intros [= <-]. right. split; [done|]. exists d0. split; [done|].
    destruct (decide (a_question d0 = a_question a)) as [Heq|Hneq].
    + rewrite !bool_decide_eq_true_2; [done..|]. split; congruence.
    + rewrite !bool_decide_eq_false_2; [done..|]. tauto.
Qed.

Lemma markAsAccepted_questions id a w x :
  questions (world_of (Answer.markAsAccepted id a w)) !! x =
  if decide (a_question a = x)
  then (λ q, Answer.accept_on_question id (Answer.bump_question (now w) q)) <$> questions w !! x
  else questions w !! x.
Proof.
  rewrite markAsAccepted_eq. cbn [world_of questions set_users set_questions record set_answers].
  rewrite !lookup_alter.
  destruct (decide (a_question a = x)) as [<-|]; [|reflexivity].
  rewrite decide_True by done. cbn.
  by destruct (questions w !! a_question a).
Qed.

Lemma acceptAnswer_answers id q answerId w :
  answers (world_of (Question.acceptAnswer id q answerId w)) =
  alter (AnswerModel.set_isAccepted true) answerId (cleared_previous q (answers w)).
Proof.
  rewrite acceptAnswer_eq. cbn zeta. rewrite Question_save_eq.
  unfold cleared_previous. by destruct (q_acceptedAnswer q).
Qed.

Lemma acceptAnswer_questions id q answerId w :
  ∃ q', q_acceptedAnswer q' = Some answerId
      ∧ questions (world_of (Question.acceptAnswer id q answerId w)) = <[id := q']> (questions w).
Proof.
  rewrite acceptAnswer_eq. cbn zeta. rewrite Question_save_eq.
  destruct (q_acceptedAnswer q); (eexists; split; [|reflexivity]);
    by rewrite (proj2 (proj2 (proj2 (proj2 (proj2 (proj2 (question_saved_fields _ _ _))))))).
Qed.

Lemma cleared_previous_lookup q m x d :
  cleared_previous q m !! x = Some d →
  ∃ d0, m !! x = Some d0 ∧ a_question d = a_question d0
      ∧ (a_isAccepted d = true → a_isAccepted d0 = true ∧ q_acceptedAnswer q ≠ Some x ∧ d = d0).
Proof.
  unfold cleared_previous. destruct (q_acceptedAnswer q) as [p|].
  - rewrite lookup_alter. destruct (decide (p = x)) as [->|Hne].
    + destruct (m !! x) as [d0|]; [|done]. cbn. intros [= <-]. exists d0. by split_and!.
    + intros Hd. exists d. split_and!; [done..|]. intros ?. split_and!; [done| congruence |done].
  - intros Hd. exists d. by split_and!.
Qed.

(** The answers router. *)
Lemma accept_keeps_one_accepted id a q w :
  answers w !! id = Some a →
  questions w !! a_question a = Some q →
  acceptance_consistent w →
  let w1 := world_of (Answer.markAsAccepted id a w) in
  at_most_one_accepted w1 (a_question a)
  ∧ accepted_answer_is w1 (a_question a) id
  ∧ acceptance_consistent w1.
Proof.
  intros Ha Hq Hinv. cbn zeta.
  assert (∀ x d, answers (world_of (Answer.markAsAccepted id a w)) !! x = Some d →
                 a_question d = a_question a → a_isAccepted d = true → x = id) as Honly.
  { intros x d [[-> _]|(Hne & d0 & Hd0 & ->)]%markAsAccepted_answers Hsame Hacc; [done|].
    destruct (decide (a_question d0 = a_question a)) as [Heq|Hneq].
    - by rewrite bool_decide_eq_true_2 in Hacc.
    - by rewrite bool_decide_eq_false_2 in Hsame. }
  split_and!.
  - intros x1 x2 d1 d2 H1 H2 Hq1 Hq2 Hacc1 Hacc2.
    by rewrite (Honly x1 d1), (Honly x2 d2).
  - exists (Answer.accept_on_question id (Answer.bump_question (now w) q)),
           (AnswerModel.set_isAccepted true a).
    split_and!; [|done| |done..].
    + by rewrite markAsAccepted_questions, decide_True, Hq.
    + rewrite markAsAccepted_eq. cbn. by rewrite lookup_insert_eq.
  - intros x d q' Hd Hacc Hq'.
    destruct (decide (a_question d = a_question a)) as [Heq|Hneq].
    + rewrite (Honly x d) by done.
      rewrite markAsAccepted_questions, Heq, decide_True, Hq in Hq' by done.
      by injection Hq' as <-.
    + rewrite markAsAccepted_questions, decide_False in Hq' by done.
      apply markAsAccepted_answers in Hd as [[-> ->]|(Hne & d0 & Hd0 & ->)]; [done|].
      destruct (bool_decide (a_question d0 = a_question a)); [done|].
      by apply (Hinv x d0 q').
Qed.

(** The questions router. *)
Lemma accept_answer_keeps_one_accepted id q answerId a w :
  questions w !! id = Some q →
  answers w !! answerId = Some a →
  a_question a = id →
  acceptance_consistent w →
  let w1 := world_of (Question.acceptAnswer id q answerId w) in
  at_most_one_accepted w1 id
  ∧ accepted_answer_is w1 id answerId
  ∧ acceptance_consistent w1.
Proof.
  intros Hq Ha Hbelongs Hinv. cbn zeta.
  destruct (acceptAnswer_questions id q answerId w) as (q' & Hq' & Hqs).
  pose proof (acceptAnswer_answers id q answerId w) as Has.
  set (w1 := world_of (Question.acceptAnswer id q answerId w)) in *.
  assert (∀ x d, answers w1 !! x = Some d →
                 x ≠ answerId → a_isAccepted d = true →
                 answers w !! x = Some d ∧ a_question d ≠ id) as Hother.
  { intros x d Hd Hne Hacc. rewrite Has, lookup_alter_ne in Hd by done.
    apply cleared_previous_lookup in Hd as (d0 & Hd0 & _ & Himp).
    destruct (Himp Hacc) as (Hacc0 & Hprev & ->). split; [done|].
    intros Hqd. apply Hprev. apply (Hinv x d0 q); [done..|]. by rewrite Hqd. }
  assert (∀ x d, answers w1 !! x = Some d →
                 a_question d = id → a_isAccepted d = true → x = answerId) as Honly.
  { intros x d Hd Hsame Hacc. destruct (decide (x = answerId)) as [|Hne]; [done|].
    by destruct (Hother x d Hd Hne Hacc). }
  split_and!.
  - intros x1 x2 d1 d2 H1 H2 Hq1 Hq2 Hacc1 Hacc2.
    by rewrite (Honly x1 d1), (Honly x2 d2).
  - assert (∃ d, cleared_previous q (answers w) !! answerId = Some d
                 ∧ a_question d = id) as (d & Hd & Hqd).
    { unfold cleared_previous. destruct (q_acceptedAnswer q) as [p|]; [|by eauto].
      rewrite lookup_alter. destruct (decide (p = answerId)) as [->|]; rewrite Ha; cbn; by eauto. }
    exists q', (AnswerModel.set_isAccepted true d).
    split_and!; [|done| |done..].
    + by rewrite Hqs, lookup_insert_eq.
    + by rewrite Has, lookup_alter_eq, Hd.
  - intros x d q0 Hd Hacc Hq0.
    destruct (decide (x = answerId)) as [->|Hne].
    + assert (a_question d = id) as Hqd.
      { rewrite Has, lookup_alter_eq in Hd.
        destruct (cleared_previous q (answers w) !! answerId) as [d1|] eqn:Hd1; [|done].
        injection Hd as <-. apply cleared_previous_lookup in Hd1 as (d0 & Hd0 & Hq1 & _).
        rewrite set_isAccepted_question, Hq1. congruence. }
      rewrite Hqd, Hqs, lookup_insert_eq in Hq0. by injection Hq0 as <-.
    + destruct (Hother x d Hd Hne Hacc) as [Hd0 Hqd].
      rewrite Hqs, lookup_insert_ne in Hq0 by done.
      by apply (Hinv x d q0).
Qed.

(** C9. After every successful acceptance, through the answers router or
    through the questions router, at most one answer of the question is
    marked accepted, the question's [acceptedAnswer] is the id of that
    answer, which is the one just accepted, and every accepted answer of
    the database is still the one its question refers to. *)
Theorem acceptance_keeps_one_accepted_answer r w qid aid :
  acceptance_consistent w →
  acceptance_of w r = Some (qid, aid) →
  status (handle r w).1 = 200 →
  at_most_one_accepted (handle r w).2 qid
  ∧ accepted_answer_is (handle r w).2 qid aid
  ∧ acceptance_consistent (handle r w).2.
Proof.
  intros Hinv Hof Hok.
  destruct (handle_cases r w) as [[_ Hno]|(caller & account & Hadm)]; [done|].
  destruct (handle_frame r caller account w Hadm) as (_ & Hqs & Has).
  unfold at_most_one_accepted, accepted_answer_is, acceptance_consistent.
  rewrite Hqs, Has. clear Hqs Has Hok.
  destruct Hadm as [Hauth Hr].
  destruct r as [auth id s|auth id answerId|auth id s|auth id]; cbn in Hof; try done.
  - injection Hof as <- <-.
    destruct Hr as (-> & q & a & Hq & Hauthor & Ha & Hbelongs).
    cbn [primary_effect]. rewrite Hq.
    by apply (accept_answer_keeps_one_accepted id q answerId a w).
  - destruct Hr as (-> & a & q & Ha & Hq & Hauthor).
    rewrite Ha in Hof. injection Hof as <- <-.
    cbn [primary_effect]. rewrite Ha.
    by apply (accept_keeps_one_accepted id a q w).
Qed.

End Acceptance.

(** ** The accept routes and notification failures on the example world *)

Lemma example_world_acceptance_consistent : acceptance_consistent example_world.
Proof.
  intros aid a q Ha Hacc _. cbn in Ha.
  apply lookup_insert_Some in Ha as [[_ <-]|[_ Ha]]; [done|].
  by apply lookup_singleton_Some in Ha as [_ <-].
Qed.

Lemma acceptance_keeps_one_accepted_answer_witness :
  acceptance_consistent example_world
  ∧ acceptance_of example_world (POST_answers_accept (Bearer 1) 20) = Some (10, 20)
  ∧ status (handle (H:=always_modified) (POST_answers_accept (Bearer 1) 20) example_world).1 = 200
  ∧ at_most_one_accepted
      (handle (H:=always_modified) (POST_answers_accept (Bearer 1) 20) example_world).2 10
  ∧ accepted_answer_is
      (handle (H:=always_modified) (POST_answers_accept (Bearer 1) 20) example_world).2 10 20
  ∧ acceptance_consistent
      (handle (H:=always_modified) (POST_answers_accept (Bearer 1) 20) example_world).2.
Proof.
  split; [exact example_world_acceptance_consistent|].
  split; [reflexivity|]. split; [by vm_compute|].
  apply (acceptance_keeps_one_accepted_answer (H:=always_modified)
           (POST_answers_accept (Bearer 1) 20) example_world 10 20);
    [exact example_world_acceptance_consistent | reflexivity | by vm_compute].
Defined.

Lemma example_bob_granted :
  passes_guards example_world_store_down (vote_request (AQuestion 10) (Bearer 2) "up")
    2 (mkUser "bob" 0 true).
Proof.
  split; [by split|]. cbn. split; [done|]. split; [by eexists|].
  eexists. split; [reflexivity|]. cbn. lia.
Qed.

(** C7, as the specification has it, fails: while the notifications
    collection rejects writes, bob's upvote of alice's question is
    answered with status 500, not with success. *)
Lemma vote_fails_when_notification_fails :
  ¬ succeeds_when_notification_fails (H:=always_modified)
      (vote_request (AQuestion 10) (Bearer 2) "up") example_world_store_down.
Proof.
  unfold succeeds_when_notification_fails. intros Hclaim.
  specialize (Hclaim eq_refl). vm_compute in Hclaim. discriminate Hclaim.
Qed.

Lemma notification_failure_fails_the_request_witness :
  passes_guards example_world_store_down (vote_request (AQuestion 10) (Bearer 2) "up")
    2 (mkUser "bob" 0 true)
  ∧ wants_notification (vote_request (AQuestion 10) (Bearer 2) "up")
  ∧ notificationStoreUp example_world_store_down = false
  ∧ status (handle (H:=always_modified) (vote_request (AQuestion 10) (Bearer 2) "up")
              example_world_store_down).1 = 500.
Proof.
  split; [exact example_bob_granted|]. split; [by cbn|]. split; [reflexivity|].
  apply (notification_failure_fails_the_request (H:=always_modified)
           (vote_request (AQuestion 10) (Bearer 2) "up") 2 (mkUser "bob" 0 true)
           example_world_store_down);
    [exact example_bob_granted | by cbn | reflexivity].
Defined.

(** In that run the vote itself is committed: bob is an upvoter, the
    score is 1 and alice has her 5 points. *)
Example failed_notification_leaves_vote_committed :
  let w' := (handle (H:=always_modified) (vote_request (AQuestion 10) (Bearer 2) "up")
               example_world_store_down).2 in
  votable_ledger w' (AQuestion 10) = Some ([2], [])
  ∧ votable_score w' (AQuestion 10) = Some 1%Z
  ∧ reputation <$> users w' !! 1 = Some 5%Z
  ∧ notifications w' = [].
Proof. by vm_compute. Qed.

Section AcceptReputation.
Context `{ChangeTracking}.

(** The questions router never writes a user. *)
Lemma accept_answer_route_keeps_users auth id answerId w :
  users (handle (POST_questions_accept_answer auth id answerId) w).2 = users w.
Proof.
  destruct (handle_cases (POST_questions_accept_answer auth id answerId) w)
    as [[-> _]|(caller & account & Hadm)]; [done|].
  destruct (handle_frame _ caller account w Hadm) as (-> & _).
  destruct Hadm as [_ (-> & q & a & Hq & _)]. cbn [primary_effect]. rewrite Hq.
  rewrite acceptAnswer_eq. cbn zeta. rewrite Question_save_eq.
  by destruct (q_acceptedAnswer q).
Qed.

(** The answers router awards 15 points to the author of the answer each
    time the request passes the guards, whether or not the answer was accepted before. *)
Lemma accept_route_awards_15 id caller account a author_account w :
  passes_guards w (POST_answers_accept (Bearer caller) id) caller account →
  answers w !! id = Some a →
  users w !! a_author a = Some author_account →
  reputation <$> users (handle (POST_answers_accept (Bearer caller) id) w).2 !! a_author a =
  Some (reputation author_account + 15)%Z.
Proof.
  intros Hadm Ha Hacc.
  destruct (handle_frame _ caller account w Hadm) as (-> & _).
  cbn [primary_effect]. rewrite Ha, markAsAccepted_eq. cbn.
  by rewrite lookup_alter_eq, Hacc.
Qed.

End AcceptReputation.

(** C8, on the code. The accept route of the questions router
    ([POST /questions/:id/accept-answer]) never changes a reputation: when
    alice accepts bob's answer through it the request succeeds and the
    answer is accepted, but bob keeps his 0 points, whereas the same
    acceptance through the answers router gives him 15. *)
Theorem question_scoped_accept_awards_no_reputation :
  (∀ (H : ChangeTracking) auth id answerId w,
     users (handle (POST_questions_accept_answer auth id answerId) w).2 = users w)
  ∧ (let r := handle (H:=always_modified) (POST_questions_accept_answer (Bearer 1) 10 20)
                example_world in
     status r.1 = 200
     ∧ a_isAccepted <$> answers r.2 !! 20 = Some true
     ∧ q_acceptedAnswer <$> questions r.2 !! 10 = Some (Some 20)
     ∧ reputation <$> users r.2 !! 2 = Some 0%Z)
  ∧ (let r := handle (H:=always_modified) (POST_answers_accept (Bearer 1) 20) example_world in
     status r.1 = 200
     ∧ reputation <$> users r.2 !! 2 = Some 15%Z).
Proof.
  split; [intros; apply accept_answer_route_keeps_users|]. by vm_compute.
Qed.

(** ** Invariants of the server *)

Lemma fresh_ledger_wf : ledger_wf 0 [] [].
Proof.
  split; [apply NoDup_nil_2|]. split; [apply NoDup_nil_2|]. split; [done|].
  unfold voters. cbn. set_solver.
Qed.

Lemma every_votable_ext P w1 w2 :
  questions w1 = questions w2 → answers w1 = answers w2 →
  every_votable P w2 → every_votable P w1.
Proof. unfold every_votable. by intros -> ->. Qed.

Lemma cleared_previous_ledger q m x d :
  cleared_previous q m !! x = Some d →
  ∃ d0, m !! x = Some d0 ∧ a_votes d = a_votes d0
      ∧ a_upvotes d = a_upvotes d0 ∧ a_downvotes d = a_downvotes d0.
Proof.
  unfold cleared_previous. destruct (q_acceptedAnswer q) as [p|]; [|by eauto].
  intros [(_ & d0 & Hd0 & ->)|[_ Hd]]%lookup_alter_Some; by eauto.
Qed.

Section ServerInvariants.
Context `{ChangeTracking}.

Lemma markAsAccepted_keeps_ledgers_wf id a w :
  answers w !! id = Some a →
  every_votable ledger_wf w →
  every_votable ledger_wf (world_of (Answer.markAsAccepted id a w)).
Proof.
  intros Ha [Hqs Has]. split.
  - intros x q'. rewrite markAsAccepted_questions.
    destruct (decide (a_question a = x)) as [<-|]; [|by apply Hqs].
    destruct (questions w !! a_question a) as [q|] eqn:Hq; [|done].
    intros [= <-]. by apply (Hqs _ _ Hq).
  - intros x d [[-> ->]|(Hne & d0 & Hd0 & ->)]%markAsAccepted_answers.
    + by apply (Has _ _ Ha).
    + destruct (bool_decide _); by apply (Has _ _ Hd0).
Qed.

Lemma acceptAnswer_keeps_ledgers_wf id q answerId w :
  questions w !! id = Some q →
  every_votable ledger_wf w →
  every_votable ledger_wf (world_of (Question.acceptAnswer id q answerId w)).
Proof.
  intros Hq [Hqs Has]. split.
  - rewrite acceptAnswer_eq. cbn zeta. rewrite Question_save_eq.
    assert (∀ w2, questions w2 = questions w →
      map_Forall (λ _ q0, ledger_wf (q_votes q0) (q_upvotes q0) (q_downvotes q0))
        (questions (world_of (Fulfilled
           (question_saved w2 id (Question.with_accepted answerId q))
           (set_questions (insert id (question_saved w2 id (Question.with_accepted answerId q)))
              (record (QuestionSave id) w2)))))) as Hgen.
    { intros w2 Hw2. cbn. rewrite Hw2. apply map_Forall_insert_2; [|done].
      destruct (question_saved_fields w2 id (Question.with_accepted answerId q))
        as (_ & -> & -> & -> & _).
      by apply (Hqs _ _ Hq). }
    apply Hgen. by destruct (q_acceptedAnswer q).
  - rewrite acceptAnswer_answers. intros x d.
    intros [(<- & d1 & Hd1 & ->)|[_ Hd]]%lookup_alter_Some.
    + apply cleared_previous_ledger in Hd1 as (d0 & Hd0 & Hv & Hu & Hdn).
      cbn. rewrite Hv, Hu, Hdn. by apply (Has _ _ Hd0).
    + apply cleared_previous_ledger in Hd as (d0 & Hd0 & Hv & Hu & Hdn).
      rewrite Hv, Hu, Hdn. by apply (Has _ _ Hd0).
Qed.

(** No request breaks the ledgers. *)
Lemma handle_keeps_ledgers_wf r w :
  every_votable ledger_wf w → every_votable ledger_wf (handle r w).2.
Proof.
  intros Hw.
  destruct (handle_cases r w) as [[-> _]|(caller & account & Hgranted)]; [done|].
  destruct (handle_frame r caller account w Hgranted) as (_ & Hqs & Has).
  apply (every_votable_ext _ _ _ Hqs Has). clear Hqs Has.
  destruct Hgranted as [_ Hr].
  destruct r as [auth id s|auth id answerId|auth id s|auth id]; cbn [primary_effect].
  - destruct Hr as (_ & [v ->] & _). by apply perform_keeps_ledgers_wf.
  - destruct Hr as (_ & q & a & Hq & _). rewrite Hq. by apply acceptAnswer_keeps_ledgers_wf.
  - destruct Hr as (_ & [v ->] & _). by apply perform_keeps_ledgers_wf.
  - destruct Hr as (_ & a & q & Ha & _). rewrite Ha. by apply markAsAccepted_keeps_ledgers_wf.
Qed.

(** Along any sequence of vote and accept requests, every stored score
    is the number of upvoters minus the number of downvoters, and the two
    sets are disjoint. *)
Lemma serve_keeps_score_and_disjointness rs w :
  every_votable ledger_wf w →
  Forall (every_votable score_matches_ledger) (serve rs w).
Proof.
  intros Hw. apply (Forall_impl (every_votable ledger_wf)).
  - revert w Hw. induction rs as [|r rs IH]; intros w Hw; cbn; [constructor|].
    pose proof (handle_keeps_ledgers_wf r w Hw). constructor; auto.
  - intros w' [Hq Ha]. split.
    + eapply map_Forall_impl; [exact Hq|]. intros ??. apply ledger_wf_consistent.
    + eapply map_Forall_impl; [exact Ha|]. intros ??. apply ledger_wf_consistent.
Qed.

Lemma perform_keeps_acceptance_consistent op w :
  acceptance_consistent w → acceptance_consistent (perform op w).
Proof.
  intros Hinv. destruct op as [[id|id] v u].
  - destruct (questions w !! id) as [this|] eqn:E.
    2:{ rewrite perform_missing; [done|]. cbn. by rewrite E. }
    rewrite (perform_question _ this) by done. cbn zeta.
    set (w1 := award _ _ w).
    assert (questions w1 = questions w ∧ answers w1 = answers w) as [Hqs Has].
    { subst w1. split; apply award_frame. }
    intros x d q'. cbn. rewrite Hqs, Has. intros Hd Hacc.
    rewrite lookup_insert. destruct (decide (id = a_question d)) as [->|]; [|by apply Hinv].
    intros [= <-].
    rewrite (proj2 (proj2 (proj2 (proj2 (proj2 (proj2 (question_saved_fields _ _ _))))))).
    by apply (Hinv x d this).
  - destruct (answers w !! id) as [this|] eqn:E.
    2:{ rewrite perform_missing; [done|]. cbn. by rewrite E. }
    destruct (perform_answer_frame id this v u w E) as (t & Hqs & Has).
    intros x d q'. rewrite Hqs, Has, lookup_insert.
    destruct (decide (id = x)) as [->|].
    + intros [= <-]. cbn. intros Hacc.
      intros [(_ & q0 & Hq0 & ->)|[_ Hq0]]%lookup_alter_Some; cbn in *; by eapply (Hinv x this).
    + intros Hd Hacc.
      intros [(_ & q0 & Hq0 & ->)|[_ Hq0]]%lookup_alter_Some; cbn in *; by eapply (Hinv x d).
Qed.

(** No request breaks the agreement between accepted answers and the
    references of their questions. *)
Lemma handle_keeps_acceptance_consistent r w :
  acceptance_consistent w → acceptance_consistent (handle r w).2.
Proof.
  intros Hinv.
  destruct (handle_cases r w) as [[-> _]|(caller & account & Hgranted)]; [done|].
  destruct (handle_frame r caller account w Hgranted) as (_ & Hqs & Has).
  apply (acceptance_consistent_ext _ _ Hqs Has). clear Hqs Has.
  destruct Hgranted as [_ Hr].
  destruct r as [auth id s|auth id answerId|auth id s|auth id]; cbn [primary_effect].
  - destruct Hr as (_ & [v ->] & _). by apply perform_keeps_acceptance_consistent.
  - destruct Hr as (_ & q & a & Hq & _ & Ha & Hb). rewrite Hq.
    by apply (accept_answer_keeps_one_accepted id q answerId a w).
  - destruct Hr as (_ & [v ->] & _). by apply perform_keeps_acceptance_consistent.
  - destruct Hr as (_ & a & q & Ha & Hq & _). rewrite Ha.
    by apply (accept_keeps_one_accepted id a q w).
Qed.

Lemma serve_keeps_acceptance_consistent rs w :
  acceptance_consistent w → Forall acceptance_consistent (serve rs w).
Proof.
  revert w. induction rs as [|r rs IH]; intros w Hw; cbn; [constructor|].
  pose proof (handle_keeps_acceptance_consistent r w Hw). constructor; auto.
Qed.

End ServerInvariants.

(** ** The answer count along the routes *)

Section AnswerCount.
Context `{ChangeTracking}.

(** Through the answers router, a vote on an answer and an acceptance
    each add 1 to the [answerCount] of the parent question. *)
Lemma answers_router_bumps_answerCount r caller account id a q w :
  passes_guards w r caller account →
  (r = POST_answers_accept (Bearer caller) id
   ∨ ∃ v, r = POST_answers_vote (Bearer caller) id (voteType_string v)) →
  answers w !! id = Some a →
  questions w !! a_question a = Some q →
  q_answerCount <$> questions (handle r w).2 !! a_question a = Some (q_answerCount q + 1)%Z.
Proof.
  intros Hgranted Hr Ha Hq.
  destruct (handle_frame r caller account w Hgranted) as (_ & -> & _).
  destruct Hr as [->|[v ->]]; cbn [primary_effect].
  - rewrite Ha, markAsAccepted_questions, decide_True, Hq by done. done.
  - rewrite parse_voteType_string.
    destruct (perform_answer_frame id a v caller w Ha) as (t & -> & _).
    by rewrite lookup_alter_eq, Hq.
Qed.

(** Through the questions router an acceptance saves no answer, and the
    [answerCount] stays as it is. *)
Lemma accept_answer_route_keeps_answerCount auth id answerId w x :
  q_answerCount <$> questions (handle (POST_questions_accept_answer auth id answerId) w).2 !! x =
  q_answerCount <$> questions w !! x.
Proof.
  destruct (handle_cases (POST_questions_accept_answer auth id answerId) w)
    as [[-> _]|(caller & account & Hgranted)]; [done|].
  destruct (handle_frame _ caller account w Hgranted) as (_ & -> & _).
  destruct Hgranted as [_ (-> & q & a & Hq & _)]. cbn [primary_effect]. rewrite Hq.
  rewrite acceptAnswer_eq. cbn zeta. rewrite Question_save_eq.
  assert (∀ w2, questions w2 = questions w →
    q_answerCount <$>
      questions (world_of (Fulfilled
        (question_saved w2 id (Question.with_accepted answerId q))
        (set_questions (insert id (question_saved w2 id (Question.with_accepted answerId q)))
           (record (QuestionSave id) w2)))) !! x =
    q_answerCount <$> questions w !! x) as Hgen.
  { intros w2 Hw2. cbn. rewrite Hw2, lookup_insert.
    destruct (decide (id = x)) as [<-|]; [|done]. rewrite Hq. cbn.
    by rewrite (proj1 (proj2 (proj2 (proj2 (proj2 (question_saved_fields _ _ _)))))). }
  apply Hgen. by destruct (q_acceptedAnswer q).
Qed.

End AnswerCount.

(** ** The scenarios of the specification, run on the example world *)

(** bob upvotes alice's question, upvotes it again, then removes his
    vote: the score goes 1, 1, 0 and alice's reputation 5, 5, 0; the
    repeated upvote is notified like the first, the removal is not. *)
Example scenario_votes_on_a_question :
  let ws := serve (H:=always_modified)
              [ POST_questions_vote (Bearer 2) 10 "up";
                POST_questions_vote (Bearer 2) 10 "up";
                POST_questions_vote (Bearer 2) 10 "remove" ] example_world in
  (λ w, votable_score w (AQuestion 10)) <$> ws = [Some 1; Some 1; Some 0]%Z
  ∧ (λ w, reputation <$> users w !! 1) <$> ws = [Some 5; Some 5; Some 0]%Z
  ∧ (λ w, length (notifications w)) <$> ws = [1; 2; 2].
Proof. by vm_compute. Qed.

(** alice accepts bob's answer, then carol's, through the answers router:
    both authors get 15 points, only carol's answer stays accepted and the
    question refers to it; each acceptance saved an answer, so the
    question's [answerCount] went from 2 to 4. *)
Example scenario_accepting_two_answers :
  let ws := serve (H:=always_modified)
              [ POST_answers_accept (Bearer 1) 20;
                POST_answers_accept (Bearer 1) 21 ] example_world in
  (λ w, a_isAccepted <$> answers w !! 20) <$> ws = [Some true; Some false]
  ∧ (λ w, a_isAccepted <$> answers w !! 21) <$> ws = [Some false; Some true]
  ∧ (λ w, q_acceptedAnswer <$> questions w !! 10) <$> ws = [Some (Some 20); Some (Some 21)]
  ∧ (λ w, reputation <$> users w !! 2) <$> ws = [Some 15; Some 15]%Z
  ∧ (λ w, reputation <$> users w !! 3) <$> ws = [Some 0; Some 15]%Z
  ∧ (λ w, q_answerCount <$> questions w !! 10) <$> ws = [Some 3; Some 4]%Z.
Proof. by vm_compute. Qed.

(** Accepting bob's answer twice through the answers router awards him
    15 points each time. *)
Example scenario_accepting_the_same_answer_twice :
  let ws := serve (H:=always_modified)
              [ POST_answers_accept (Bearer 1) 20;
                POST_answers_accept (Bearer 1) 20 ] example_world in
  (λ w, reputation <$> users w !! 2) <$> ws = [Some 15; Some 30]%Z.
Proof. by vm_compute. Qed.

(** * Properties of the further code *)

(** ** The pager *)

Lemma seqZ_sorted m n : StronglySorted Z.lt (seqZ m n).
Proof.
  destruct (decide (n ≤ 0)%Z) as [Hn|Hn]; [rewrite seqZ_nil by done; constructor|].
  rewrite <- (Z2Nat.id n) by lia. generalize (Z.to_nat n) as k. clear n Hn.
  intros k. revert m. induction k as [|k IH]; intros m; [constructor|].
  rewrite seqZ_cons by lia. rewrite Nat2Z.inj_succ, Z.pred_succ. constructor; [apply IH|].
  apply Forall_seqZ. lia.
Qed.

Lemma page_numbers_app l1 l2 :
  Pagination.page_numbers (l1 ++ l2) = Pagination.page_numbers l1 ++ Pagination.page_numbers l2.
Proof. unfold Pagination.page_numbers. apply omap_app. Qed.

Lemma page_numbers_fmap l : Pagination.page_numbers (Pagination.PageNumber <$> l) = l.
Proof. induction l as [|x l IH]; [done|]. cbn. by f_equal. Qed.

(** The numbers shown are 1, the window around the current page, and the
    last page. *)
Lemma page_numbers_getVisiblePages currentPage totalPages :
  (2 ≤ totalPages)%Z →
  Pagination.page_numbers (Pagination.getVisiblePages currentPage totalPages) =
  1%Z :: seqZ (Z.max 2 (currentPage - 2))
           (Z.min (totalPages - 1) (currentPage + 2) - Z.max 2 (currentPage - 2) + 1)
      ++ [totalPages].
Proof.
  intros Htotal. unfold Pagination.getVisiblePages. cbn zeta.
  assert ((1 <? totalPages)%Z = true) as -> by (apply Z.ltb_lt; lia).
  destruct (2 <? currentPage - 2)%Z, (currentPage + 2 <? totalPages - 1)%Z;
    rewrite !page_numbers_app, page_numbers_fmap; reflexivity.
Qed.

(** X1. For a current page between 1 and the number of pages (at least
    2), the pager shows page [p] exactly when [p] is the first page, the
    last page, or an existing page at most two away from the current
    one. *)
Theorem getVisiblePages_shows currentPage totalPages p :
  (1 ≤ currentPage ≤ totalPages)%Z →
  (2 ≤ totalPages)%Z →
  Pagination.PageNumber p ∈ Pagination.getVisiblePages currentPage totalPages
  ↔ p = 1%Z ∨ p = totalPages
    ∨ (1 ≤ p ≤ totalPages ∧ currentPage - 2 ≤ p ≤ currentPage + 2)%Z.
Proof.
  intros Hcur Htotal.
  assert (Pagination.PageNumber p ∈ Pagination.getVisiblePages currentPage totalPages
          ↔ p ∈ Pagination.page_numbers (Pagination.getVisiblePages currentPage totalPages))
    as ->.
  { unfold Pagination.page_numbers. rewrite list_elem_of_omap. split.
    - intros Hin. by exists (Pagination.PageNumber p).
    - intros ([n|] & Hin & Heq); [|done]. by injection Heq as ->. }
  rewrite page_numbers_getVisiblePages by done.
  rewrite elem_of_cons, elem_of_app, elem_of_seqZ, list_elem_of_singleton. lia.
Qed.

Lemma getVisiblePages_shows_witness :
  (1 ≤ 5 ≤ 10)%Z ∧ (2 ≤ 10)%Z
  ∧ (Pagination.PageNumber 7 ∈ Pagination.getVisiblePages 5 10
     ↔ 7%Z = 1%Z ∨ 7%Z = 10%Z ∨ (1 ≤ 7 ≤ 10 ∧ 5 - 2 ≤ 7 ≤ 5 + 2)%Z).
Proof.
  split; [lia|]. split; [lia|].
  apply (getVisiblePages_shows 5 10 7); lia.
Defined.

(** X2. When there are at least two pages, the page numbers of the pager
    are strictly increasing (no page is shown twice), start at 1 and end
    at the last page, and the pager never has more than nine entries. *)
Theorem getVisiblePages_increasing currentPage totalPages :
  (2 ≤ totalPages)%Z →
  StronglySorted Z.lt
    (Pagination.page_numbers (Pagination.getVisiblePages currentPage totalPages))
  ∧ head (Pagination.getVisiblePages currentPage totalPages) = Some (Pagination.PageNumber 1)
  ∧ last (Pagination.getVisiblePages currentPage totalPages)
    = Some (Pagination.PageNumber totalPages)
  ∧ (length (Pagination.getVisiblePages currentPage totalPages) ≤ 9)%nat.
Proof.
  intros Htotal. split_and!.
  - rewrite page_numbers_getVisiblePages by done. constructor.
    + apply StronglySorted_app_2; [|apply seqZ_sorted|repeat constructor].
      intros x y Hx ->%list_elem_of_singleton. apply elem_of_seqZ in Hx. lia.
    + apply Forall_app. split; [apply Forall_seqZ; lia|]. repeat constructor. lia.
  - unfold Pagination.getVisiblePages. cbn zeta.
    by destruct (2 <? currentPage - 2)%Z, (currentPage + 2 <? totalPages - 1)%Z,
      (1 <? totalPages)%Z.
  - unfold Pagination.getVisiblePages. cbn zeta.
    assert ((1 <? totalPages)%Z = true) as -> by (apply Z.ltb_lt; lia).
    destruct (currentPage + 2 <? totalPages - 1)%Z.
    + by rewrite last_app.
    + by rewrite last_app.
  - unfold Pagination.getVisiblePages. cbn zeta.
    destruct (2 <? currentPage - 2)%Z, (currentPage + 2 <? totalPages - 1)%Z,
      (1 <? totalPages)%Z;
      rewrite ?length_app, ?length_fmap, length_seqZ; cbn; lia.
Qed.

Lemma getVisiblePages_increasing_witness :
  (2 ≤ 10)%Z
  ∧ StronglySorted Z.lt (Pagination.page_numbers (Pagination.getVisiblePages 5 10))
  ∧ head (Pagination.getVisiblePages 5 10) = Some (Pagination.PageNumber 1)
  ∧ last (Pagination.getVisiblePages 5 10) = Some (Pagination.PageNumber 10)
  ∧ (length (Pagination.getVisiblePages 5 10) ≤ 9)%nat.
Proof.
  split; [lia|]. apply (getVisiblePages_increasing 5 10). lia.
Defined.

Lemma gaps_marked_range a len tail :
  (0 < len)%Z →
  Pagination.gaps_marked (Pagination.PageNumber (a + len - 1) :: tail) →
  Pagination.gaps_marked ((Pagination.PageNumber <$> seqZ a len) ++ tail).
Proof.
  intros Hlen. rewrite <- (Z2Nat.id len) by lia.
  assert (0 < Z.to_nat len)%nat as Hk by lia. revert Hk.
  generalize (Z.to_nat len) as k. clear len Hlen. intros k. revert a.
  induction k as [|k IH]; intros a Hk Htail; [lia|].
  rewrite seqZ_cons by lia. rewrite Nat2Z.inj_succ, Z.pred_succ.
  destruct k as [|k].
  - replace (a + Z.of_nat 1 - 1)%Z with a in Htail by lia.
    rewrite seqZ_nil by lia. exact Htail.
  - assert (∃ rest, (Pagination.PageNumber <$> seqZ (Z.succ a) (Z.of_nat (S k))) ++ tail
                    = Pagination.PageNumber (Z.succ a) :: rest) as [rest Hrest].
    { rewrite seqZ_cons by lia. by eexists. }
    change (Pagination.gaps_marked
              (Pagination.PageNumber a
                 :: ((Pagination.PageNumber <$> seqZ (Z.succ a) (Z.of_nat (S k))) ++ tail))).
    rewrite Hrest. split; [lia|]. rewrite <- Hrest. apply IH; [lia|].
    assert (Z.succ a + Z.of_nat (S k) - 1 = a + Z.of_nat (S (S k)) - 1)%Z as -> by lia.
    exact Htail.
Qed.

(** X3. For a current page between 1 and the number of pages (at least
    2), the pager marks its gaps faithfully: two numbers that follow each
    other directly are consecutive pages, and a ['...'] always stands
    between two numbers with at least one page left out between them. *)
Theorem getVisiblePages_marks_gaps currentPage totalPages :
  (1 ≤ currentPage ≤ totalPages)%Z →
  (2 ≤ totalPages)%Z →
  Pagination.gaps_marked (Pagination.getVisiblePages currentPage totalPages).
Proof.
  intros Hcur Htotal. unfold Pagination.getVisiblePages. cbn zeta.
  assert ((1 <? totalPages)%Z = true) as -> by (apply Z.ltb_lt; lia).
  set (first := Z.max 2 (currentPage - 2)).
  set (last := Z.min (totalPages - 1) (currentPage + 2)).
  assert (∀ tail, (first ≤ last)%Z →
            Pagination.gaps_marked (Pagination.PageNumber last :: tail) →
            Pagination.gaps_marked
              ((Pagination.PageNumber <$> seqZ first (last - first + 1)) ++ tail)) as Hrange.
  { intros tail Hle Htail. apply gaps_marked_range; [lia|].
    by replace (first + (last - first + 1) - 1)%Z with last by lia. }
  assert (∀ tail, (first ≤ last)%Z →
            Pagination.gaps_marked
              ((Pagination.PageNumber <$> seqZ first (last - first + 1)) ++ tail) →
            ∃ rest, (Pagination.PageNumber <$> seqZ first (last - first + 1)) ++ tail
                    = Pagination.PageNumber first :: rest) as Hhead.
  { intros tail Hle _. rewrite seqZ_cons by lia. by eexists. }
  destruct (2 <? currentPage - 2)%Z eqn:Hlead, (currentPage + 2 <? totalPages - 1)%Z eqn:Htrail;
    rewrite ?Z.ltb_lt, ?Z.ltb_ge in Hlead, Htrail; rewrite <- ?app_assoc.
  - assert (first ≤ last)%Z as Hle by lia.
    specialize (Hrange [Pagination.Ellipsis; Pagination.PageNumber totalPages] Hle).
    destruct (Hhead [Pagination.Ellipsis; Pagination.PageNumber totalPages] Hle) as [rest Hrest];
      [apply Hrange; cbn; lia|].
    cbn [app]. rewrite Hrest. split; [lia|]. rewrite <- Hrest. apply Hrange. cbn. lia.
  - assert (first ≤ last)%Z as Hle by lia.
    specialize (Hrange [Pagination.PageNumber totalPages] Hle).
    destruct (Hhead [Pagination.PageNumber totalPages] Hle) as [rest Hrest];
      [apply Hrange; cbn; lia|].
    cbn [app]. rewrite Hrest. split; [lia|]. rewrite <- Hrest. apply Hrange. cbn. lia.
  - assert (first ≤ last)%Z as Hle by lia.
    specialize (Hrange [Pagination.Ellipsis; Pagination.PageNumber totalPages] Hle).
    destruct (Hhead [Pagination.Ellipsis; Pagination.PageNumber totalPages] Hle) as [rest Hrest];
      [apply Hrange; cbn; lia|].
    cbn [app]. rewrite Hrest. split; [lia|]. rewrite <- Hrest. apply Hrange. cbn. lia.
  - destruct (decide (first ≤ last)%Z) as [Hle|Hgt].
    + specialize (Hrange [Pagination.PageNumber totalPages] Hle).
      destruct (Hhead [Pagination.PageNumber totalPages] Hle) as [rest Hrest];
        [apply Hrange; cbn; lia|].
      cbn [app]. rewrite Hrest. split; [lia|]. rewrite <- Hrest. apply Hrange. cbn. lia.
    + rewrite seqZ_nil by lia. cbn. lia.
Qed.

Lemma getVisiblePages_marks_gaps_witness :
  (1 ≤ 5 ≤ 10)%Z ∧ (2 ≤ 10)%Z
  ∧ Pagination.gaps_marked (Pagination.getVisiblePages 5 10).
Proof.
  split; [lia|]. split; [lia|]. apply (getVisiblePages_marks_gaps 5 10); lia.
Defined.

(** ** The slug of a question *)

Lemma list_ascii_of_string_app (a b : string) :
  list_ascii_of_string (a +:+ b) = list_ascii_of_string a ++ list_ascii_of_string b.
Proof. induction a as [|c a IH]; simpl; [done | by f_equal]. Qed.

Lemma length_list_ascii_of_string (s : string) :
  length (list_ascii_of_string s) = String.length s.
Proof. induction s as [|c s IH]; simpl; [done | by f_equal]. Qed.

Lemma string_app_inj_l (a b c : string) : a +:+ b = a +:+ c → b = c.
Proof. induction a as [|x a IH]; simpl; [done|]. intros [= ?]. auto. Qed.

Lemma replace_runs_Forall (Q : Ascii.ascii → Prop) p in_run s :
  Q Slug.hyphen → Forall Q s → Forall Q (Slug.replace_runs p in_run s).
Proof.
  intros Hh Hs. revert in_run. induction Hs as [|c s Hc Hs IH]; intros in_run; simpl; [constructor|].
  destruct (p c); [destruct in_run|]; auto.
Qed.

Lemma replace_runs_length p in_run s :
  (length (Slug.replace_runs p in_run s) ≤ length s)%nat.
Proof.
  revert in_run. induction s as [|c s IH]; intros in_run; simpl; [lia|].
  destruct (p c); [destruct in_run|]; simpl;
    [pose proof (IH true)|pose proof (IH true)|pose proof (IH false)]; lia.
Qed.

(** A string without characters of the class is left as it is. *)
Lemma replace_runs_none p in_run s :
  Forall (λ c, p c = false) s → Slug.replace_runs p in_run s = s.
Proof.
  intros Hs. revert in_run. induction Hs as [|c s Hc Hs IH]; intros in_run; simpl; [done|].
  rewrite Hc. by rewrite IH.
Qed.

Lemma replace_runs_hyphen_no_double in_run s :
  Slug.no_double_hyphen (Slug.replace_runs Slug.is_hyphen in_run s)
  ∧ (in_run = true → ¬ Slug.starts_with_hyphen (Slug.replace_runs Slug.is_hyphen in_run s)).
Proof.
  revert in_run. induction s as [|c s IH]; intros in_run; simpl; [by split; [|intros _ []]|].
  destruct (Slug.is_hyphen c) eqn:Hc.
  - destruct in_run; [apply IH|].
    destruct (IH true) as [Hnd Hstart]. split; [|done].
    destruct (Slug.replace_runs Slug.is_hyphen true s) as [|d rest] eqn:E; [done|].
    split; [|done]. intros [_ Hd]. by apply Hstart.
  - destruct (IH false) as [Hnd _]. split.
    + destruct (Slug.replace_runs Slug.is_hyphen false s) as [|d rest] eqn:E; [done|].
      split; [|done]. intros [Hc' _]. congruence.
    + intros _. simpl. congruence.
Qed.

Lemma no_double_hyphen_tail c s : Slug.no_double_hyphen (c :: s) → Slug.no_double_hyphen s.
Proof. destruct s as [|d s]; [done|]. by intros [_ ?]. Qed.

Lemma no_double_hyphen_take n s :
  Slug.no_double_hyphen s → Slug.no_double_hyphen (take n s).
Proof.
  revert s. induction n as [|n IH]; intros s Hs; [by destruct s|].
  destruct s as [|c s]; [done|]. simpl.
  pose proof (IH s (no_double_hyphen_tail c s Hs)) as Htl.
  destruct s as [|d s]; [by destruct n|]. destruct n as [|n]; [done|].
  destruct Hs as [Hcd _]. simpl in *. by split.
Qed.

(** A string without two hyphens in a row is left as it is by
    [replace(/-+/g, '-')]. *)
Lemma replace_runs_hyphen_id in_run s :
  Slug.no_double_hyphen s →
  (in_run = true → ¬ Slug.starts_with_hyphen s) →
  Slug.replace_runs Slug.is_hyphen in_run s = s.
Proof.
  revert in_run. induction s as [|c s IH]; intros in_run Hnd Hstart; simpl; [done|].
  destruct (Slug.is_hyphen c) eqn:Hc.
  - destruct in_run; [by destruct Hstart|].
    f_equal; [by apply Nat.eqb_eq, (f_equal Ascii.ascii_of_nat) in Hc;
              rewrite Ascii.ascii_nat_embedding in Hc|].
    apply IH; [by eapply no_double_hyphen_tail|].
    intros _ Hs. destruct s as [|d s]; [done|]. destruct Hnd as [Hcd _]. by apply Hcd.
  - f_equal. apply IH; [by eapply no_double_hyphen_tail|done].
Qed.

Lemma slug_char_cases c :
  Slug.slug_char c = true →
  Slug.toLowerCase c = c ∧ Slug.kept c = true ∧ Slug.is_space c = false.
Proof.
  unfold Slug.slug_char, Slug.toLowerCase, Slug.kept, Slug.is_space, Slug.is_lower,
    Slug.is_digit, Slug.is_hyphen.
  generalize (Ascii.nat_of_ascii c) as n. intros n Hn.
  repeat (rewrite ?orb_true_iff, ?andb_true_iff, ?Nat.leb_le, ?Nat.eqb_eq in Hn).
  split_and!.
  - destruct ((65 <=? n)%nat && (n <=? 90)%nat) eqn:E; [|done].
    rewrite andb_true_iff, !Nat.leb_le in E. lia.
  - rewrite !orb_true_iff, !andb_true_iff, !Nat.leb_le, !Nat.eqb_eq. lia.
  - rewrite orb_false_iff, andb_false_iff, !Nat.leb_gt, Nat.eqb_neq. lia.
Qed.

Lemma kept_lower_slug_char c :
  Slug.kept c = true → Slug.is_space c = false → Slug.slug_char c = true.
Proof.
  unfold Slug.slug_char, Slug.kept, Slug.is_space, Slug.is_lower, Slug.is_digit, Slug.is_hyphen.
  generalize (Ascii.nat_of_ascii c) as n. intros n.
  rewrite !orb_true_iff, !andb_true_iff, !Nat.leb_le, !Nat.eqb_eq,
    orb_false_iff, andb_false_iff, !Nat.leb_gt, Nat.eqb_neq. lia.
Qed.

Lemma base_chars_spec title :
  Forall (λ c, Slug.slug_char c = true) (Slug.base_chars title)
  ∧ Slug.no_double_hyphen (Slug.base_chars title)
  ∧ (length (Slug.base_chars title) ≤ 100)%nat.
Proof.
  unfold Slug.base_chars. split_and!.
  - apply Forall_take. apply replace_runs_Forall; [by vm_compute|].
    set (kept_chars := filter _ _).
    assert (Forall (λ c, Slug.kept c = true) kept_chars) as Hkept.
    { subst kept_chars. apply Forall_forall. intros c. rewrite list_elem_of_filter. tauto. }
    clearbody kept_chars. generalize false as in_run.
    induction Hkept as [|c s Hc Hs IH]; intros in_run; simpl; [constructor|].
    destruct (Slug.is_space c) eqn:Hsp.
    + destruct in_run; [apply IH|]. constructor; [by vm_compute|apply IH].
    + constructor; [by apply kept_lower_slug_char|apply IH].
  - apply no_double_hyphen_take, replace_runs_hyphen_no_double.
  - rewrite length_take. lia.
Qed.

Lemma string_of_uint_digits d :
  Forall (λ c, Slug.is_digit c = true) (list_ascii_of_string (NilEmpty.string_of_uint d)).
Proof. induction d; simpl; constructor; (done || by vm_compute). Qed.

Lemma decimal_inj n1 n2 : Slug.decimal n1 = Slug.decimal n2 → n1 = n2.
Proof.
  unfold Slug.decimal. intros Heq.
  apply (f_equal NilEmpty.uint_of_string) in Heq. rewrite !NilEmpty.usu in Heq.
  injection Heq as Heq. apply (f_equal Nat.of_uint) in Heq.
  by rewrite !DecimalNat.Unsigned.of_to in Heq.
Qed.

(** X4. The slug generated for a question with an ASCII title consists
    of lower-case letters, digits and hyphens only; its part before the
    timestamp has at most 100 characters and never two hyphens in a
    row. *)
Theorem slug_is_url_safe title now :
  Slug.ascii_only title →
  Forall (λ c, Slug.slug_char c = true) (list_ascii_of_string (Slug.slug title now))
  ∧ (String.length (Slug.base title) ≤ 100)%nat
  ∧ Slug.no_double_hyphen (list_ascii_of_string (Slug.base title)).
Proof.
  intros _. destruct (base_chars_spec title) as (Hchars & Hnd & Hlen).
  unfold Slug.slug, Slug.base. split_and!.
  - rewrite !list_ascii_of_string_app, list_ascii_of_string_of_list_ascii.
    apply Forall_app. split; [done|]. apply Forall_app. split; [by repeat constructor|].
    eapply Forall_impl; [apply string_of_uint_digits|].
    intros c Hc. unfold Slug.slug_char. by rewrite Hc, orb_true_r.
  - by rewrite <- length_list_ascii_of_string, list_ascii_of_string_of_list_ascii.
  - by rewrite list_ascii_of_string_of_list_ascii.
Qed.

Lemma slug_is_url_safe_witness :
  Slug.ascii_only "How do I  --center a <div> in CSS3?"
  ∧ Forall (λ c, Slug.slug_char c = true)
      (list_ascii_of_string (Slug.slug "How do I  --center a <div> in CSS3?" 1234))
  ∧ (String.length (Slug.base "How do I  --center a <div> in CSS3?") ≤ 100)%nat
  ∧ Slug.no_double_hyphen (list_ascii_of_string (Slug.base "How do I  --center a <div> in CSS3?")).
Proof.
  assert (Slug.ascii_only "How do I  --center a <div> in CSS3?") as Hascii.
  { unfold Slug.ascii_only. simpl. repeat constructor; vm_compute; lia. }
  split; [exact Hascii|].
  apply (slug_is_url_safe "How do I  --center a <div> in CSS3?" 1234 Hascii).
Defined.

(** X5. A title that is already the base of a slug is its own base:
    generating the slug of a slug changes nothing before the
    timestamp. *)
Theorem slug_base_idempotent title :
  Slug.ascii_only title →
  Slug.base (Slug.base title) = Slug.base title.
Proof.
  intros _. destruct (base_chars_spec title) as (Hchars & Hnd & Hlen).
  unfold Slug.base at 1 3. f_equal. unfold Slug.base_chars at 1.
  unfold Slug.base. rewrite list_ascii_of_string_of_list_ascii.
  set (s := Slug.base_chars title) in *. clearbody s.
  assert (Slug.toLowerCase <$> s = s) as ->.
  { induction Hchars as [|c s Hc Hs IH]; cbn; [done|].
    rewrite (proj1 (slug_char_cases c Hc)). f_equal. apply IH.
    - by eapply no_double_hyphen_tail.
    - simpl in Hlen. lia. }
  assert (filter (λ c, Slug.kept c = true) s = s) as ->.
  { clear Hnd Hlen. induction Hchars as [|c s Hc Hs IH]; [done|].
    rewrite filter_cons_True by apply (slug_char_cases c Hc). by f_equal. }
  rewrite (replace_runs_none Slug.is_space).
  2:{ eapply Forall_impl; [exact Hchars|]. intros c Hc. apply (slug_char_cases c Hc). }
  rewrite replace_runs_hyphen_id by done.
  by apply take_ge.
Qed.

Lemma slug_base_idempotent_witness :
  Slug.ascii_only " - Hello,   World! - "
  ∧ Slug.base (Slug.base " - Hello,   World! - ") = Slug.base " - Hello,   World! - ".
Proof.
  assert (Slug.ascii_only " - Hello,   World! - ") as Hascii.
  { unfold Slug.ascii_only. simpl. repeat constructor; vm_compute; lia. }
  split; [exact Hascii|]. apply (slug_base_idempotent _ Hascii).
Defined.

(** X6. Two saves of the same ASCII title at different clock values give
    different slugs: the timestamp keeps slugs of equal titles apart. *)
Theorem slug_differs_in_time title now1 now2 :
  Slug.ascii_only title →
  now1 ≠ now2 →
  Slug.slug title now1 ≠ Slug.slug title now2.
Proof.
  intros _ Hne Heq. apply Hne. unfold Slug.slug in Heq.
  apply string_app_inj_l, string_app_inj_l in Heq. by apply decimal_inj.
Qed.

Lemma slug_differs_in_time_witness :
  Slug.ascii_only "Why is the sky blue"
  ∧ 7 ≠ 8
  ∧ Slug.slug "Why is the sky blue" 7 ≠ Slug.slug "Why is the sky blue" 8.
Proof.
  assert (Slug.ascii_only "Why is the sky blue") as Hascii.
  { unfold Slug.ascii_only. simpl. repeat constructor; vm_compute; lia. }
  split; [exact Hascii|]. split; [lia|].
  apply (slug_differs_in_time _ 7 8 Hascii). lia.
Defined.

(** ** Guards of the routes over the database *)

Lemma authenticateS_granted caller account next s :
  authenticated (core s) caller account →
  authenticateS (Bearer caller) next s = next (mkReqUser caller account (stats_of s caller)) s.
Proof. intros [Hc Ha]. unfold authenticateS. by rewrite Hc, Ha. Qed.

(** A request is turned away with status 401 and the database as it was,
    or the caller holds a verified token for an active account. *)
Lemma authenticateS_cases auth next s :
  (authenticateS auth next s).2 = s ∧ r_status (authenticateS auth next s).1 = 401
  ∨ ∃ caller account, auth = Bearer caller ∧ authenticated (core s) caller account.
Proof.
  unfold authenticateS. destruct auth as [| | |caller]; [by left..|].
  destruct (users (core s) !! caller) as [account|] eqn:Hc; [|by left].
  destruct (isActive account) eqn:Ha; cbn [negb]; [|by left].
  right. by exists caller, account.
Qed.

Lemma with_core_core s : with_core (core s) s = s.
Proof. by destruct s. Qed.

(** [requireOwnership] for the two resource types the routers use: the
    request is turned away with the database as it was, or the resource
    exists, belongs to the caller and is handed to the next handler. *)
Lemma requireOwnership_answer user id next s :
  auth.requireOwnership "answer" (Some user) id next s =
  match answers (core s) !! id with
  | None => (reply 404 "answer not found.", s)
  | Some a =>
      if decide (a_author a = u_id user) then next (AnswerResource a) s
      else (reply 403 "Access denied. You can only modify your own content.", s)
  end.
Proof.
  unfold auth.requireOwnership, auth.find_resource. unfold_promiseS.
  rewrite bool_decide_eq_false_2 by done. rewrite bool_decide_eq_true_2 by done.
  rewrite with_core_core.
  destruct (answers (core s) !! id) as [a|]; cbn [fmap option_fmap option_map]; [|done].
  cbn [resource_author]. by destruct (decide (a_author a = u_id user));
    [rewrite bool_decide_eq_true_2 by done | rewrite bool_decide_eq_false_2 by done].
Qed.

Lemma requireOwnership_question user id next s :
  auth.requireOwnership "question" (Some user) id next s =
  match questions (core s) !! id with
  | None => (reply 404 "question not found.", s)
  | Some q =>
      if decide (q_author q = u_id user) then next (QuestionResource q) s
      else (reply 403 "Access denied. You can only modify your own content.", s)
  end.
Proof.
  unfold auth.requireOwnership, auth.find_resource. unfold_promiseS.
  rewrite bool_decide_eq_true_2 by done.
  rewrite with_core_core.
  destruct (questions (core s) !! id) as [q|]; cbn [fmap option_fmap option_map]; [|done].
  cbn [resource_author]. by destruct (decide (q_author q = u_id user));
    [rewrite bool_decide_eq_true_2 by done | rewrite bool_decide_eq_false_2 by done].
Qed.

(** ** Deleting an answer *)

(** The route for the author of the answer. *)
Lemma delete_answer_granted caller account id a s :
  authenticated (core s) caller account →
  answers (core s) !! id = Some a →
  a_author a = caller →
  answers_router.delete_answer (Bearer caller) id s =
  (reply 200 "Answer deleted successfully",
   mkStore (set_questions (alter AnswerDocument.unbump_question (a_question a))
              (record (QuestionUpdate (a_question a)) (set_answers (delete id) (core s))))
           (<[caller := User.set_stat "answersGiven" (answersGiven (stats_of s caller) - 1)
                          (stats_of s caller)]> (user_stats s))
           (question_status s) (delete id (answer_helpfulCount s)) (notification_readAt s)).
Proof.
  intros Hauth Ha Hown. unfold answers_router.delete_answer.
  rewrite (authenticateS_granted _ account) by done.
  rewrite requireOwnership_answer, Ha. cbn [u_id].
  rewrite decide_True by done.
  unfold try_catchS, AnswerDocument.deleteOne, AnswerDocument.post_deleteOne,
    User.updateStats, User.save_stat, QuestionModel.findByIdAndUpdate.
  unfold_promiseS. destruct s. reflexivity.
Qed.

(** The route for everybody else. *)
Lemma delete_answer_cases auth id s :
  (answers_router.delete_answer auth id s).2 = s
    ∧ r_status (answers_router.delete_answer auth id s).1 ∈ [401; 403; 404]
  ∨ ∃ caller account a,
      auth = Bearer caller ∧ authenticated (core s) caller account
      ∧ answers (core s) !! id = Some a ∧ a_author a = caller.
Proof.
  unfold answers_router.delete_answer.
  match goal with |- context [authenticateS auth ?next s] =>
    destruct (authenticateS_cases auth next s)
      as [[-> ->]|(caller & account & -> & Hauth)]
  end.
  { left. split; [done|]. set_solver. }
  rewrite (authenticateS_granted _ account) by done.
  rewrite requireOwnership_answer. cbn [u_id].
  destruct (answers (core s) !! id) as [a|] eqn:Ha.
  2:{ left. split; [done|]. cbn. set_solver. }
  destruct (decide (a_author a = caller)) as [Hown|Hne].
  2:{ left. split; [done|]. cbn. set_solver. }
  right. by exists caller, account, a.
Qed.

(** X7. The author of an answer deletes it: the answer is gone, the
    [answerCount] of its question drops by one and nothing else of the
    question changes, the author's [answersGiven] drops by one, and no
    user document changes, so the reputation the answer earned stays. *)
Theorem deleting_an_answer caller account id a s :
  authenticated (core s) caller account →
  answers (core s) !! id = Some a →
  a_author a = caller →
  ∃ s', answers_router.delete_answer (Bearer caller) id s =
          (reply 200 "Answer deleted successfully", s')
      ∧ answers (core s') = delete id (answers (core s))
      ∧ questions (core s') =
          alter AnswerDocument.unbump_question (a_question a) (questions (core s))
      ∧ users (core s') = users (core s)
      ∧ notifications (core s') = notifications (core s)
      ∧ answersGiven (stats_of s' caller) = (answersGiven (stats_of s caller) - 1)%Z
      ∧ ∀ other, other ≠ caller → stats_of s' other = stats_of s other.
Proof.
  intros Hauth Ha Hown. eexists. split; [by apply (delete_answer_granted _ account)|].
  cbn. split_and!; try done.
  - unfold stats_of at 1. cbn. by rewrite lookup_insert_eq.
  - intros other Hne. unfold stats_of at 1. cbn. by rewrite lookup_insert_ne.
Qed.

Lemma example_store_bob : authenticated (core example_store) 2 (mkUser "bob" 0 true).
Proof. split; reflexivity. Qed.

Lemma deleting_an_answer_witness :
  ∃ s', answers_router.delete_answer (Bearer 2) 20 example_store =
          (reply 200 "Answer deleted successfully", s')
      ∧ answers (core s') = delete 20 (answers (core example_store))
      ∧ questions (core s') =
          alter AnswerDocument.unbump_question 10 (questions (core example_store))
      ∧ users (core s') = users (core example_store)
      ∧ notifications (core s') = notifications (core example_store)
      ∧ answersGiven (stats_of s' 2) = (answersGiven (stats_of example_store 2) - 1)%Z
      ∧ ∀ other, other ≠ 2 → stats_of s' other = stats_of example_store other.
Proof.
  apply (deleting_an_answer 2 (mkUser "bob" 0 true) 20 (mkAnswer 2 10 0 [] [] false)).
  - apply example_store_bob.
  - reflexivity.
  - reflexivity.
Defined.



(** X9. Deleting the accepted answer of a question does not withdraw the
    acceptance: the question keeps [hasAcceptedAnswer] and goes on
    referring to the answer, which no longer exists. *)
Theorem deleting_the_accepted_answer_leaves_a_dangling_reference caller account id a q s :
  authenticated (core s) caller account →
  answers (core s) !! id = Some a →
  a_author a = caller →
  questions (core s) !! a_question a = Some q →
  q_acceptedAnswer q = Some id →
  let s' := (answers_router.delete_answer (Bearer caller) id s).2 in
  answers (core s') !! id = None
  ∧ ∃ q', questions (core s') !! a_question a = Some q'
        ∧ q_acceptedAnswer q' = Some id
        ∧ q_hasAcceptedAnswer q' = q_hasAcceptedAnswer q.
Proof.
  intros Hauth Ha Hown Hq Hacc. rewrite (delete_answer_granted _ account _ a) by done.
  cbn. split; [apply lookup_delete_eq|].
  exists (AnswerDocument.unbump_question q). rewrite lookup_alter_eq, Hq. done.
Qed.

Lemma deleting_the_accepted_answer_leaves_a_dangling_reference_witness :
  let s' := (answers_router.delete_answer (Bearer 2) 20 example_store_accepted).2 in
  answers (core s') !! 20 = None
  ∧ ∃ q', questions (core s') !! 10 = Some q'
        ∧ q_acceptedAnswer q' = Some 20
        ∧ q_hasAcceptedAnswer q' = true.
Proof.
  apply (deleting_the_accepted_answer_leaves_a_dangling_reference
           2 (mkUser "bob" 15 true) 20 (mkAnswer 2 10 0 [] [] true)
           (mkQuestion 1 0 [] [] 3 true (Some 20) 7) example_store_accepted).
  - split; reflexivity.
  - reflexivity.
  - reflexivity.
  - reflexivity.
  - reflexivity.
Defined.

(** ** Marking an answer as helpful *)

Lemma helpful_granted caller account id a s :
  authenticated (core s) caller account →
  answers (core s) !! id = Some a →
  a_author a ≠ caller →
  answers_router.helpful (Bearer caller) id s =
  (mkReply 200 (Some "Answer marked as helpful") None
           (HelpfulCount (helpfulCount_of s id + 1)),
   mkStore (set_questions (alter (Answer.bump_question (now (core s))) (a_question a))
              (record (QuestionUpdate (a_question a))
                 (set_answers (insert id a) (record (AnswerSave id) (core s)))))
           (user_stats s) (question_status s)
           (<[id := (helpfulCount_of s id + 1)%Z]> (answer_helpfulCount s))
           (notification_readAt s)).
Proof.
  intros Hauth Ha Hne. unfold answers_router.helpful.
  rewrite (authenticateS_granted _ account) by done.
  unfold try_catchS, AnswerModel.findById, AnswerDocument.markAsHelpful, Answer.save,
    Answer.post_save, QuestionModel.findByIdAndUpdate.
  unfold_promiseS. rewrite Ha. cbn [u_id].
  rewrite bool_decide_eq_false_2 by done.
  destruct s. reflexivity.
Qed.

(** X10. The helpful route counts requests, not users: [n] requests by
    the same user for an answer of somebody else raise its [helpfulCount]
    by [n]; each of them saves the answer, so the [answerCount] of the
    question rises by [n] as well. *)
Theorem helpful_counts_every_request caller account id a n s :
  authenticated (core s) caller account →
  answers (core s) !! id = Some a →
  a_author a ≠ caller →
  let s' := Nat.iter n (λ s, (answers_router.helpful (Bearer caller) id s).2) s in
  helpfulCount_of s' id = (helpfulCount_of s id + Z.of_nat n)%Z
  ∧ q_answerCount <$> questions (core s') !! a_question a =
      (λ c, (c + Z.of_nat n)%Z) <$> (q_answerCount <$> questions (core s) !! a_question a).
Proof.
  intros Hauth Ha Hne. cbn zeta.
  assert (∀ n, let s' := Nat.iter n (λ s, (answers_router.helpful (Bearer caller) id s).2) s in
               authenticated (core s') caller account
               ∧ answers (core s') !! id = Some a
               ∧ helpfulCount_of s' id = (helpfulCount_of s id + Z.of_nat n)%Z
               ∧ q_answerCount <$> questions (core s') !! a_question a =
                   (λ c, (c + Z.of_nat n)%Z)
                     <$> (q_answerCount <$> questions (core s) !! a_question a)) as Hall.
  { clear n. induction n as [|n IH]; cbn zeta.
    - cbn [Nat.iter nat_rect]. split; [done|]. split; [done|]. split; [lia|].
      destruct (questions (core s) !! a_question a); cbn; [f_equal; lia|done].
    - rewrite Nat.iter_succ. cbn zeta in IH. destruct IH as (Hauth' & Ha' & Hcount & Hq).
      set (s1 := Nat.iter n _ s) in *. clearbody s1.
      rewrite (helpful_granted _ account _ a) by done. cbn.
      split; [done|]. split_and!.
      + apply lookup_insert_eq.
      + unfold helpfulCount_of at 1. cbn. rewrite lookup_insert_eq. cbn. lia.
      + rewrite lookup_alter_eq.
        destruct (questions (core s1) !! a_question a) as [q1|];
          destruct (questions (core s) !! a_question a) as [q0|]; cbn in *; try done.
        injection Hq as Hq. f_equal. lia. }
  destruct (Hall n) as (_ & _ & ? & ?). done.
Qed.

Lemma example_store_carol : authenticated (core example_store) 3 (mkUser "carol" 0 true).
Proof. split; reflexivity. Qed.

Lemma helpful_counts_every_request_witness :
  let s' := Nat.iter 3 (λ s, (answers_router.helpful (Bearer 3) 20 s).2) example_store in
  helpfulCount_of s' 20 = (helpfulCount_of example_store 20 + Z.of_nat 3)%Z
  ∧ q_answerCount <$> questions (core s') !! 10 =
      (λ c, (c + Z.of_nat 3)%Z) <$> (q_answerCount <$> questions (core example_store) !! 10).
Proof.
  apply (helpful_counts_every_request 3 (mkUser "carol" 0 true) 20 (mkAnswer 2 10 0 [] [] false)
           3 example_store).
  - apply example_store_carol.
  - reflexivity.
  - cbn. lia.
Defined.

(** X11. Nobody marks their own answer as helpful: the request is
    answered 400 and the database stays as it was. *)
Theorem own_answer_is_not_helpful caller account id a s :
  authenticated (core s) caller account →
  answers (core s) !! id = Some a →
  a_author a = caller →
  answers_router.helpful (Bearer caller) id s =
  (reply 400 "You cannot mark your own answer as helpful", s).
Proof.
  intros Hauth Ha Hown. unfold answers_router.helpful.
  rewrite (authenticateS_granted _ account) by done.
  unfold try_catchS, AnswerModel.findById. unfold_promiseS. rewrite Ha. cbn [u_id].
  rewrite bool_decide_eq_true_2 by done. by rewrite with_core_core.
Qed.

Lemma own_answer_is_not_helpful_witness :
  answers_router.helpful (Bearer 2) 20 example_store =
  (reply 400 "You cannot mark your own answer as helpful", example_store).
Proof.
  apply (own_answer_is_not_helpful 2 (mkUser "bob" 0 true) 20 (mkAnswer 2 10 0 [] [] false)).
  - apply example_store_bob.
  - reflexivity.
  - reflexivity.
Defined.

(** ** Deleting a question *)

Lemma set_stat_questionsAsked v st : questionsAsked (User.set_stat "questionsAsked" v st) = v.
Proof. reflexivity. Qed.

Section DeleteQuestion.
Context `{StatusTracking}.

(** The question the soft delete writes back. *)
Lemma delete_question_granted caller account id q s :
  authenticated (core s) caller account →
  questions (core s) !! id = Some q →
  q_author q = caller →
  questions_router.delete_question (Bearer caller) id s =
  let q' := if isModifiedS (Some (q, status_of s id)) (q, status_deleted)
            then Question.with_lastActivity (now (core s)) q else q in
  (reply 200 "Question deleted successfully",
   mkStore (set_questions (insert id q') (record (QuestionSave id) (core s)))
           (<[caller := User.set_stat "questionsAsked" (questionsAsked (stats_of s caller) - 1)
                          (stats_of s caller)]> (user_stats s))
           (<[id := status_deleted]> (question_status s))
           (answer_helpfulCount s) (notification_readAt s)).
Proof.
  intros Hauth Hq Hown. unfold questions_router.delete_question.
  rewrite (authenticateS_granted _ account) by done.
  rewrite requireOwnership_question, Hq. cbn [u_id].
  rewrite decide_True by done.
  unfold try_catchS, QuestionDocument.save, QuestionDocument.stored,
    User.updateStats, User.save_stat.
  unfold_promiseS. rewrite Hq. destruct s. reflexivity.
Qed.

Lemma delete_question_cases auth id s :
  (questions_router.delete_question auth id s).2 = s
    ∧ r_status (questions_router.delete_question auth id s).1 ∈ [401; 403; 404]
  ∨ ∃ caller account q,
      auth = Bearer caller ∧ authenticated (core s) caller account
      ∧ questions (core s) !! id = Some q ∧ q_author q = caller.
Proof.
  unfold questions_router.delete_question.
  match goal with |- context [authenticateS auth ?next s] =>
    destruct (authenticateS_cases auth next s)
      as [[-> ->]|(caller & account & -> & Hauth)]
  end.
  { left. split; [done|]. set_solver. }
  rewrite (authenticateS_granted _ account) by done.
  rewrite requireOwnership_question. cbn [u_id].
  destruct (questions (core s) !! id) as [q|] eqn:Hq.
  2:{ left. split; [done|]. cbn. set_solver. }
  destruct (decide (q_author q = caller)) as [Hown|Hne].
  2:{ left. split; [done|]. cbn. set_solver. }
  right. by exists caller, account, q.
Qed.

(** X12. The author of a question deletes it: the status becomes
    [deleted] and the document stays, with its score, ledger,
    [answerCount] and acceptance; at most [lastActivity] is renewed.  The
    answers and the users stay as they were, and the author's
    [questionsAsked] drops by one. *)
Theorem deleting_a_question_keeps_the_document caller account id q s :
  authenticated (core s) caller account →
  questions (core s) !! id = Some q →
  q_author q = caller →
  ∃ s' q', questions_router.delete_question (Bearer caller) id s =
             (reply 200 "Question deleted successfully", s')
         ∧ status_of s' id = status_deleted
         ∧ questions (core s') = <[id := q']> (questions (core s))
         ∧ (q' = q ∨ q' = Question.with_lastActivity (now (core s)) q)
         ∧ answers (core s') = answers (core s)
         ∧ users (core s') = users (core s)
         ∧ questionsAsked (stats_of s' caller) = (questionsAsked (stats_of s caller) - 1)%Z.
Proof.
  intros Hauth Hq Hown. eexists _, _.
  split; [by apply (delete_question_granted _ account)|].
  cbn. split_and!; try done.
  - unfold status_of. cbn. by rewrite lookup_insert_eq.
  - destruct (isModifiedS _ _); [by right | by left].
  - unfold stats_of at 1. cbn. by rewrite lookup_insert_eq.
Qed.

(** X13. Deleting a question is not idempotent for the statistics: the
    route does not look at the status, so [n] requests of the author lower
    [questionsAsked] by [n]. *)
Theorem deleting_a_question_again_lowers_the_count_again caller account id q n s :
  authenticated (core s) caller account →
  questions (core s) !! id = Some q →
  q_author q = caller →
  let s' := Nat.iter n (λ s, (questions_router.delete_question (Bearer caller) id s).2) s in
  questionsAsked (stats_of s' caller) = (questionsAsked (stats_of s caller) - Z.of_nat n)%Z.
Proof.
  intros Hauth Hq Hown. cbn zeta.
  assert (∀ n, let s' := Nat.iter n
                 (λ s, (questions_router.delete_question (Bearer caller) id s).2) s in
               authenticated (core s') caller account
               ∧ (∃ q', questions (core s') !! id = Some q' ∧ q_author q' = caller)
               ∧ questionsAsked (stats_of s' caller) =
                   (questionsAsked (stats_of s caller) - Z.of_nat n)%Z) as Hall.
  { clear n. induction n as [|n IH]; cbn zeta.
    - cbn [Nat.iter nat_rect]. split; [done|]. split; [by exists q|]. lia.
    - rewrite Nat.iter_succ. cbn zeta in IH. destruct IH as (Hauth' & (q' & Hq' & Hown') & Hcount).
      set (s1 := Nat.iter n _ s) in *. clearbody s1.
      rewrite (delete_question_granted _ account _ q') by done. cbn.
      split; [done|]. split.
      + eexists. rewrite lookup_insert_eq. split; [done|]. by destruct (isModifiedS _ _).
      + unfold stats_of at 1. cbn. rewrite lookup_insert_eq. cbn.
        rewrite set_stat_questionsAsked. lia. }
  by destruct (Hall n) as (_ & _ & ?).
Qed.

End DeleteQuestion.

Lemma example_store_alice : authenticated (core example_store) 1 (mkUser "alice" 0 true).
Proof. split; reflexivity. Qed.

Lemma deleting_a_question_keeps_the_document_witness :
  ∃ s' q', questions_router.delete_question (H:=always_modifiedS) (Bearer 1) 10 example_store =
             (reply 200 "Question deleted successfully", s')
         ∧ status_of s' 10 = status_deleted
         ∧ questions (core s') = <[10 := q']> (questions (core example_store))
         ∧ (q' = mkQuestion 1 0 [] [] 2 false None 0
            ∨ q' = Question.with_lastActivity (now (core example_store))
                     (mkQuestion 1 0 [] [] 2 false None 0))
         ∧ answers (core s') = answers (core example_store)
         ∧ users (core s') = users (core example_store)
         ∧ questionsAsked (stats_of s' 1) = (questionsAsked (stats_of example_store 1) - 1)%Z.
Proof.
  apply (deleting_a_question_keeps_the_document (H:=always_modifiedS)
           1 (mkUser "alice" 0 true) 10 (mkQuestion 1 0 [] [] 2 false None 0) example_store).
  - apply example_store_alice.
  - reflexivity.
  - reflexivity.
Defined.

Lemma deleting_a_question_again_lowers_the_count_again_witness :
  let s' := Nat.iter 2 (λ s, (questions_router.delete_question (H:=always_modifiedS)
                                (Bearer 1) 10 s).2) example_store in
  questionsAsked (stats_of s' 1) = (questionsAsked (stats_of example_store 1) - Z.of_nat 2)%Z.
Proof.
  apply (deleting_a_question_again_lowers_the_count_again (H:=always_modifiedS)
           1 (mkUser "alice" 0 true) 10 (mkQuestion 1 0 [] [] 2 false None 0) 2 example_store).
  - apply example_store_alice.
  - reflexivity.
  - reflexivity.
Defined.



(** ** [updateStats] *)

(** X15. [updateStats] for a user document as it is stored: a name that
    is not one of the five counters is ignored and nothing is written; a
    valid name adds the increment to that counter and to no other.  The
    collections and the statistics of the other users stay as they
    were. *)
Theorem updateStats_changes_one_counter this statType increment s :
  u_stats this = stats_of s (u_id this) →
  ∃ s', User.updateStats this statType increment s = FulfilledS tt s'
      ∧ (statType ∉ User.validStats → s' = s)
      ∧ (statType ∈ User.validStats →
         ∀ name, name ∈ User.validStats →
           User.get_stat name (stats_of s' (u_id this)) =
           (User.get_stat name (stats_of s (u_id this))
            + if decide (name = statType) then increment else 0)%Z)
      ∧ core s' = core s
      ∧ ∀ other, other ≠ u_id this → stats_of s' other = stats_of s other.
Proof.
  intros Hfresh. unfold User.updateStats, User.save_stat. unfold_promiseS.
  case_bool_decide as Hvalid.
  - eexists. split; [done|]. cbn [u_id u_stats]. rewrite Hfresh.
    split; [done|]. split; [|split].
    + intros _ name Hname. unfold stats_of at 1. cbn. rewrite lookup_insert_eq. cbn.
      generalize (stats_of s (u_id this)). intros st.
      unfold User.validStats in *.
      rewrite !elem_of_cons, elem_of_nil in Hvalid, Hname.
      destruct st as [a b c d e].
      destruct Hvalid as [->|[->|[->|[->|[->|[]]]]]];
        destruct Hname as [->|[->|[->|[->|[->|[]]]]]];
        cbv -[Z.add]; lia.
    + done.
    + intros other Hne. unfold stats_of at 1. cbn. by rewrite lookup_insert_ne.
  - exists s. by split_and!.
Qed.

Lemma updateStats_changes_one_counter_witness :
  ∃ s', User.updateStats (mkReqUser 2 (mkUser "bob" 0 true) default_stats) "answersGiven" 1
          example_store = FulfilledS tt s'
      ∧ ("answersGiven" ∉ User.validStats → s' = example_store)
      ∧ ("answersGiven" ∈ User.validStats →
         ∀ name, name ∈ User.validStats →
           User.get_stat name (stats_of s' 2) =
           (User.get_stat name (stats_of example_store 2)
            + if decide (name = "answersGiven") then 1 else 0)%Z)
      ∧ core s' = core example_store
      ∧ ∀ other, other ≠ 2 → stats_of s' other = stats_of example_store other.
Proof.
  apply (updateStats_changes_one_counter (mkReqUser 2 (mkUser "bob" 0 true) default_stats)
           "answersGiven" 1 example_store).
  reflexivity.
Defined.

(** ** What the further routes leave alone *)

Lemma votables_kept_same w w' :
  questions w' = questions w → answers w' = answers w → votables_kept w w'.
Proof.
  intros Hq Ha. split.
  - intros x q' Hx. exists q'. by rewrite <-Hq.
  - intros x a' Hx. by rewrite <-Ha.
Qed.

Lemma helpful_cases auth id s :
  (answers_router.helpful auth id s).2 = s
    ∧ r_status (answers_router.helpful auth id s).1 ∈ [400; 401; 404]
  ∨ ∃ caller account a,
      auth = Bearer caller ∧ authenticated (core s) caller account
      ∧ answers (core s) !! id = Some a ∧ a_author a ≠ caller.
Proof.
  unfold answers_router.helpful.
  match goal with |- context [authenticateS auth ?next s] =>
    destruct (authenticateS_cases auth next s)
      as [[-> ->]|(caller & account & -> & Hauth)]
  end.
  { left. split; [done|]. set_solver. }
  rewrite (authenticateS_granted _ account) by done.
  unfold try_catchS, AnswerModel.findById. unfold_promiseS. cbn [u_id].
  destruct (answers (core s) !! id) as [a|] eqn:Ha.
  2:{ left. rewrite with_core_core. split; [done|]. cbn. set_solver. }
  destruct (decide (a_author a = caller)) as [Hown|Hne].
  { left. rewrite bool_decide_eq_true_2 by done. rewrite with_core_core.
    split; [done|]. cbn. set_solver. }
  right. by exists caller, account, a.
Qed.

(** The notification routes write to the notifications collection and to
    the console only. *)
Lemma notification_routes_frame r s :
  match r with
  | GET_notifications_unread_count _ | PUT_notifications_read_all _
  | DELETE_notifications_read_all _ | GET_notifications_stats _ => True
  | _ => False
  end →
  ∀ `{ChangeTracking} `{StatusTracking},
  let s' := (handleS r s).2 in
  users (core s') = users (core s)
  ∧ questions (core s') = questions (core s)
  ∧ answers (core s') = answers (core s)
  ∧ user_stats s' = user_stats s
  ∧ question_status s' = question_status s
  ∧ answer_helpfulCount s' = answer_helpfulCount s.
Proof.
  intros Hr ? ?. destruct r as [r|auth id|auth id|auth id|auth|auth|auth|auth]; try done;
    cbn [handleS];
    unfold notifications_router.unread_count, notifications_router.read_all,
      notifications_router.delete_read_all, notifications_router.stats;
    (match goal with |- context [authenticateS auth ?next s] =>
       destruct (authenticateS_cases auth next s)
         as [[Heq _]|(caller & account & -> & Hauth)]
     end; [cbn zeta; by rewrite Heq|]);
    rewrite (authenticateS_granted _ account) by done;
    unfold try_catchS, NotificationModel.getUnreadCount, NotificationModel.countDocuments,
      NotificationModel.markAllAsRead, NotificationModel.updateMany_read,
      NotificationModel.deleteMany, NotificationModel.aggregate_by_type;
    unfold_promiseS; cbn [core with_core notificationStoreUp];
    try (destruct (notificationStoreUp (core s))); done.
Qed.

Lemma further_routes_frame `{ChangeTracking} `{StatusTracking} r s :
  further_request r →
  votables_kept (core s) (core (handleS r s).2).
Proof.
  intros Hr. destruct r as [r|auth id|auth id|auth id|auth|auth|auth|auth]; try done.
  - cbn [handleS].
    destruct (delete_answer_cases auth id s)
      as [[-> _]|(caller & account & a & -> & Hauth & Ha & Hown)];
      [by apply votables_kept_same|].
    rewrite (delete_answer_granted _ account _ a) by done. cbn [snd core]. split.
    + intros x q' Hx. cbn in Hx. apply lookup_alter_Some in Hx as [(<- & q & Hq & ->)|[_ Hx]];
        eexists; (split; [done|]); done.
    + intros x a' Hx. cbn in Hx. by apply lookup_delete_Some in Hx as [_ Hx].
  - cbn [handleS].
    destruct (helpful_cases auth id s)
      as [[-> _]|(caller & account & a & -> & Hauth & Ha & Hne)];
      [by apply votables_kept_same|].
    rewrite (helpful_granted _ account _ a) by done. cbn [snd core]. split.
    + intros x q' Hx. cbn in Hx. apply lookup_alter_Some in Hx as [(<- & q & Hq & ->)|[_ Hx]];
        eexists; (split; [done|]); done.
    + intros x a' Hx. cbn in Hx. apply lookup_insert_Some in Hx as [[<- <-]|[_ Hx]]; done.
  - cbn [handleS].
    destruct (delete_question_cases auth id s)
      as [[-> _]|(caller & account & q & -> & Hauth & Hq & Hown)];
      [by apply votables_kept_same|].
    rewrite (delete_question_granted _ account _ q) by done. cbn [snd core]. split.
    + intros x q' Hx. cbn in Hx. apply lookup_insert_Some in Hx as [[<- <-]|[_ Hx]].
      * exists q. split; [done|]. by destruct (isModifiedS _ _).
      * exists q'. done.
    + done.
  - by apply votables_kept_same; apply (notification_routes_frame (GET_notifications_unread_count auth)).
  - by apply votables_kept_same; apply (notification_routes_frame (PUT_notifications_read_all auth)).
  - by apply votables_kept_same; apply (notification_routes_frame (DELETE_notifications_read_all auth)).
  - by apply votables_kept_same; apply (notification_routes_frame (GET_notifications_stats auth)).
Qed.

Lemma votables_kept_trans w1 w2 w3 :
  votables_kept w1 w2 → votables_kept w2 w3 → votables_kept w1 w3.
Proof.
  intros [Hq12 Ha12] [Hq23 Ha23]. split.
  - intros x q3 Hx.
    destruct (Hq23 x q3 Hx) as (q2 & Hx2 & -> & -> & -> & -> & -> & ->).
    destruct (Hq12 x q2 Hx2) as (q1 & Hx1 & ?). by exists q1.
  - intros x a Hx. by apply Ha12, Ha23.
Qed.

(** X16. Deleting an answer or a question, marking an answer as helpful
    and the notification routes never touch a vote: along any sequence of
    such requests, every question and answer that is left has the author,
    the score, the ledger and the acceptance it had at the start. *)
Theorem further_routes_keep_votes `{ChangeTracking} `{StatusTracking} rs s :
  Forall further_request rs →
  Forall (λ s', votables_kept (core s) (core s')) (serveS rs s).
Proof.
  intros Hrs.
  assert (∀ s0, votables_kept (core s) (core s0) →
            Forall (λ s', votables_kept (core s) (core s')) (serveS rs s0)) as Hgen.
  { induction Hrs as [|r rs Hr Hrs IH]; intros s0 Hs0; cbn [serveS]; [by constructor|].
    assert (votables_kept (core s) (core (handleS r s0).2)) as Hstep.
    { eapply votables_kept_trans; [done|]. by apply further_routes_frame. }
    constructor; [done|]. by apply IH. }
  apply Hgen. by apply votables_kept_same.
Qed.

Lemma further_routes_keep_votes_witness :
  Forall (λ s', votables_kept (core example_store) (core s'))
    (serveS (H:=always_modified) (H0:=always_modifiedS)
       [ POST_answers_helpful (Bearer 3) 20; DELETE_answers (Bearer 2) 20;
         DELETE_questions (Bearer 1) 10; PUT_notifications_read_all (Bearer 1) ]
       example_store).
Proof.
  apply (further_routes_keep_votes (H:=always_modified) (H0:=always_modifiedS)
           [ POST_answers_helpful (Bearer 3) 20; DELETE_answers (Bearer 2) 20;
             DELETE_questions (Bearer 1) 10; PUT_notifications_read_all (Bearer 1) ]
           example_store).
  repeat constructor.
Defined.

(** ** The invariants of the vote and accept pipelines, for all routes *)

Lemma votables_kept_ledgers_wf w w' :
  votables_kept w w' → every_votable ledger_wf w → every_votable ledger_wf w'.
Proof.
  intros [Hq Ha] [Hwq Hwa]. split.
  - intros x q' Hx. destruct (Hq x q' Hx) as (q & Hx0 & _ & -> & -> & -> & _).
    by apply (Hwq x q).
  - intros x a' Hx. apply (Hwa x a'). by apply Ha.
Qed.

Lemma votables_kept_acceptance_consistent w w' :
  votables_kept w w' → acceptance_consistent w → acceptance_consistent w'.
Proof.
  intros [Hq Ha] Hw aid a q' Ha' Hacc Hq'.
  destruct (Hq _ q' Hq') as (q & Hq0 & _ & _ & _ & _ & _ & ->).
  by apply (Hw aid a q); [apply Ha|..].
Qed.

Section ServerInvariantsS.
Context `{ChangeTracking} `{StatusTracking}.

Lemma handleS_keeps_invariants r s :
  every_votable ledger_wf (core s) ∧ acceptance_consistent (core s) →
  every_votable ledger_wf (core (handleS r s).2)
  ∧ acceptance_consistent (core (handleS r s).2).
Proof.
  intros [Hwf Hacc].
  assert (further_request r ∨ ∃ r0, r = Pipeline r0) as [Hr|[r0 ->]].
  { destruct r; try (by left). right. by eexists. }
  - pose proof (further_routes_frame r s Hr) as Hkept.
    split; [by eapply votables_kept_ledgers_wf | by eapply votables_kept_acceptance_consistent].
  - rename r0 into r. cbn [handleS]. unfold liftH. destruct (handle r (core s)) as [resp w'] eqn:E.
    cbn. replace w' with (handle r (core s)).2 by (by rewrite E).
    split; [by apply handle_keeps_ledgers_wf | by apply handle_keeps_acceptance_consistent].
Qed.

End ServerInvariantsS.

Section ServerInvariantsAllRoutes.
Context `{ChangeTracking} `{StatusTracking}.

Lemma serveS_keeps_invariants rs s :
  every_votable ledger_wf (core s) ∧ acceptance_consistent (core s) →
  Forall (λ s', every_votable ledger_wf (core s') ∧ acceptance_consistent (core s'))
         (serveS rs s).
Proof.
  revert s. induction rs as [|r rs IH]; intros s Hs; cbn [serveS]; [by constructor|].
  pose proof (handleS_keeps_invariants r s Hs) as Hs'.
  constructor; [done|]. by apply IH.
Qed.

(** X17. The invariants of the vote and accept pipelines survive the
    other routes: from a database in which every score matches its
    ledger, no ledger holds an account twice and every accepted answer is
    the one its question refers to, every database reached by serving
    requests of any kind has scores that match the ledgers, disjoint
    voter sets and consistent acceptance. *)
Theorem every_route_keeps_score_and_acceptance rs s :
  every_votable ledger_wf (core s) →
  acceptance_consistent (core s) →
  Forall (λ s', every_votable score_matches_ledger (core s') ∧ acceptance_consistent (core s'))
         (serveS rs s).
Proof.
  intros Hwf Hacc. eapply Forall_impl; [by apply serveS_keeps_invariants|].
  intros s' [[Hq Ha] Hacc']. split; [|done]. split.
  - intros x q Hx. apply ledger_wf_consistent. by apply (Hq x q).
  - intros x a Hx. apply ledger_wf_consistent. by apply (Ha x a).
Qed.

End ServerInvariantsAllRoutes.

Lemma every_route_keeps_score_and_acceptance_witness :
  Forall (λ s', every_votable score_matches_ledger (core s') ∧ acceptance_consistent (core s'))
         (serveS (H:=always_modified) (H0:=always_modifiedS) example_requests example_store).
Proof.
  apply (every_route_keeps_score_and_acceptance (H:=always_modified) (H0:=always_modifiedS)
           example_requests example_store).
  - apply example_world_ledgers_wf.
  - apply example_world_acceptance_consistent.
Defined.

(** ** The notifications collection *)

Lemma rows_fst s : (rows s).*1 = notifications (core s).
Proof.
  unfold rows. rewrite fmap_imap.
  rewrite (imap_ext _ (const id)) by done. by rewrite imap_const, list_fmap_id.
Qed.

Lemma rows_lookup s i :
  rows s !! i = (λ n, (n, readAt_of s i)) <$> notifications (core s) !! i.
Proof. unfold rows. by rewrite list_lookup_imap. Qed.

(** Writing the rows and reading them back. *)
Lemma rows_set_rows l s : rows (set_rows l s) = l.
Proof.
  apply list_eq. intros i. rewrite rows_lookup.
  unfold readAt_of, set_rows, with_notifications. cbn. rewrite !list_lookup_fmap.
  unfold NotificationRow in *. destruct (l !! i) as [[n t]|]; reflexivity.
Qed.

Lemma notifications_set_rows l s : notifications (core (set_rows l s)) = l.*1.
Proof. reflexivity. Qed.

Lemma readAt_of_set_rows l s i : readAt_of (set_rows l s) i = default None (snd <$> l !! i).
Proof. unfold readAt_of. cbn [set_rows notification_readAt]. by rewrite list_lookup_fmap. Qed.

Lemma with_read_recipient b n : n_recipient (NotificationModel.with_read b n) = n_recipient n.
Proof. reflexivity. Qed.

Lemma with_read_true_read n : n_read n = true → NotificationModel.with_read true n = n.
Proof. intros <-. by destruct n. Qed.

(** ** The unread count *)

Lemma unread_count_granted caller account s :
  authenticated (core s) caller account →
  notifications_router.unread_count (Bearer caller) s =
  (mkReply 200 None None (UnreadCount (unread (core s) caller)), s).
Proof.
  intros Hauth. unfold notifications_router.unread_count.
  rewrite (authenticateS_granted _ account) by done.
  unfold try_catchS, NotificationModel.getUnreadCount, NotificationModel.countDocuments.
  unfold_promiseS. cbn [u_id]. by rewrite with_core_core.
Qed.

Lemma unread_app w l userId :
  length (filter (matches (mkFilter userId (Some false))) (notifications w ++ l)) =
  unread w userId + length (filter (matches (mkFilter userId (Some false))) l).
Proof. unfold unread. by rewrite filter_app, length_app. Qed.

(** ** Marking all as read *)

(** What [markAllAsRead] does to a row. *)
Lemma read_all_granted caller account s :
  authenticated (core s) caller account →
  notificationStoreUp (core s) = true →
  notifications_router.read_all (Bearer caller) s =
  (reply 200 "All notifications marked as read",
   set_rows ((λ r : NotificationRow,
                if decide (matches (mkFilter caller (Some false)) r.1)
                then (NotificationModel.with_read true r.1, Some (now (core s))) else r)
             <$> rows s) s).
Proof.
  intros Hauth Hup. unfold notifications_router.read_all.
  rewrite (authenticateS_granted _ account) by done.
  unfold try_catchS, NotificationModel.markAllAsRead, NotificationModel.updateMany_read.
  unfold_promiseS. cbn [u_id core with_core]. rewrite Hup.
  by rewrite with_core_core.
Qed.

Lemma read_all_notifications caller s :
  ((λ r : NotificationRow,
      if decide (matches (mkFilter caller (Some false)) r.1)
      then (NotificationModel.with_read true r.1, Some (now (core s))) else r)
   <$> rows s).*1 =
  (λ n, if decide (n_recipient n = Some caller) then NotificationModel.with_read true n else n)
    <$> notifications (core s).
Proof.
  rewrite <-(rows_fst s), <-!list_fmap_compose. apply list_fmap_ext.
  intros i [n t] _. cbn. unfold matches. cbn.
  destruct (decide (n_recipient n = Some caller)) as [Hr|Hr].
  - destruct (n_read n) eqn:Hread.
    + rewrite decide_False by (intros [_ ?]; done). cbn. by rewrite with_read_true_read.
    + by rewrite decide_True.
  - by rewrite decide_False by (intros [? _]; done).
Qed.

(** X18. [PUT /read/all] while the collection accepts writes: every
    notification of the caller is read afterwards, so the caller's unread
    count is 0; the notifications of the other users, and so their unread
    counts, stay as they were; [readAt] becomes the time of the request
    for the notifications that were unread and is kept for the others. *)
Theorem read_all_marks_only_the_callers caller account s :
  authenticated (core s) caller account →
  notificationStoreUp (core s) = true →
  ∃ s', notifications_router.read_all (Bearer caller) s =
          (reply 200 "All notifications marked as read", s')
      ∧ notifications (core s') =
          (λ n, if decide (n_recipient n = Some caller)
                then NotificationModel.with_read true n else n) <$> notifications (core s)
      ∧ unread (core s') caller = 0
      ∧ (∀ other, other ≠ caller → unread (core s') other = unread (core s) other)
      ∧ ∀ i n, notifications (core s) !! i = Some n →
          readAt_of s' i =
          if decide (matches (mkFilter caller (Some false)) n)
          then Some (now (core s)) else readAt_of s i.
Proof.
  intros Hauth Hup. eexists. split; [by apply (read_all_granted _ account)|].
  rewrite notifications_set_rows, read_all_notifications. split; [done|]. split_and!.
  - unfold unread. rewrite notifications_set_rows, read_all_notifications.
    induction (notifications (core s)) as [|n l IH]; [done|].
    rewrite fmap_cons, filter_cons, decide_False; [done|].
    intros [Hr Hread]. cbn in Hr, Hread.
    destruct (decide (n_recipient n = Some caller)); done.
  - intros other Hne. unfold unread. rewrite notifications_set_rows, read_all_notifications.
    induction (notifications (core s)) as [|n l IH]; [done|].
    rewrite fmap_cons, !filter_cons.
    destruct (decide (n_recipient n = Some caller)) as [Hr|Hr].
    + rewrite !decide_False; [done| |].
      * intros [Hr' _]. cbn in Hr'. congruence.
      * intros [Hr' _]. cbn in Hr'. congruence.
    + destruct (decide (matches _ n)); cbn; by rewrite IH.
  - intros i n Hi. rewrite readAt_of_set_rows, list_lookup_fmap, rows_lookup, Hi. cbn.
    by destruct (decide (matches _ n)).
Qed.

Lemma read_all_marks_only_the_callers_witness :
  ∃ s', notifications_router.read_all (Bearer 1) example_store_notified =
          (reply 200 "All notifications marked as read", s')
      ∧ notifications (core s') =
          (λ n, if decide (n_recipient n = Some 1)
                then NotificationModel.with_read true n else n)
            <$> notifications (core example_store_notified)
      ∧ unread (core s') 1 = 0
      ∧ (∀ other, other ≠ 1 →
           unread (core s') other = unread (core example_store_notified) other)
      ∧ ∀ i n, notifications (core example_store_notified) !! i = Some n →
          readAt_of s' i =
          if decide (matches (mkFilter 1 (Some false)) n)
          then Some (now (core example_store_notified))
          else readAt_of example_store_notified i.
Proof.
  apply (read_all_marks_only_the_callers 1 (mkUser "alice" 10 true) example_store_notified).
  - split; reflexivity.
  - reflexivity.
Defined.

(** ** Deleting the read notifications *)

Lemma delete_read_all_granted caller account s :
  authenticated (core s) caller account →
  notificationStoreUp (core s) = true →
  notifications_router.delete_read_all (Bearer caller) s =
  (reply 200 "All read notifications deleted",
   set_rows (filter (λ r : NotificationRow, ¬ matches (mkFilter caller (Some true)) r.1)
                    (rows s)) s).
Proof.
  intros Hauth Hup. unfold notifications_router.delete_read_all.
  rewrite (authenticateS_granted _ account) by done.
  unfold try_catchS, NotificationModel.deleteMany.
  unfold_promiseS. cbn [u_id]. by rewrite Hup.
Qed.

Lemma fmap_fst_filter_rows f (l : list NotificationRow) :
  (filter (λ r : NotificationRow, ¬ matches f r.1) l).*1 =
  filter (λ n, ¬ matches f n) (l.*1).
Proof.
  induction l as [|[n t] l IH]; [done|].
  rewrite fmap_cons, !filter_cons. cbn [fst].
  destruct (decide (¬ matches f n)); cbn; by rewrite IH.
Qed.

(** X19. [DELETE /read/all] while the collection accepts writes removes
    the notifications of the caller that are read and no other: each
    notification that is left keeps its [readAt], and the unread count of
    every user stays as it was. *)
Theorem delete_read_all_removes_only_the_callers_read caller account s :
  authenticated (core s) caller account →
  notificationStoreUp (core s) = true →
  ∃ s', notifications_router.delete_read_all (Bearer caller) s =
          (reply 200 "All read notifications deleted", s')
      ∧ rows s' =
          filter (λ r : NotificationRow, ¬ (n_recipient r.1 = Some caller ∧ n_read r.1 = true))
                 (rows s)
      ∧ notifications (core s') =
          filter (λ n, ¬ (n_recipient n = Some caller ∧ n_read n = true))
                 (notifications (core s))
      ∧ ∀ user, unread (core s') user = unread (core s) user.
Proof.
  intros Hauth Hup. eexists. split; [by apply (delete_read_all_granted _ account)|].
  rewrite rows_set_rows, notifications_set_rows. split; [done|].
  rewrite fmap_fst_filter_rows, rows_fst.
  split; [done|].
  intros user. unfold unread. rewrite notifications_set_rows.
  rewrite fmap_fst_filter_rows, rows_fst.
  induction (notifications (core s)) as [|n l IH]; [done|].
  rewrite !filter_cons.
  destruct (decide (¬ matches (mkFilter caller (Some true)) n)) as [Hkeep|Hgone].
  - rewrite filter_cons. destruct (decide (matches _ n)); [cbn [length]|]; by rewrite IH.
  - apply dec_stable in Hgone as [_ Hread]. cbn in Hread.
    rewrite decide_False; [done|]. intros [_ Hunread]. cbn in Hunread. congruence.
Qed.

Lemma delete_read_all_removes_only_the_callers_read_witness :
  ∃ s', notifications_router.delete_read_all (Bearer 1) example_store_read =
          (reply 200 "All read notifications deleted", s')
      ∧ rows s' =
          filter (λ r : NotificationRow, ¬ (n_recipient r.1 = Some 1 ∧ n_read r.1 = true))
                 (rows example_store_read)
      ∧ notifications (core s') =
          filter (λ n, ¬ (n_recipient n = Some 1 ∧ n_read n = true))
                 (notifications (core example_store_read))
      ∧ ∀ user, unread (core s') user = unread (core example_store_read) user.
Proof.
  apply (delete_read_all_removes_only_the_callers_read 1 (mkUser "alice" 10 true)
           example_store_read).
  - split; reflexivity.
  - reflexivity.
Defined.

(** ** Notification statistics *)

Lemma sum_list_perm (l1 l2 : list nat) : l1 ≡ₚ l2 → sum_list l1 = sum_list l2.
Proof. induction 1; cbn; lia. Qed.

Lemma sum_list_fmap_add {A} (f g : A → nat) (l : list A) :
  sum_list ((λ x, f x + g x) <$> l) = sum_list (f <$> l) + sum_list (g <$> l).
Proof. induction l as [|x l IH]; cbn; lia. Qed.

Lemma sum_list_indicator (t : NotificationType) (ts : list NotificationType) :
  NoDup ts → t ∈ ts →
  sum_list ((λ t', if decide (t = t') then 1 else 0) <$> ts) = 1.
Proof.
  induction 1 as [|t0 ts Hnotin Hnodup IH]; intros Hin; [by apply elem_of_nil in Hin|].
  cbn. apply elem_of_cons in Hin as [->|Hin].
  - rewrite decide_True by done.
    rewrite (sum_list_fmap_same 0); [lia|].
    apply Forall_forall. intros t' Ht'. rewrite decide_False; [done|]. by intros ->.
  - rewrite decide_False by (by intros ->). by rewrite IH.
Qed.

(** The counts of the groups add up to the number of documents. *)
Lemma count_by_type_sum (ts : list NotificationType) (l : list NotificationDoc) :
  NoDup ts → (∀ n, n ∈ l → n_type n ∈ ts) →
  sum_list ((λ t, length (filter (λ n, n_type n = t) l)) <$> ts) = length l.
Proof.
  intros Hnodup. induction l as [|n l IH]; intros Hall.
  - cbn. rewrite (sum_list_fmap_same 0); [lia|]. by apply Forall_forall.
  - rewrite (list_fmap_ext _
      (λ t, (if decide (n_type n = t) then 1 else 0) + length (filter (λ n, n_type n = t) l))).
    2:{ intros _ t _. rewrite filter_cons. by destruct (decide (n_type n = t)). }
    rewrite sum_list_fmap_add, sum_list_indicator, IH; [done| |done|].
    + intros n' Hn'. apply Hall. by right.
    + apply Hall. by left.
Qed.

Lemma group_by_type_sum l : sum_list ((NotificationModel.group_by_type l).*2) = length l.
Proof.
  unfold NotificationModel.group_by_type. rewrite <-list_fmap_compose.
  apply count_by_type_sum; [apply NoDup_remove_dups|].
  intros n Hn. apply elem_of_remove_dups, list_elem_of_fmap. by exists n.
Qed.

Lemma group_by_type_types l :
  (NotificationModel.group_by_type l).*1 = remove_dups (n_type <$> l).
Proof.
  unfold NotificationModel.group_by_type. rewrite <-list_fmap_compose. apply list_fmap_id.
Qed.

Lemma elem_of_group_by_type l t c :
  (t, c) ∈ NotificationModel.group_by_type l →
  (0 < c)%nat ∧ c = length (filter (λ n, n_type n = t) l).
Proof.
  unfold NotificationModel.group_by_type.
  intros (t' & [= <- ->] & Ht)%list_elem_of_fmap. split; [|done].
  apply elem_of_remove_dups, list_elem_of_fmap in Ht as (n & -> & Hn).
  assert (n ∈ filter (λ n0, n_type n0 = n_type n) l) as Hin by (by apply list_elem_of_filter).
  destruct (filter _ l); [by apply elem_of_nil in Hin | cbn; lia].
Qed.

(** The three counts of the route. *)
Lemma count_read_split caller l :
  length (filter (matches (mkFilter caller None)) l) =
  length (filter (matches (mkFilter caller (Some false))) l)
  + length (filter (matches (mkFilter caller (Some true))) l).
Proof.
  induction l as [|n l IH]; [done|]. rewrite !filter_cons.
  destruct (decide (matches (mkFilter caller None) n)) as [H0|H0];
    destruct (decide (matches (mkFilter caller (Some false)) n)) as [H1|H1];
    destruct (decide (matches (mkFilter caller (Some true)) n)) as [H2|H2];
    cbn [length]; rewrite ?IH; try lia; exfalso;
    unfold matches in H0, H1, H2; cbn in H0, H1, H2; destruct (n_read n); intuition congruence.
Qed.

Lemma filter_type_of_matching caller t (l : list NotificationDoc) :
  filter (λ n, n_type n = t) (filter (matches (mkFilter caller None)) l) =
  filter (λ n, n_recipient n = Some caller ∧ n_type n = t) l.
Proof.
  induction l as [|n l IH]; [done|]. rewrite !filter_cons.
  destruct (decide (matches (mkFilter caller None) n)) as [H0|H0];
    rewrite ?filter_cons;
    destruct (decide (n_type n = t)) as [H1|H1];
    destruct (decide (n_recipient n = Some caller ∧ n_type n = t)) as [H2|H2];
    rewrite ?IH; try done; exfalso;
    unfold matches in H0; cbn in H0; intuition congruence.
Qed.

(** X20. The statistics [GET /stats] reports to a user: [total] is
    [unread] plus [read], [unread] is the user's unread count, the counts
    by type add up to [total], no type is listed twice or with a count of
    0, each count is the number of the user's notifications of that type,
    and the list is in descending order of count.  The database is left as
    it was. *)
Theorem notification_stats_add_up caller account s :
  authenticated (core s) caller account →
  ∃ total unread_ read_ byType,
    notifications_router.stats (Bearer caller) s =
      (mkReply 200 None None (Stats total unread_ read_ byType), s)
    ∧ total = (unread_ + read_)%nat
    ∧ unread_ = unread (core s) caller
    ∧ sum_list (byType.*2) = total
    ∧ NoDup (byType.*1)
    ∧ StronglySorted (λ x y, (y.2 ≤ x.2)%nat) byType
    ∧ ∀ t c, (t, c) ∈ byType →
        (0 < c)%nat
        ∧ c = length (filter (λ n, n_recipient n = Some caller ∧ n_type n = t)
                             (notifications (core s))).
Proof.
  intros Hauth. unfold notifications_router.stats.
  rewrite (authenticateS_granted _ account) by done.
  unfold try_catchS, NotificationModel.countDocuments, NotificationModel.aggregate_by_type.
  unfold_promiseS. cbn [u_id]. rewrite !with_core_core.
  eexists _, _, _, _. split; [reflexivity|].
  set (l := notifications (core s)).
  set (mine := filter (matches (mkFilter caller None)) l).
  pose proof (merge_sort_Permutation NotificationModel.count_desc
                (NotificationModel.group_by_type mine)) as Hperm.
  split_and!.
  - apply count_read_split.
  - done.
  - rewrite (sum_list_perm _ ((NotificationModel.group_by_type mine).*2)).
    + apply group_by_type_sum.
    + by apply fmap_Permutation.
  - rewrite (fmap_Permutation fst _ _ Hperm), group_by_type_types. apply NoDup_remove_dups.
  - apply (StronglySorted_merge_sort NotificationModel.count_desc); apply _.
  - intros t c Hin. rewrite Hperm in Hin.
    apply elem_of_group_by_type in Hin as [? ->]. split; [done|].
    subst mine. by rewrite filter_type_of_matching.
Qed.

Lemma notification_stats_add_up_witness :
  ∃ total unread_ read_ byType,
    notifications_router.stats (Bearer 1) example_store_notified =
      (mkReply 200 None None (Stats total unread_ read_ byType), example_store_notified)
    ∧ total = (unread_ + read_)%nat
    ∧ unread_ = unread (core example_store_notified) 1
    ∧ sum_list (byType.*2) = total
    ∧ NoDup (byType.*1)
    ∧ StronglySorted (λ x y, (y.2 ≤ x.2)%nat) byType
    ∧ ∀ t c, (t, c) ∈ byType →
        (0 < c)%nat
        ∧ c = length (filter (λ n, n_recipient n = Some 1 ∧ n_type n = t)
                             (notifications (core example_store_notified))).
Proof.
  apply (notification_stats_add_up 1 (mkUser "alice" 10 true) example_store_notified).
  split; reflexivity.
Defined.

(** ** Votes and the unread count *)

Section VotesAndUnread.
Context `{ChangeTracking} `{StatusTracking}.

(** The notifications and the accounts after a vote request that reaches
    its pipeline while the collection accepts writes. *)
Lemma vote_route_notifications_and_accounts t v caller account author author_account w :
  authenticated w caller account →
  votable_author w t = Some author →
  author ≠ caller →
  users w !! author = Some author_account →
  (String.length (username account) ≤ 50)%nat →
  notificationStoreUp w = true →
  let w' := (handle (vote_request t (Bearer caller) (voteType_string v)) w).2 in
  notifications w' =
    notifications w ++
      (if bool_decide (v = remove) then []
       else [vote_notification t author (caller, account) v])
  ∧ ∀ reader reader_account,
      authenticated w reader reader_account →
      ∃ reader_account', authenticated w' reader reader_account'.
Proof.
  intros Hauth Hauthor Hne Haccount Hname Hup. cbn zeta.
  assert (∃ l, votable_ledger w t = Some l) as [l Hl].
  { destruct t as [id|id]; cbn in *.
    - destruct (questions w !! id); [by eauto|done].
    - destruct (answers w !! id); [by eauto|done]. }
  destruct (vote_route_frame t v caller account author w Hauth Hauthor Hne) as (Hu' & _ & _).
  pose proof (perform_users (mkVoteOperation t v caller) w author l Hauthor Hl) as Hu.
  cbn [target operation actor] in Hu.
  split.
  - rewrite (vote_route_granted t v caller account author) by done. cbn zeta.
    destruct (perform_effects t v caller w l author Hauthor Hl) as (_ & Hn & Hs & _).
    destruct (bool_decide (v = remove)); cbn [snd]; [by rewrite Hn, app_nil_r|].
    assert (is_Some (users (perform (mkVoteOperation t v caller) w) !! author)) as [a' Ha'].
    { rewrite Hu, award_lookup, decide_True, Haccount by done. by eexists. }
    rewrite (notify_vote_issued t author (caller, account) v _ a') by done.
    cbn zeta. rewrite Hs, Hup. cbn. by rewrite Hn.
  - intros reader reader_account [Hreader Hactive].
    unfold authenticated. rewrite Hu', Hu, award_lookup, Hreader.
    destruct (decide (author = reader)); eexists; split; reflexivity || done.
Qed.

(** X21. A vote and the unread count: after an [up] or [down] vote that
    reaches the pipeline while the collection accepts writes, the unread
    count the author of the target is told is one higher than before, and
    the count of every other user is what it was; a [remove] changes no
    count. *)
Theorem vote_raises_the_unread_count_of_the_author
    t v caller account author author_account reader reader_account s :
  authenticated (core s) caller account →
  votable_author (core s) t = Some author →
  author ≠ caller →
  users (core s) !! author = Some author_account →
  (String.length (username account) ≤ 50)%nat →
  notificationStoreUp (core s) = true →
  authenticated (core s) reader reader_account →
  let s' := (handleS (Pipeline (vote_request t (Bearer caller) (voteType_string v))) s).2 in
  (notifications_router.unread_count (Bearer reader) s').1 =
  mkReply 200 None None
    (UnreadCount (unread (core s) reader
                  + if decide (v ≠ remove ∧ reader = author) then 1 else 0)).
Proof.
  intros Hauth Hauthor Hne Haccount Hname Hup Hreader. cbn zeta.
  destruct (vote_route_notifications_and_accounts t v caller account author author_account
              (core s) Hauth Hauthor Hne Haccount Hname Hup) as [Hn Hstill].
  destruct (Hstill reader reader_account Hreader) as [reader_account' Hreader'].
  cbn [handleS]. unfold liftH.
  destruct (handle (vote_request t (Bearer caller) (voteType_string v)) (core s))
    as [resp w'] eqn:E.
  cbn [snd] in *.
  rewrite (unread_count_granted _ reader_account') by done. cbn [fst core with_core].
  do 2 f_equal. unfold unread at 1. rewrite Hn, unread_app.
  f_equal. destruct (decide (v = remove)) as [->|Hv].
  - rewrite bool_decide_eq_true_2 by done.
    by rewrite decide_False by (by intros [? _]).
  - rewrite bool_decide_eq_false_2 by done.
    rewrite filter_cons, filter_nil.
    assert (matches (mkFilter reader (Some false))
              (vote_notification t author (caller, account) v) ↔ reader = author) as Hm.
    { unfold matches. destruct t; cbn; (split; [by intros [[= ->] _]|by intros ->]). }
    destruct (decide (reader = author)) as [->|Hr].
    + rewrite decide_True by (by apply Hm). by rewrite decide_True.
    + rewrite decide_False by (by rewrite Hm). by rewrite decide_False by (by intros [_ ?]).
Qed.

End VotesAndUnread.

Lemma vote_raises_the_unread_count_of_the_author_witness :
  let s' := (handleS (H:=always_modified) (H0:=always_modifiedS)
               (Pipeline (vote_request (AQuestion 10) (Bearer 2) (voteType_string up)))
               example_store).2 in
  (notifications_router.unread_count (Bearer 1) s').1 =
  mkReply 200 None None
    (UnreadCount (unread (core example_store) 1
                  + if decide (up ≠ remove ∧ 1 = 1) then 1 else 0)).
Proof.
  apply (vote_raises_the_unread_count_of_the_author (H:=always_modified) (H0:=always_modifiedS)
           (AQuestion 10) up 2 (mkUser "bob" 0 true) 1 (mkUser "alice" 0 true)
           1 (mkUser "alice" 0 true) example_store).
  - split; reflexivity.
  - reflexivity.
  - lia.
  - reflexivity.
  - cbn. lia.
  - reflexivity.
  - split; reflexivity.
Defined.

(** ** A vote on an answer, then its deletion *)

Section VoteThenDelete.
Context `{ChangeTracking} `{StatusTracking}.

(** A vote on the answer of somebody else: the answer stays with its
    author and question, the question gets the bump of the post-save
    hook, and every account stays active. *)
Lemma answer_vote_route_effect v voter voter_account id a w :
  authenticated w voter voter_account →
  answers w !! id = Some a →
  a_author a ≠ voter →
  let w' := (handle (POST_answers_vote (Bearer voter) id (voteType_string v)) w).2 in
  (∃ t, questions w' = alter (Answer.bump_question t) (a_question a) (questions w))
  ∧ answers w' = <[id := answer_after_vote v voter a]> (answers w)
  ∧ ∀ reader reader_account,
      authenticated w reader reader_account →
      ∃ reader_account', authenticated w' reader reader_account'.
Proof.
  intros Hauth Ha Hne. cbn zeta.
  assert (votable_author w (AnAnswer id) = Some (a_author a)) as Hauthor
    by (cbn; by rewrite Ha).
  destruct (vote_route_frame (AnAnswer id) v voter voter_account (a_author a) w
              Hauth Hauthor Hne) as (Hu & Hq & Has).
  cbn [vote_request] in *.
  destruct (perform_answer_frame id a v voter w Ha) as (t & Hq' & Ha').
  split; [exists t; by rewrite Hq, Hq'|]. split; [by rewrite Has, Ha'|].
  intros reader reader_account [Hreader Hactive].
  pose proof (perform_users (mkVoteOperation (AnAnswer id) v voter) w (a_author a)
                (a_upvotes a, a_downvotes a) Hauthor) as Hpu.
  cbn [target operation actor] in Hpu. rewrite Hpu in Hu by (cbn; by rewrite Ha).
  unfold authenticated. rewrite Hu, award_lookup, Hreader.
  destruct (decide (a_author a = reader)); eexists; split; reflexivity || done.
Qed.

(** X22. [answerCount] is not the number of answers: a vote on an answer
    raises the count of its question and the deletion of the answer
    lowers it, so after both the count is what it was before the vote,
    with one answer fewer. *)
Theorem a_vote_and_the_deletion_cancel_in_answerCount
    v voter voter_account author author_account id a q s :
  authenticated (core s) voter voter_account →
  authenticated (core s) author author_account →
  answers (core s) !! id = Some a →
  a_author a = author →
  author ≠ voter →
  questions (core s) !! a_question a = Some q →
  let s1 := (handleS (Pipeline (POST_answers_vote (Bearer voter) id (voteType_string v))) s).2 in
  let s2 := (handleS (DELETE_answers (Bearer author) id) s1).2 in
  answers (core s2) !! id = None
  ∧ q_answerCount <$> questions (core s2) !! a_question a = Some (q_answerCount q).
Proof.
  intros Hvoter Hauthor Ha Hown Hne Hq. cbn zeta.
  destruct (answer_vote_route_effect v voter voter_account id a (core s) Hvoter Ha)
    as ((t & Hq1) & Ha1 & Hstill); [by rewrite Hown|].
  destruct (Hstill author author_account Hauthor) as [author_account' Hauthor'].
  cbn [handleS]. unfold liftH.
  destruct (handle (POST_answers_vote (Bearer voter) id (voteType_string v)) (core s))
    as [resp w1] eqn:E.
  cbn [snd] in *.
  rewrite (delete_answer_granted author author_account' id (answer_after_vote v voter a)).
  - cbn. split; [apply lookup_delete_eq|].
    change (a_question (answer_after_vote v voter a)) with (a_question a).
    rewrite lookup_alter_eq, Hq1, lookup_alter_eq, Hq. cbn. f_equal. lia.
  - done.
  - cbn. by rewrite Ha1, lookup_insert_eq.
  - done.
Qed.

End VoteThenDelete.

Lemma a_vote_and_the_deletion_cancel_in_answerCount_witness :
  let s1 := (handleS (H:=always_modified) (H0:=always_modifiedS)
               (Pipeline (POST_answers_vote (Bearer 1) 20 (voteType_string up)))
               example_store).2 in
  let s2 := (handleS (H:=always_modified) (H0:=always_modifiedS)
               (DELETE_answers (Bearer 2) 20) s1).2 in
  answers (core s2) !! 20 = None
  ∧ q_answerCount <$> questions (core s2) !! 10 = Some 2%Z.
Proof.
  apply (a_vote_and_the_deletion_cancel_in_answerCount (H:=always_modified)
           (H0:=always_modifiedS) up 1 (mkUser "alice" 0 true) 2 (mkUser "bob" 0 true) 20
           (mkAnswer 2 10 0 [] [] false) (mkQuestion 1 0 [] [] 2 false None 0) example_store).
  - split; reflexivity.
  - split; reflexivity.
  - reflexivity.
  - reflexivity.
  - lia.
  - reflexivity.
Defined.

(** ** Routing *)

Lemma dispatch_Some routes m path route params :
  Router.dispatch routes m path = Some (route, params) →
  route ∈ routes ∧ Router.route_method route = m
  ∧ Router.path_matches (Router.route_path route) path = Some params.
Proof.
  induction routes as [|r routes IH]; [done|]. cbn [Router.dispatch].
  case_bool_decide as Hm.
  - destruct (Router.path_matches (Router.route_path r) path) as [ps|] eqn:E.
    + intros [= <- <-]. split; [by left|done].
    + intros Hd. destruct (IH Hd) as (? & ? & ?). split; [by right|done].
  - intros Hd. destruct (IH Hd) as (? & ? & ?). split; [by right|done].
Qed.

(** The keys of the parameters are the names in the route path. *)
Lemma path_matches_keys pattern path params :
  Router.path_matches pattern path = Some params →
  params.*1 = omap (λ seg, match seg with Router.Param name => Some name | _ => None end) pattern.
Proof.
  revert path params. induction pattern as [|seg pattern IH]; intros [|s path] params; cbn.
  - by intros [= <-].
  - done.
  - by destruct seg.
  - destruct seg as [l|name].
    + case_bool_decide; [|done]. apply IH.
    + case_bool_decide; [done|].
      destruct (Router.path_matches pattern path) as [ps|] eqn:E; [|done].
      cbn. intros [= <-]. cbn. f_equal. by apply (IH path).
Qed.

Lemma objectId_accepts_id params :
  Router.objectId_accepts params = true → "id" ∈ params.*1.
Proof.
  unfold Router.objectId_accepts. intros [_ Hex]%andb_prop.
  apply existsb_exists in Hex as ([k v] & Hin & Hk). cbn in Hk.
  apply bool_decide_eq_true in Hk as ->.
  apply list_elem_of_fmap. exists ("id", v). split; [done|]. by apply list_elem_of_In.
Qed.

(** X23. The route [DELETE /bulk] of the notifications router is never
    reached: [DELETE /:id] is registered before it and matches every
    path that [/bulk] matches, so no [DELETE] request is dispatched to the
    bulk deletion. *)
Theorem delete_bulk_is_shadowed path :
  fst <$> Router.dispatch Router.notification_routes Router.DELETE path
    ≠ Some Router.delete_bulk
  ∧ (is_Some (Router.path_matches (Router.route_path Router.delete_bulk) path) →
     fst <$> Router.dispatch Router.notification_routes Router.DELETE path
       = Some Router.delete_one).
Proof.
  unfold Router.notification_routes. cbn [Router.dispatch Router.route_method].
  rewrite !(bool_decide_eq_false_2 (Router.GET = Router.DELETE)) by done.
  rewrite !(bool_decide_eq_false_2 (Router.PUT = Router.DELETE)) by done.
  rewrite !(bool_decide_eq_false_2 (Router.POST = Router.DELETE)) by done.
  rewrite !(bool_decide_eq_true_2 (Router.DELETE = Router.DELETE)) by done.
  destruct path as [|s [|s' path]]; cbn.
  - split; [discriminate|]. intros [? Hx]. discriminate Hx.
  - destruct (decide (s = EmptyString)) as [->|Hs].
    + rewrite bool_decide_eq_true_2 by done. cbn.
      repeat (rewrite bool_decide_eq_false_2 by discriminate). cbn.
      split; [discriminate|]. intros [? Hx]. discriminate Hx.
    + rewrite bool_decide_eq_false_2 by done. cbn. split; [discriminate|done].
  - unfold Router.delete_bulk, Router.delete_one.
    repeat (case_bool_decide; cbn); try (destruct path; cbn);
      (split; [discriminate|]); intros [? Hx]; discriminate Hx.
Qed.

(** X24. Four routes of the answers router always fail their parameter
    check: the schema requires the parameter [id], and the paths
    [/question/:questionId], [/user/:userId], [/user/:userId/top] and
    [/user/:userId/accepted] bind another name.  Every request dispatched
    to one of them is answered 400 by [validateParams], whatever the
    handler behind it. *)
Theorem routes_without_id_fail_validation path route params next w :
  Router.dispatch Router.answer_routes Router.GET path = Some (route, params) →
  route ∈ Router.routes_without_id →
  Router.validateParams_mw "objectId" ∈ Router.route_middleware route
  ∧ Router.validateParams params next w = (json 400 "Parameter validation error", w).
Proof.
  intros (_ & _ & Hmatch)%dispatch_Some Hroute.
  apply path_matches_keys in Hmatch.
  assert (Router.validateParams_mw "objectId" ∈ Router.route_middleware route
          ∧ "id" ∉ params.*1) as [Hmw Hid].
  { unfold Router.routes_without_id in Hroute.
    rewrite !elem_of_cons, elem_of_nil in Hroute.
    destruct Hroute as [->|[->|[->|[->|[]]]]]; cbn in Hmatch; rewrite Hmatch;
      (split; [set_solver|]); rewrite !elem_of_cons, elem_of_nil; intros H'; 
      repeat (destruct H' as [H'|H']; [done|]); done. }
  split; [done|]. unfold Router.validateParams.
  destruct (Router.objectId_accepts params) eqn:E; [|done].
  by apply objectId_accepts_id in E.
Qed.

Lemma routes_without_id_fail_validation_witness :
  Router.validateParams_mw "objectId" ∈ Router.route_middleware Router.answers_of_user
  ∧ Router.validateParams [("userId", "0123456789abcdef01234567")]
      (λ w, (json 200 "ok", w)) example_world
    = (json 400 "Parameter validation error", example_world).
Proof.
  apply (routes_without_id_fail_validation ["user"; "0123456789abcdef01234567"]
           Router.answers_of_user [("userId", "0123456789abcdef01234567")]
           (λ w, (json 200 "ok", w)) example_world).
  - reflexivity.
  - unfold Router.routes_without_id. set_solver.
Defined.

(** ** Reading all notifications, then deleting the read ones *)

(** X25. [PUT /read/all] followed by [DELETE /read/all] empties the
    caller's inbox and nobody else's: the notifications that are left are
    those of the other users, as they were and in their order. *)
Theorem reading_then_deleting_empties_the_inbox caller account s :
  authenticated (core s) caller account →
  notificationStoreUp (core s) = true →
  let s1 := (notifications_router.read_all (Bearer caller) s).2 in
  let s2 := (notifications_router.delete_read_all (Bearer caller) s1).2 in
  notifications (core s2) =
  filter (λ n, n_recipient n ≠ Some caller) (notifications (core s)).
Proof.
  intros Hauth Hup. cbn zeta.
  rewrite (read_all_granted _ account) by done. cbn [snd].
  rewrite (delete_read_all_granted _ account) by done. cbn [snd].
  rewrite notifications_set_rows, fmap_fst_filter_rows, rows_set_rows, read_all_notifications.
  induction (notifications (core s)) as [|n l IH]; [done|].
  rewrite fmap_cons, !filter_cons, IH.
  destruct (decide (n_recipient n = Some caller)) as [Hr|Hr].
  - rewrite decide_False; [|intros Hkeep; apply Hkeep; by split].
    by rewrite decide_False by (by intros ?).
  - rewrite decide_True by (by intros [? _]). by rewrite decide_True.
Qed.

Lemma reading_then_deleting_empties_the_inbox_witness :
  let s1 := (notifications_router.read_all (Bearer 1) example_store_notified).2 in
  let s2 := (notifications_router.delete_read_all (Bearer 1) s1).2 in
  notifications (core s2) =
  filter (λ n, n_recipient n ≠ Some 1) (notifications (core example_store_notified)).
Proof.
  apply (reading_then_deleting_empties_the_inbox 1 (mkUser "alice" 10 true)
           example_store_notified).
  - split; reflexivity.
  - reflexivity.
Defined.
